(** * Game of Life over MPI (src/src/life.c): a shallow embedding

    The C program distributes Conway's Game of Life over [world_size] MPI
    processes.  Rank 0 fills the board, computes one [ProcInfo] (offset and
    number of cells) per process, and then, every iteration, ships the whole
    board to every process, lets each one run [apply_rules] on its own range
    and gathers the ranges back into its [new_game_state] buffer.

    Conventions of the embedding:
    - a C [int] is a [Z]; the arithmetic operators wrap to 32 bits
      ([wrap]), the behaviour of the usual two's-complement targets (signed
      overflow is undefined in ISO C, so the theorems are stated for the
      range in which no operation overflows);
    - a [bool*] buffer is a [list bool]; every array read and write is
      bounds-checked and returns [None] outside the allocation, so that a
      result [Some _] also says that the run never left its buffers;
    - the buffer a process writes to carries the trace of the indices it
      stored to, in program order. *)

From Stdlib Require Import ZArith Lia Ascii String.
From stdpp Require Import functions base tactics option list numbers strings.

Local Open Scope Z_scope.

(** ** C [int] arithmetic *)

Module Int.

Definition INT_MAX : Z := 2147483647.
Definition INT_MIN : Z := -2147483648.

Definition wrap (z : Z) : Z := (z + 2 ^ 31) mod 2 ^ 32 - 2 ^ 31.

Definition add (a b : Z) : Z := wrap (a + b).
Definition sub (a b : Z) : Z := wrap (a - b).
Definition mul (a b : Z) : Z := wrap (a * b).
Definition neg (a : Z) : Z := wrap (- a).
(** [%] truncates towards zero (C99 6.5.5). *)
Definition rem (a b : Z) : Z := Z.rem a b.
(** [abs] from stdlib.h. *)
Definition abs (a : Z) : Z := wrap (Z.abs a).

Definition fits (z : Z) : Prop := INT_MIN <= z <= INT_MAX.

End Int.

(** ** Arrays and loops *)

(** [a[i]] as an rvalue. *)
Definition load {A} (a : list A) (i : Z) : option A :=
  if 0 <=? i then a !! Z.to_nat i else None.

(** [a[i] = x]. *)
Definition store {A} (a : list A) (i : Z) (x : A) : option (list A) :=
  if (0 <=? i) && (i <? Z.of_nat (length a))
  then Some (<[Z.to_nat i := x]> a) else None.

(** [for (int i = lo; i < hi; ++i) body], for a body that assigns neither [i]
    nor [hi]: [n] iterations are left and the counter stands at [i].  The
    counter stays below [hi], itself an [int], so [++i] never overflows. *)
Fixpoint for_loop {St} (n : nat) (i : Z) (body : Z -> St -> option St) (s : St)
  : option St :=
  match n with
  | O => Some s
  | S n' => s' ← body i s; for_loop n' (i + 1) body s'
  end.

Definition for_range {St} (lo hi : Z) (body : Z -> St -> option St) (s : St)
  : option St :=
  for_loop (Z.to_nat (hi - lo)) lo body s.

(** ** The data of life.c *)

Record ProcInfo := { offset : Z; num_cells : Z }.

(** A buffer a process writes to: its cells, and the indices stored to so
    far (oldest first). *)
Record Buf := { cells : list bool; writes : list Z }.

Definition buf_store (m : Buf) (i : Z) (b : bool) : option Buf :=
  c ← store (cells m) i b;
  Some {| cells := c; writes := writes m ++ [i] |}.

(** [calloc (n, sizeof (bool))]. *)
Definition calloc_bool (n : Z) : list bool := replicate (Z.to_nat n) false.

(** main, lines 65-67. *)
Definition adjacency_offsets (width : Z) : list Z :=
  [ Int.neg (Int.add width 1); Int.neg width; Int.neg (Int.sub width 1); -1; 1;
    Int.sub width 1; width; Int.add width 1 ].

(** ** apply_rules *)

(** The edge tests of the [if] at lines 195-203: top edge, bottom edge,
    left and right edges. *)
Definition edge_tests (width height curr_cell_index offset : Z) : bool :=
  (0 <=? Int.add curr_cell_index offset)
  && (Int.add curr_cell_index offset <? Int.mul width height)
  && (Int.abs (Int.sub (Int.rem curr_cell_index width)
                       (Int.rem (Int.add curr_cell_index offset) width)) <=? 1).

(** The whole condition, lines 195-205, with the short-circuit evaluation
    of [&&]: the board is read only when the edge tests have passed. *)
Definition alive_adjacent (last_game_state : list bool) (width height : Z)
    (curr_cell_index offset : Z) : option bool :=
  if edge_tests width height curr_cell_index offset
  then load last_game_state (Int.add curr_cell_index offset)
  else Some false.

(** The inner loop, lines 185-209: [alive_adj_cells] after the eight
    offsets. *)
Definition count_alive_adj (last_game_state : list bool)
    (adjacency_offsets : list Z) (width height curr_cell_index : Z)
  : option Z :=
  for_range 0 8
    (fun adj_ind alive_adj_cells =>
       offset ← load adjacency_offsets adj_ind;
       alive ← alive_adjacent last_game_state width height curr_cell_index offset;
       Some (if alive : bool then Int.add alive_adj_cells 1 else alive_adj_cells))
    0.

(** Lines 185-224 for one cell: the value stored to
    [new_game_state[curr_cell_index]]. *)
Definition apply_rules_cell (last_game_state : list bool)
    (adjacency_offsets : list Z) (width height curr_cell_index : Z)
  : option bool :=
  alive_adj_cells ← count_alive_adj last_game_state adjacency_offsets
                      width height curr_cell_index;
  me ← load last_game_state curr_cell_index;
  Some (if me : bool
        then (if (alive_adj_cells =? 2) || (alive_adj_cells =? 3)
              then true else false)
        else (if alive_adj_cells =? 3 then true else false)).

Definition apply_rules (proc_data : list ProcInfo) (last_game_state : list bool)
    (new_game_state : Buf) (world_rank : Z) (adjacency_offsets : list Z)
    (width height : Z) : option Buf :=
  me ← load proc_data world_rank;
  for_range 0 (num_cells me)
    (fun idx new_game_state =>
       let curr_cell_index := Int.add (offset me) idx in
       b ← apply_rules_cell last_game_state adjacency_offsets width height
             curr_cell_index;
       buf_store new_game_state curr_cell_index b)
    new_game_state.

(** ** Message passing

    [MPI_Send (buf + off, n, MPI_C_BOOL, ...)] reads the [n] cells from
    [buf + off]; the matching [MPI_Recv (buf + off, n, ...)] stores the
    message, which may not be longer than [n], cell by cell from [buf + off].
    A negative count is an MPI error, which is fatal under the default
    error handler: [None], like a run that leaves its buffers. *)
Definition mpi_send (buf : list bool) (off n : Z) : option (list bool) :=
  if n <? 0 then None else mapM (fun k => load buf (off + k)) (seqZ 0 n).

Fixpoint recv_cells (m : Buf) (i : Z) (msg : list bool) : option Buf :=
  match msg with
  | [] => Some m
  | b :: msg' => m' ← buf_store m i b; recv_cells m' (i + 1) msg'
  end.

Definition mpi_recv (m : Buf) (off n : Z) (msg : list bool) : option Buf :=
  if Z.of_nat (length msg) <=? n then recv_cells m off msg else None.

(** ** main: the partition table (lines 79-92)

    [floor ((double) width * height / world_size)]: for a board of at most
    [INT_MAX] cells the product and the quotient's integer part are exact in
    double precision, so the value is the floor of the exact quotient. *)
Definition floor_div (a b : Z) : Z := a / b.

Definition setup_proc_data (width height world_size : Z)
  : option (list ProcInfo) :=
  let proc_data :=
    replicate (Z.to_nat world_size) {| offset := 0; num_cells := 0 |} in
  let normal_num_cells := floor_div (width * height) world_size in
  let overflow_cells := Int.rem (Int.mul width height) world_size in
  proc_data ←
    for_range 0 (Int.sub world_size 1)
      (fun i proc_data =>
         store proc_data i {| offset := Int.mul i normal_num_cells;
                              num_cells := normal_num_cells |})
      proc_data;
  store proc_data (Int.sub world_size 1)
    {| offset := Int.mul normal_num_cells (Int.sub world_size 1);
       num_cells := Int.add normal_num_cells overflow_cells |}.

(** ** main: one iteration of the loop (lines 120-168)

    Every process owns its two buffers; nothing is shared. *)
Record ProcMem := { pm_last : list bool; pm_new : list bool }.

Definition fresh (c : list bool) : Buf := {| cells := c; writes := [] |}.

(** Lines 157-165, on rank [world_rank] > 0: receive the board, compute,
    send the own range back.  Returns the message sent. *)
Definition worker_iteration (proc_data : list ProcInfo) (world_rank : Z)
    (world : list bool) (mem : ProcMem) (width height : Z)
  : option (list bool * ProcMem) :=
  last ← mpi_recv (fresh (pm_last mem)) 0 (Int.mul width height) world;
  new ← apply_rules proc_data (cells last) (fresh (pm_new mem)) world_rank
          (adjacency_offsets width) width height;
  me ← load proc_data world_rank;
  msg ← mpi_send (cells new) (offset me) (num_cells me);
  Some (msg, {| pm_last := cells last; pm_new := cells new |}).

(** Lines 131-146, on rank 0, composed with the workers it talks to: the
    sends of the board ([worlds] holds the message on its way to each rank,
    that of rank [proc] at index [proc - 1]), the own [apply_rules], and the
    receives in rank order, each answered by the worker's iteration on the
    board it was sent.  Every answer is a function of that board and of the
    worker's memory, so the result does not depend on how the processes
    interleave.  Returns rank 0's [new_game_state] with its store trace. *)
Definition coordinator_iteration (proc_data : list ProcInfo) (world_size : Z)
    (mems : list ProcMem) (width height : Z) : option (Buf * list ProcMem) :=
  me ← load mems 0;
  worlds ← for_range 1 world_size
             (fun proc worlds =>
                world ← mpi_send (pm_last me) 0 (Int.mul width height);
                Some (worlds ++ [world]))
             [];
  new ← apply_rules proc_data (pm_last me) (fresh (pm_new me)) 0
          (adjacency_offsets width) width height;
  for_range 1 world_size
    (fun proc '(new, mems) =>
       world ← load worlds (proc - 1);
       wm ← load mems proc;
       '(msg, wm') ← worker_iteration proc_data proc world wm width height;
       pd ← load proc_data proc;
       new ← mpi_recv new (offset pd) (num_cells pd) msg;
       mems ← store mems proc wm';
       Some (new, mems))
    (new, mems).

(** Lines 150-152: the pointer swap on rank 0. *)
Definition swap_buffers (new : Buf) (mems : list ProcMem)
  : option (list ProcMem) :=
  me ← load mems 0;
  store mems 0 {| pm_last := cells new; pm_new := pm_last me |}.

(** ** The rule engine as the specification words it (section 4.2)

    The reference the code is compared with: mathematical integers, the
    mathematical [mod], and a count over the eight offsets. *)
Definition spec_offsets (w : Z) : list Z :=
  [ - (w + 1); - w; - (w - 1); -1; 1; w - 1; w; w + 1 ].

Definition cell_at (prev : list bool) (n : Z) : bool :=
  default false (load prev n).

Definition passes_edges (cell width height off : Z) : bool :=
  (0 <=? cell + off) && (cell + off <? width * height)
  && (Z.abs (cell mod width - (cell + off) mod width) <=? 1).

Definition is_live_neighbor (cell : Z) (prev : list bool) (width height off : Z)
  : bool :=
  passes_edges cell width height off && cell_at prev (cell + off).

Definition liveNeighbors (cell : Z) (prev : list bool) (width height : Z) : Z :=
  Z.of_nat (length (filter (fun off => is_live_neighbor cell prev width height off = true)
                           (spec_offsets width))).

Definition nextState_spec (cell : Z) (prev : list bool) (width height : Z)
  : bool :=
  let n := liveNeighbors cell prev width height in
  if cell_at prev cell then (n =? 2) || (n =? 3) else (n =? 3).

(** A board that no [int] computation of the program overflows on: the
    largest value formed is the last cell index plus [width + 1]. *)
Definition board_ok (width height : Z) : Prop :=
  0 < width /\ 0 < height /\ width * height + width <= Int.INT_MAX.


(** ** Rows and columns

    Cell [row * width + col] of the row-major board. *)
Definition row_of (width cell : Z) : Z := cell / width.
Definition col_of (width cell : Z) : Z := cell mod width.

(** [n] is one of the at most eight cells around [cell]. *)
Definition grid_neighbor (width height cell n : Z) : Prop :=
  0 <= n < width * height /\ n <> cell
  /\ Z.abs (row_of width n - row_of width cell) <= 1
  /\ Z.abs (col_of width n - col_of width cell) <= 1.

(** The no-wraparound property of one row: the count of the row's last
    cell is the same whatever the state of the row's first cell, and the
    other way round. *)
Definition no_wrap_in_row (width height : Z) (prev : list bool) (r : Z) : Prop :=
  let first := r * width in
  let last := r * width + (width - 1) in
  (forall b,
     count_alive_adj (<[Z.to_nat first := b]> prev) (adjacency_offsets width)
       width height last
     = count_alive_adj prev (adjacency_offsets width) width height last)
  /\ (forall b,
        count_alive_adj (<[Z.to_nat last := b]> prev) (adjacency_offsets width)
          width height first
        = count_alive_adj prev (adjacency_offsets width) width height first).

(** ** The partition table as the specification words it (section 4.1) *)
Definition partition_spec (totalCells workerCount : Z) : list ProcInfo :=
  let base := totalCells / workerCount in
  let remainder := totalCells mod workerCount in
  ((fun i => {| offset := i * base; num_cells := base |})
     <$> seqZ 0 (workerCount - 1))
  ++ [ {| offset := base * (workerCount - 1); num_cells := base + remainder |} ].

Definition sum_cells (proc_data : list ProcInfo) : Z :=
  foldr (fun p s => num_cells p + s) 0 proc_data.

(** The cell indices of a partition. *)
Definition owns (p : ProcInfo) (cell : Z) : Prop :=
  offset p <= cell < offset p + num_cells p.

(** Both buffers of a process hold a whole board. *)
Definition mem_ok (width height : Z) (mem : ProcMem) : Prop :=
  Z.of_nat (length (pm_last mem)) = width * height
  /\ Z.of_nat (length (pm_new mem)) = width * height.

(** ** Boards given by rows and columns *)

(** The board whose cell in row [r], column [c] is [live r c]. *)
Definition board2 (width height : Z) (live : Z -> Z -> bool) : list bool :=
  (fun i => live (row_of width i) (col_of width i)) <$> seqZ 0 (width * height).

Definition in_board2 (width height r c : Z) : bool :=
  (0 <=? r) && (r <? height) && (0 <=? c) && (c <? width).

(** The state of the cell in row [r], column [c]; dead outside the board. *)
Definition live_at (prev : list bool) (width height r c : Z) : bool :=
  in_board2 width height r c && cell_at prev (r * width + c).

(** The row and column steps to the eight cells around a cell, in the
    order of the offset table. *)
Definition steps : list (Z * Z) :=
  [ (-1, -1); (-1, 0); (-1, 1); (0, -1); (0, 1); (1, -1); (1, 0); (1, 1) ].

(** The blinker: three live cells in row [R] around column [C], or three
    live cells in column [C] around row [R]. *)
Definition blinker_h (R C : Z) : Z -> Z -> bool :=
  fun r c => (r =? R) && (C - 1 <=? c) && (c <=? C + 1).
Definition blinker_v (R C : Z) : Z -> Z -> bool :=
  fun r c => (c =? C) && (R - 1 <=? r) && (r <=? R + 1).

(** The middle position of a side, either one when the side is even. *)
Definition centered (size pos : Z) : Prop :=
  pos = size / 2 \/ pos = (size - 1) / 2.

(** The memories at the start of main's loop: every buffer comes from
    [calloc] (lines 58-59), and rank 0's [last_game_state] holds the board. *)
Definition initial_mems (width height world_size : Z) (board : list bool)
  : list ProcMem :=
  {| pm_last := board; pm_new := calloc_bool (Int.mul width height) |}
  :: replicate (Z.to_nat (world_size - 1))
       {| pm_last := calloc_bool (Int.mul width height);
          pm_new := calloc_bool (Int.mul width height) |}.

(** One generation of the whole program on [world_size] processes: the
    table, one iteration of the loop, and the grid rank 0 ends up with. *)
Definition generation (width height world_size : Z) (board : list bool)
  : option (list bool) :=
  proc_data ← setup_proc_data width height world_size;
  '(new, _) ← coordinator_iteration proc_data world_size
                (initial_mems width height world_size board) width height;
  Some (cells new).

(** ** fill_game_field (lines 247-263)

    [rand] gives the result of the k-th call of [rand ()] after the
    [srand]; the state of the loop is the field, [cells_to_generate] and
    the number of calls made so far.  The [||] does not call [rand ()] when
    its first operand holds. *)
Record FillState :=
  { field : list bool; cells_to_generate : Z; rand_calls : nat }.

Definition fill_cell (st : FillState) (i : Z) (calls : nat) : option FillState :=
  f ← store (field st) i true;
  Some {| field := f;
          cells_to_generate := Int.sub (cells_to_generate st) 1;
          rand_calls := calls |}.

Definition fill_game_field (rand : nat -> Z) (field0 : list bool)
    (width height live_cells : Z) : option (list bool) :=
  st ← for_range 0 (Int.mul width height)
         (fun i st =>
            if 0 <? cells_to_generate st then
              if Int.sub (Int.mul width height) (Int.add i 1)
                 =? cells_to_generate st
              then fill_cell st i (rand_calls st)
              else if Int.rem (rand (rand_calls st)) (Int.mul width height)
                      <? live_cells
                   then fill_cell st i (S (rand_calls st))
                   else Some {| field := field st;
                                cells_to_generate := cells_to_generate st;
                                rand_calls := S (rand_calls st) |}
            else Some st)
         {| field := field0; cells_to_generate := live_cells; rand_calls := 0 |};
  Some (field st).

(** main, lines 58 and 76: the field is a fresh [calloc]. *)
Definition fillRandom (rand : nat -> Z) (width height live_cells : Z)
  : option (list bool) :=
  fill_game_field rand (calloc_bool (Int.mul width height)) width height
    live_cells.

Definition count_true (f : list bool) : Z :=
  Z.of_nat (length (filter (fun b => b = true) f)).

(** ** read_args (lines 265-287) *)

(** [strtol (s, NULL, 10)] of the C library on an LP64 target: leading white
    space, an optional sign, the longest run of decimal digits (0 when
    there is none), clamped to the range of [long]. *)
Definition is_space (c : ascii) : bool :=
  let n := Z.of_N (Ascii.N_of_ascii c) in (n =? 32) || ((9 <=? n) && (n <=? 13)).

Definition digit_of (c : ascii) : option Z :=
  let n := Z.of_N (Ascii.N_of_ascii c) in
  if (48 <=? n) && (n <=? 57) then Some (n - 48) else None.

Fixpoint skip_spaces (s : string) : string :=
  match s with
  | String c s' => if is_space c then skip_spaces s' else s
  | EmptyString => s
  end.

Fixpoint digits (s : string) (acc : Z) : Z :=
  match s with
  | String c s' =>
      match digit_of c with
      | Some d => digits s' (10 * acc + d)
      | None => acc
      end
  | EmptyString => acc
  end.

Definition LONG_MAX : Z := 2 ^ 63 - 1.
Definition LONG_MIN : Z := - 2 ^ 63.

Definition strtol (s : string) : Z :=
  let s := skip_spaces s in
  let v :=
    match s with
    | String "-" s' => - digits s' 0
    | String "+" s' => digits s' 0
    | _ => digits s 0
    end in
  Z.max LONG_MIN (Z.min LONG_MAX v).

(** The assignment of the [long] result to an [int]. *)
Definition int_of_long (v : Z) : Z := Int.wrap v.

Record Args :=
  { live_cells : Z; iterations : Z; print_modulo : Z; width : Z; height : Z }.

(** How a call that may end the whole job comes back: it returns, or it
    has called [MPI_Abort (MPI_COMM_WORLD, code)]. *)
Inductive Outcome (A : Type) :=
  | Returned (a : A)
  | Aborted (code : Z).
Arguments Returned {A} a.
Arguments Aborted {A} code.

Definition nl : string := String (Ascii.ascii_of_nat 10) EmptyString.
Definition tab : string := String (Ascii.ascii_of_nat 9) EmptyString.

Definition usage (argv0 : string) : string :=
  "USAGE: ./" +:+ argv0 +:+ " i j k m n" +:+ nl
  +:+ tab +:+ "i is the number of live cells" +:+ nl
  +:+ tab +:+ "j is the number of iterations of the game of life" +:+ nl
  +:+ tab +:+ "k is how often to print the game state (eg every kth iteration)" +:+ nl
  +:+ tab +:+ "m is the game width" +:+ nl
  +:+ tab +:+ "n is the game height" +:+ nl.

(** The result is what the call wrote to stderr and how it came back;
    [None] when it reads an [argv] entry that is not there. *)
Definition read_args (argc : Z) (argv : list string) (proc_id : Z)
  : option (list string * Outcome Args) :=
  if negb (argc =? 6) && (proc_id =? 0)
  then argv0 ← load argv 0; Some ([usage argv0], Aborted 1)
  else
    a1 ← load argv 1;
    a2 ← load argv 2;
    a3 ← load argv 3;
    a4 ← load argv 4;
    a5 ← load argv 5;
    Some ([], Returned {| live_cells := int_of_long (strtol a1);
                          iterations := int_of_long (strtol a2);
                          print_modulo := int_of_long (strtol a3);
                          width := int_of_long (strtol a4);
                          height := int_of_long (strtol a5) |}).

(** ** main on rank 0 (lines 42-176)

    What rank 0 leaves behind: stderr, the boards printed with their
    iteration number (lines 127-128), the exit status and the number of
    iterations of the loop it went through. *)
Record Run :=
  { stderr : list string; stdout : list (Z * list bool); status : Z;
    generations : Z }.

(** The loop of lines 120-168 on rank 0, composed with the workers; the
    [%] of line 125 is undefined for [print_modulo = 0]. *)
Definition main_loop (a : Args) (world_size : Z) (proc_data : list ProcInfo)
    (mems : list ProcMem) : option (list (Z * list bool) * list ProcMem) :=
  for_range 0 (Int.add (iterations a) 1)
    (fun iteration '(out, mems) =>
       me ← load mems 0;
       out ← (if print_modulo a =? 0 then None
              else if Int.rem iteration (print_modulo a) =? 0
                   then Some (out ++ [(iteration, pm_last me)])
                   else Some out);
       '(new, mems) ← coordinator_iteration proc_data world_size mems
                        (width a) (height a);
       mems ← swap_buffers new mems;
       Some (out, mems))
    ([], mems).

Definition main_rank0 (rand : nat -> Z) (argc : Z) (argv : list string)
    (world_size : Z) : option Run :=
  '(err, o) ← read_args argc argv 0;
  match o with
  | Aborted code =>
      Some {| stderr := err; stdout := []; status := code; generations := 0 |}
  | Returned a =>
      board ← fillRandom rand (width a) (height a) (live_cells a);
      proc_data ← setup_proc_data (width a) (height a) world_size;
      '(out, _) ← main_loop a world_size proc_data
                    (initial_mems (width a) (height a) world_size board);
      Some {| stderr := err; stdout := out; status := 0;
              generations := Z.max 0 (Int.add (iterations a) 1) |}
  end.

(** C8 as stated, for a run's command line: rank 0's [read_args] reports
    once and aborts with a non-zero status. *)
Definition non_positive_config (a : Args) : Prop :=
  width a <= 0 \/ height a <= 0 \/ print_modulo a <= 0.

Definition reports_and_aborts (argc : Z) (argv : list string) : Prop :=
  exists msg code,
    read_args argc argv 0 = Some ([msg], Aborted code) /\ code <> 0.

(** ** The processes side by side (lines 118-168)

    The loop of main as a transition system over all the ranks: every
    process has its own control point, iteration counter and buffers, and
    the processes interact through the two message streams of the loop
    (tag UPDATE_WORLD from rank 0 to each worker, tag BUILT_GAME_STATE from
    each worker to rank 0, each stream in order) and through
    [MPI_Barrier].  The state starts after the barrier of line 116, with
    the table already on every rank.  The printing of lines 125-129 does
    not touch this state and is left out.

    [MPI_Send] is taken to return once the message is buffered; a send
    that waits for its receive is the send step followed at once by the
    receive step, so every state of such a run is a state of this system.
    A process inside [MPI_Barrier] returns from it only when every rank
    has entered the barrier of the same iteration.

    [computed] and [merged] are counters of the calls of [apply_rules] a
    process has returned from and of the receives of line 143 rank 0 has
    completed; no step reads them. *)
Inductive Pc :=
  | SendWorld (proc : Z)
  | Compute
  | RecvPart (proc : Z)
  | Swap
  | RecvWorld
  | SendPart
  | InBarrier
  | Finished.

Record Proc :=
  { pc : Pc; iteration : Z; mem : ProcMem; computed : Z; merged : Z }.

Record World :=
  { procs : Z -> Proc;
    to_worker : Z -> list (list bool);
    to_coord : Z -> list (list bool) }.

Definition at_pc (p : Proc) (pc' : Pc) : Proc :=
  {| pc := pc'; iteration := iteration p; mem := mem p;
     computed := computed p; merged := merged p |}.

Section Processes.
Context (a : Args) (world_size : Z) (proc_data : list ProcInfo)
        (board : list bool).

(** Line 120, and the branch of line 122 behind it. *)
Definition loop_head (rank iteration : Z) : Pc :=
  if iteration <? Int.add (iterations a) 1
  then (if rank =? 0 then SendWorld 1 else RecvWorld)
  else Finished.

(** Rank [q] has entered the barrier that ends iteration [g]. *)
Definition entered (s : World) (g q : Z) : Prop :=
  g < iteration (procs s q)
  \/ (iteration (procs s q) = g /\ pc (procs s q) = InBarrier).

Inductive step : World -> World -> Prop :=
  (* rank 0, lines 132-136 *)
  | step_send_world s c k msg :
      procs s 0 = c -> pc c = SendWorld k -> k < world_size ->
      mpi_send (pm_last (mem c)) 0 (Int.mul (width a) (height a)) = Some msg ->
      step s {| procs := <[0 := at_pc c (SendWorld (k + 1))]> (procs s);
                to_worker := <[k := to_worker s k ++ [msg]]> (to_worker s);
                to_coord := to_coord s |}
  | step_send_world_done s c k :
      procs s 0 = c -> pc c = SendWorld k -> ~ k < world_size ->
      step s {| procs := <[0 := at_pc c Compute]> (procs s);
                to_worker := to_worker s; to_coord := to_coord s |}
  (* rank 0, line 138 *)
  | step_compute_coord s c new :
      procs s 0 = c -> pc c = Compute ->
      apply_rules proc_data (pm_last (mem c)) (fresh (pm_new (mem c))) 0
        (adjacency_offsets (width a)) (width a) (height a) = Some new ->
      step s {| procs := <[0 := {| pc := RecvPart 1; iteration := iteration c;
                                   mem := {| pm_last := pm_last (mem c);
                                             pm_new := cells new |};
                                   computed := computed c + 1;
                                   merged := merged c |}]> (procs s);
                to_worker := to_worker s; to_coord := to_coord s |}
  (* rank 0, lines 141-146 *)
  | step_recv_part s c k msg rest pd new :
      procs s 0 = c -> pc c = RecvPart k -> k < world_size ->
      to_coord s k = msg :: rest ->
      load proc_data k = Some pd ->
      mpi_recv (fresh (pm_new (mem c))) (offset pd) (num_cells pd) msg
      = Some new ->
      step s {| procs := <[0 := {| pc := RecvPart (k + 1);
                                   iteration := iteration c;
                                   mem := {| pm_last := pm_last (mem c);
                                             pm_new := cells new |};
                                   computed := computed c;
                                   merged := merged c + 1 |}]> (procs s);
                to_worker := to_worker s;
                to_coord := <[k := rest]> (to_coord s) |}
  | step_recv_part_done s c k :
      procs s 0 = c -> pc c = RecvPart k -> ~ k < world_size ->
      step s {| procs := <[0 := at_pc c Swap]> (procs s);
                to_worker := to_worker s; to_coord := to_coord s |}
  (* rank 0, lines 150-152, and the call of MPI_Barrier at line 167 *)
  | step_swap s c :
      procs s 0 = c -> pc c = Swap ->
      step s {| procs := <[0 := {| pc := InBarrier; iteration := iteration c;
                                   mem := {| pm_last := pm_new (mem c);
                                             pm_new := pm_last (mem c) |};
                                   computed := computed c;
                                   merged := merged c |}]> (procs s);
                to_worker := to_worker s; to_coord := to_coord s |}
  (* rank r > 0, line 157 *)
  | step_recv_world s r p msg rest last :
      0 < r < world_size -> procs s r = p -> pc p = RecvWorld ->
      to_worker s r = msg :: rest ->
      mpi_recv (fresh (pm_last (mem p))) 0 (Int.mul (width a) (height a)) msg
      = Some last ->
      step s {| procs := <[r := {| pc := Compute; iteration := iteration p;
                                   mem := {| pm_last := cells last;
                                             pm_new := pm_new (mem p) |};
                                   computed := computed p;
                                   merged := merged p |}]> (procs s);
                to_worker := <[r := rest]> (to_worker s);
                to_coord := to_coord s |}
  (* rank r > 0, line 160 *)
  | step_compute_worker s r p new :
      0 < r < world_size -> procs s r = p -> pc p = Compute ->
      apply_rules proc_data (pm_last (mem p)) (fresh (pm_new (mem p))) r
        (adjacency_offsets (width a)) (width a) (height a) = Some new ->
      step s {| procs := <[r := {| pc := SendPart; iteration := iteration p;
                                   mem := {| pm_last := pm_last (mem p);
                                             pm_new := cells new |};
                                   computed := computed p + 1;
                                   merged := merged p |}]> (procs s);
                to_worker := to_worker s; to_coord := to_coord s |}
  (* rank r > 0, lines 163-165, and the call of MPI_Barrier at line 167 *)
  | step_send_part s r p pd msg :
      0 < r < world_size -> procs s r = p -> pc p = SendPart ->
      load proc_data r = Some pd ->
      mpi_send (pm_new (mem p)) (offset pd) (num_cells pd) = Some msg ->
      step s {| procs := <[r := at_pc p InBarrier]> (procs s);
                to_worker := to_worker s;
                to_coord := <[r := to_coord s r ++ [msg]]> (to_coord s) |}
  (* any rank: the return from MPI_Barrier, [++iteration] and line 120 *)
  | step_leave_barrier s r p :
      0 <= r < world_size -> procs s r = p -> pc p = InBarrier ->
      (forall q, 0 <= q < world_size -> entered s (iteration p) q) ->
      step s {| procs := <[r := {| pc := loop_head r (iteration p + 1);
                                   iteration := iteration p + 1;
                                   mem := mem p;
                                   computed := computed p;
                                   merged := merged p |}]> (procs s);
                to_worker := to_worker s; to_coord := to_coord s |}.

(** After line 116: every buffer from [calloc], the board on rank 0. *)
Definition initial_world : World :=
  {| procs := fun r =>
       {| pc := loop_head r 0; iteration := 0;
          mem := {| pm_last := if r =? 0 then board
                               else calloc_bool (Int.mul (width a) (height a));
                    pm_new := calloc_bool (Int.mul (width a) (height a)) |};
          computed := 0; merged := 0 |};
     to_worker := fun _ => [];
     to_coord := fun _ => [] |}.

Inductive reachable : World -> Prop :=
  | reachable_initial : reachable initial_world
  | reachable_step s s' : reachable s -> step s s' -> reachable s'.

(** The board after [n] generations of the program run on one process. *)
Fixpoint board_after (n : nat) : option (list bool) :=
  match n with
  | O => Some board
  | S n' => b ← board_after n'; generation (width a) (height a) 1 b
  end.

End Processes.

(** ** What the barrier separates *)

(** No rank is more than one iteration ahead of another, and a rank that
    is behind is inside the barrier. *)
Definition separated (world_size : Z) (P : Z -> Proc) : Prop :=
  forall p q, 0 <= p < world_size -> 0 <= q < world_size ->
    iteration (P q) < iteration (P p) ->
    iteration (P p) = iteration (P q) + 1 /\ pc (P q) = InBarrier.

(** 1 at the control points of an iteration that follow the call of
    [apply_rules], 0 at the others. *)
Definition after_compute (c : Pc) : Z :=
  match c with
  | RecvPart _ | Swap | SendPart | InBarrier => 1
  | _ => 0
  end.

(** The receives of line 143 completed in the current iteration. *)
Definition merged_now (world_size : Z) (c : Pc) : Z :=
  match c with
  | RecvPart k => k - 1
  | Swap | InBarrier => world_size - 1
  | _ => 0
  end.

Definition counted (a : Args) (world_size : Z) (P : Z -> Proc) : Prop :=
  (forall p, 0 <= p < world_size ->
     0 <= iteration (P p)
     /\ computed (P p) = iteration (P p) + after_compute (pc (P p))
     /\ (pc (P p) = Finished <-> ~ iteration (P p) < Int.add (iterations a) 1))
  /\ merged (P 0) = iteration (P 0) * (world_size - 1)
                    + merged_now world_size (pc (P 0))
  /\ (forall k, pc (P 0) = SendWorld k \/ pc (P 0) = RecvPart k ->
        1 <= k <= world_size).

(** ** What the processes hold

    The boards of the successive generations, as the specification's rule
    gives them, and what each control point knows of them. *)
Definition next_board (width height : Z) (prev : list bool) : list bool :=
  (fun j => nextState_spec j prev width height) <$> seqZ 0 (width * height).

Definition board_at (width height : Z) (board : list bool) (g : Z) : list bool :=
  Nat.iter (Z.to_nat g) (next_board width height) board.

(** Where the partition of rank [i] starts in the table of section 4.1;
    the number of cells for [i = world_size]. *)
Definition part_start (total world_size i : Z) : Z :=
  if decide (i = world_size) then total else i * (total / world_size).

(** How far rank 0 is in its iteration: it has sent the board to the ranks
    below [progress], and received the parts of the ranks [r] with
    [world_size + r] below it. *)
Definition progress (world_size : Z) (c : Pc) : Z :=
  match c with
  | SendWorld k => k
  | Compute => world_size
  | RecvPart k => world_size + k
  | Swap | InBarrier => 2 * world_size
  | _ => 0
  end.

Definition sent (world_size : Z) (c : Pc) (r : Z) : bool :=
  r <? progress world_size c.
Definition got (world_size : Z) (c : Pc) (r : Z) : bool :=
  world_size + r <? progress world_size c.

Definition agree_on (lo hi : Z) (x y : list bool) : Prop :=
  forall j, lo <= j < hi -> load x j = load y j.

(** [msg] is the cells [lo .. hi - 1] of [b]. *)
Definition is_part (lo hi : Z) (b msg : list bool) : Prop :=
  Z.of_nat (length msg) = hi - lo
  /\ forall i : nat, Z.of_nat i < hi - lo -> msg !! i = load b (lo + Z.of_nat i).

Section Holds.
Context (a : Args) (world_size : Z) (board : list bool).

Local Abbreviation total := (width a * height a).
Local Abbreviation B := (board_at (width a) (height a) board).
Local Abbreviation start := (part_start (width a * height a) world_size).

Definition sized (m : ProcMem) : Prop :=
  Z.of_nat (length (pm_last m)) = total /\ Z.of_nat (length (pm_new m)) = total.

Definition coord_inv (c : Proc) : Prop :=
  sized (mem c)
  /\ match pc c with
     | SendWorld _ | Compute => pm_last (mem c) = B (iteration c)
     | RecvPart k =>
         pm_last (mem c) = B (iteration c)
         /\ agree_on 0 (start k) (pm_new (mem c)) (B (iteration c + 1))
     | Swap =>
         pm_last (mem c) = B (iteration c)
         /\ pm_new (mem c) = B (iteration c + 1)
     | InBarrier => pm_last (mem c) = B (iteration c + 1)
     | Finished => True
     | RecvWorld | SendPart => False
     end.

Definition worker_inv (r : Z) (c w : Proc) (qw qc : list (list bool)) : Prop :=
  sized (mem w)
  /\ (iteration w = iteration c + 1 ->
      (pc w = RecvWorld \/ pc w = Finished) /\ qw = [] /\ qc = [])
  /\ (iteration w + 1 = iteration c ->
      got world_size (pc c) r = false /\ qc = []
      /\ qw = if sent world_size (pc c) r then [B (iteration c)] else [])
  /\ (iteration w = iteration c ->
      match pc w with
      | RecvWorld =>
          got world_size (pc c) r = false /\ qc = []
          /\ qw = if sent world_size (pc c) r then [B (iteration c)] else []
      | Compute =>
          sent world_size (pc c) r = true /\ got world_size (pc c) r = false
          /\ qw = [] /\ qc = [] /\ pm_last (mem w) = B (iteration c)
      | SendPart =>
          sent world_size (pc c) r = true /\ got world_size (pc c) r = false
          /\ qw = [] /\ qc = []
          /\ agree_on (start r) (start (r + 1)) (pm_new (mem w))
               (B (iteration c + 1))
      | InBarrier =>
          sent world_size (pc c) r = true /\ qw = []
          /\ if got world_size (pc c) r then qc = []
             else exists msg, qc = [msg]
                    /\ is_part (start r) (start (r + 1)) (B (iteration c + 1)) msg
      | Finished => qw = [] /\ qc = []
      | SendWorld _ | RecvPart _ | Swap => False
      end).

Definition holds (s : World) : Prop :=
  coord_inv (procs s 0)
  /\ forall r, 0 < r < world_size ->
       worker_inv r (procs s 0) (procs s r) (to_worker s r) (to_coord s r).

End Holds.

(** A run to try the transition system on: a 3 x 3 board with a vertical
    blinker, one iteration after the base state, two ranks. *)
Definition demo_args : Args :=
  {| live_cells := 3; iterations := 1; print_modulo := 1; width := 3;
     height := 3 |}.
Definition demo_board : list bool :=
  [false; true; false; false; true; false; false; true; false].
Definition demo_table : list ProcInfo :=
  [ {| offset := 0; num_cells := 4 |}; {| offset := 4; num_cells := 5 |} ].

(** ** print_game (lines 228-245)

    What the call writes to stdout, byte by byte: the live cell is the
    three bytes of U+2588 in UTF-8, the dead cell a space; [None] when the
    call reads outside [game_field]. *)
Definition live_glyph : string :=
  String (Ascii.ascii_of_nat 226)
    (String (Ascii.ascii_of_nat 150) (String (Ascii.ascii_of_nat 136) EmptyString)).
Definition dead_glyph : string := " ".

Definition print_game (game_field : list bool) (width height : Z)
  : option string :=
  for_range 0 height
    (fun i out =>
       out ← for_range 0 width
                (fun j out =>
                   c ← load game_field (Int.add (Int.mul i width) j);
                   Some (out +:+ (if c : bool then live_glyph else dead_glyph)))
                out;
       Some (out +:+ nl))
    EmptyString.

(** The cells a text shows, in reading order: a space is a dead cell, the
    first byte of the block a live one, and nothing else is a cell. *)
Fixpoint cells_of_text (s : string) : list bool :=
  match s with
  | EmptyString => []
  | String c s' =>
      if Ascii.eqb c " " then false :: cells_of_text s'
      else if Ascii.eqb c (Ascii.ascii_of_nat 226) then true :: cells_of_text s'
      else cells_of_text s'
  end.

(** The line breaks of a text. *)
Fixpoint line_breaks (s : string) : Z :=
  match s with
  | EmptyString => 0
  | String c s' =>
      (if Ascii.eqb c (Ascii.ascii_of_nat 10) then 1 else 0) + line_breaks s'
  end.

(** ** More boards *)

(** The block: the four cells of rows [R], [R + 1] and columns [C],
    [C + 1]. *)
Definition block (R C : Z) : Z -> Z -> bool :=
  fun r c => (R <=? r) && (r <=? R + 1) && (C <=? c) && (c <=? C + 1).

(** The board of [n] cells whose only live cell is [cell]. *)
Definition lone_cell (n cell : Z) : list bool :=
  (fun i => i =? cell) <$> seqZ 0 n.

(** The boards [main_loop] prints when rank 0 holds [board] at the loop's
    start: iteration [g] is printed when [g % print_modulo == 0]. *)
Definition printed (a : Args) (board : list bool) : list (Z * list bool) :=
  (fun g => (g, board_at (width a) (height a) board g))
    <$> filter (fun g => Z.rem g (print_modulo a) = 0)
          (seqZ 0 (iterations a + 1)).

(** The same run with a single pass of the loop. *)
Definition one_pass_args : Args :=
  {| live_cells := 3; iterations := 0; print_modulo := 1; width := 3;
     height := 3 |}.

(** ** How far a run has come

    The control points of one iteration in the order a rank goes through
    them, the iterations and control points a rank has behind it, and their
    sum over the ranks. *)
Definition pc_pos (world_size : Z) (c : Pc) : Z :=
  match c with
  | RecvWorld | Finished => 0
  | SendWorld k => Z.min k world_size
  | Compute => world_size + 1
  | SendPart => world_size + 2
  | RecvPart k => world_size + 1 + Z.min k world_size
  | Swap => 2 * world_size + 2
  | InBarrier => 2 * world_size + 3
  end.

Definition work (world_size : Z) (p : Proc) : Z :=
  iteration p * (2 * world_size + 4) + pc_pos world_size (pc p).

Definition total_work (world_size : Z) (P : Z -> Proc) : Z :=
  foldr (fun r acc => work world_size (P r) + acc) 0 (seqZ 0 world_size).

(** [s'] is reached from [s] in [n] steps. *)
Inductive run (a : Args) (world_size : Z) (proc_data : list ProcInfo)
    (s : World) : nat -> World -> Prop :=
  | run_none : run a world_size proc_data s 0 s
  | run_more n s1 s2 :
      run a world_size proc_data s n s1 ->
      step a world_size proc_data s1 s2 ->
      run a world_size proc_data s (S n) s2.

(** The pattern with one live cell, in row [R] and column [C]. *)
Definition lone_at (R C : Z) : Z -> Z -> bool :=
  fun r c => (r =? R) && (c =? C).
(** * Proofs *)

(** ** Integers *)

Lemma wrap_fits z : Int.fits z -> Int.wrap z = z.
Proof.
  unfold Int.fits, Int.INT_MIN, Int.INT_MAX, Int.wrap. intros Hz.
  rewrite Z.mod_small; lia.
Qed.

Lemma add_fits a b : Int.fits (a + b) -> Int.add a b = a + b.
Proof. apply wrap_fits. Qed.

Lemma sub_fits a b : Int.fits (a - b) -> Int.sub a b = a - b.
Proof. apply wrap_fits. Qed.

Lemma mul_fits a b : Int.fits (a * b) -> Int.mul a b = a * b.
Proof. apply wrap_fits. Qed.

Lemma neg_fits a : Int.fits (- a) -> Int.neg a = - a.
Proof. apply wrap_fits. Qed.

Lemma abs_fits a : Int.fits (Z.abs a) -> Int.abs a = Z.abs a.
Proof. apply wrap_fits. Qed.

Lemma board_ok_cells width height :
  board_ok width height ->
  0 < width * height /\ Int.fits (width * height) /\ Int.fits width
  /\ Int.fits (width + 1) /\ width <= width * height.
Proof.
  unfold board_ok, Int.fits, Int.INT_MIN, Int.INT_MAX. intros (Hw & Hh & Hb).
  assert (width <= width * height) by nia.
  repeat split; lia.
Qed.

Lemma adjacency_offsets_fits width height :
  board_ok width height -> adjacency_offsets width = spec_offsets width.
Proof.
  intros Hok. destruct (board_ok_cells _ _ Hok) as (_ & _ & Hw & Hw1 & _).
  destruct Hok as (Hpos & _ & _).
  unfold Int.fits, Int.INT_MIN, Int.INT_MAX in *.
  unfold adjacency_offsets, spec_offsets.
  rewrite (add_fits width 1), (sub_fits width 1)
    by (unfold Int.fits, Int.INT_MIN, Int.INT_MAX; lia).
  rewrite !neg_fits by (unfold Int.fits, Int.INT_MIN, Int.INT_MAX; lia).
  reflexivity.
Qed.

(** ** Arrays and loops *)

Lemma load_Some {A} (a : list A) i :
  0 <= i < Z.of_nat (length a) -> exists x, load a i = Some x /\ a !! Z.to_nat i = Some x.
Proof.
  intros Hi. unfold load. destruct (Z.leb_spec 0 i); [|lia].
  destruct (lookup_lt_is_Some_2 a (Z.to_nat i)) as [x Hx]; [lia|]. eauto.
Qed.

Lemma load_lookup {A} (a : list A) i : 0 <= i -> load a i = a !! Z.to_nat i.
Proof. intros Hi. unfold load. destruct (Z.leb_spec 0 i); [done|lia]. Qed.

Lemma load_inv {A} (a : list A) i x :
  load a i = Some x -> 0 <= i < Z.of_nat (length a) /\ a !! Z.to_nat i = Some x.
Proof.
  unfold load. destruct (Z.leb_spec 0 i); [|done]. intros Hx.
  split; [|done]. apply lookup_lt_Some in Hx. lia.
Qed.

Lemma store_Some {A} (a : list A) i x :
  0 <= i < Z.of_nat (length a) -> store a i x = Some (<[Z.to_nat i := x]> a).
Proof.
  intros Hi. unfold store.
  destruct (Z.leb_spec 0 i); [|lia].
  destruct (Z.ltb_spec i (Z.of_nat (length a))); [done|lia].
Qed.

Lemma store_inv {A} (a a' : list A) i x :
  store a i x = Some a' ->
  0 <= i < Z.of_nat (length a) /\ a' = <[Z.to_nat i := x]> a.
Proof.
  unfold store.
  destruct (Z.leb_spec 0 i); [|done].
  destruct (Z.ltb_spec i (Z.of_nat (length a))); [|done].
  simpl. intros [= <-]. split; [lia|done].
Qed.

(** A counted loop that reads [a[i]] at each step runs through the
    elements of [a] in order. *)
Lemma for_loop_load {A St} (f : A -> St -> option St) (pre l : list A) (s : St) :
  for_loop (length l) (Z.of_nat (length pre))
    (fun i s => x ← load (pre ++ l) i; f x s) s
  = foldl (fun r x => s ← r; f x s) (Some s) l.
Proof.
  revert pre s. induction l as [|x l IH]; intros pre s; [done|].
  cbn [length for_loop foldl].
  rewrite load_lookup by lia. rewrite Nat2Z.id.
  rewrite lookup_app_r by lia. rewrite Nat.sub_diag. cbn [lookup list_lookup mbind option_bind].
  destruct (f x s) as [s'|] eqn:Hf; cbn.
  - specialize (IH (pre ++ [x]) s').
    rewrite length_app, Nat2Z.inj_add in IH. cbn in IH.
    rewrite <- app_assoc in IH. exact IH.
  - clear. induction l as [|y l IH]; [done|]. exact IH.
Qed.

(** The invariant rule for counted loops: an invariant that holds on entry
    and that every iteration re-establishes holds at the exit, and the loop
    does reach its exit. *)
Lemma for_loop_inv {St} (P : Z -> St -> Prop) (body : Z -> St -> option St)
    (n : nat) (i : Z) (s : St) :
  P i s ->
  (forall j s, i <= j < i + Z.of_nat n -> P j s ->
     exists s', body j s = Some s' /\ P (j + 1) s') ->
  exists s', for_loop n i body s = Some s' /\ P (i + Z.of_nat n) s'.
Proof.
  revert i s. induction n as [|n IH]; intros i s Hinit Hstep.
  - exists s. split; [done|]. by replace (i + Z.of_nat 0) with i by lia.
  - destruct (Hstep i s) as (s1 & Hb & HP1); [lia|done|].
    destruct (IH (i + 1) s1) as (s' & Hloop & HP'); [done| |].
    + intros j s2 Hj. apply Hstep. lia.
    + exists s'. cbn [for_loop]. rewrite Hb. cbn. split; [done|].
      by replace (i + Z.of_nat (S n)) with (i + 1 + Z.of_nat n) by lia.
Qed.

Lemma for_range_inv {St} (P : Z -> St -> Prop) (body : Z -> St -> option St)
    (lo hi : Z) (s : St) :
  lo <= hi -> P lo s ->
  (forall j s, lo <= j < hi -> P j s ->
     exists s', body j s = Some s' /\ P (j + 1) s') ->
  exists s', for_range lo hi body s = Some s' /\ P hi s'.
Proof.
  intros Hle Hinit Hstep. unfold for_range.
  destruct (for_loop_inv P body (Z.to_nat (hi - lo)) lo s) as (s' & Hl & HP);
    [done| |].
  - intros j s1 Hj. apply Hstep. lia.
  - exists s'. split; [done|].
    by replace (lo + Z.of_nat (Z.to_nat (hi - lo))) with hi in HP by lia.
Qed.

(** ** The rule engine *)

(** On a board that fits, the edge tests are the specification's: no
    operation wraps, and C's [%] agrees with [mod] on the non-negative
    operands that reach it. *)
Lemma edge_tests_spec width height cell off :
  board_ok width height ->
  0 <= cell < width * height -> - (width + 1) <= off <= width + 1 ->
  edge_tests width height cell off = passes_edges cell width height off.
Proof.
  intros Hok Hc Hoff.
  destruct (board_ok_cells _ _ Hok) as (HN & HNf & Hwf & Hw1 & HwN).
  destruct Hok as (Hw & Hh & Hb).
  unfold Int.fits, Int.INT_MIN, Int.INT_MAX in *.
  unfold edge_tests, passes_edges.
  rewrite (add_fits cell off), (mul_fits width height)
    by (unfold Int.fits, Int.INT_MIN, Int.INT_MAX; lia).
  destruct (Z.leb_spec 0 (cell + off)) as [Hn0|]; [|done].
  destruct (Z.ltb_spec (cell + off) (width * height)) as [HnN|]; [|done].
  unfold Int.rem. rewrite !Z.rem_mod_nonneg by lia.
  pose proof (Z.mod_pos_bound cell width Hw).
  pose proof (Z.mod_pos_bound (cell + off) width Hw).
  rewrite sub_fits by (unfold Int.fits, Int.INT_MIN, Int.INT_MAX; lia).
  rewrite abs_fits by (unfold Int.fits, Int.INT_MIN, Int.INT_MAX; lia).
  done.
Qed.

Lemma spec_offsets_bound width off :
  0 < width -> off ∈ spec_offsets width -> - (width + 1) <= off <= width + 1.
Proof.
  intros Hw. unfold spec_offsets. rewrite !elem_of_cons, elem_of_nil. lia.
Qed.

Section Rules.
Context (width height : Z) (prev : list bool).
Hypothesis Hok : board_ok width height.
Hypothesis Hlen : Z.of_nat (length prev) = width * height.

Lemma alive_adjacent_spec cell off :
  0 <= cell < width * height -> - (width + 1) <= off <= width + 1 ->
  alive_adjacent prev width height cell off
  = Some (is_live_neighbor cell prev width height off).
Proof.
  intros Hc Hoff. unfold alive_adjacent, is_live_neighbor.
  rewrite edge_tests_spec by done.
  destruct (passes_edges cell width height off) eqn:Hp; [|done].
  unfold passes_edges in Hp. rewrite !andb_true_iff, Z.leb_le, Z.ltb_lt in Hp.
  destruct (board_ok_cells _ _ Hok) as (HN & HNf & Hwf & Hw1 & HwN).
  unfold Int.fits, Int.INT_MIN, Int.INT_MAX in *.
  rewrite add_fits by (unfold Int.fits, Int.INT_MIN, Int.INT_MAX; lia).
  unfold cell_at.
  destruct (load_Some prev (cell + off)) as (b & -> & _); [lia|]. done.
Qed.


(** The accumulator of the inner loop over any list of in-range offsets. *)
Lemma count_fold cell (offs : list Z) (acc : Z) :
  0 <= cell < width * height ->
  (forall off, off ∈ offs -> - (width + 1) <= off <= width + 1) ->
  0 <= acc -> acc + Z.of_nat (length offs) <= Int.INT_MAX ->
  foldl (fun r off => alive_adj_cells ← r;
           alive ← alive_adjacent prev width height cell off;
           Some (if alive : bool then Int.add alive_adj_cells 1 else alive_adj_cells))
        (Some acc) offs
  = Some (acc + Z.of_nat (length (filter
            (fun off => is_live_neighbor cell prev width height off = true) offs))).
Proof.
  intros Hc. revert acc. induction offs as [|off offs IH]; intros acc Hoffs Hacc Hmax.
  - cbn. f_equal. lia.
  - cbn [foldl mbind option_bind]. rewrite alive_adjacent_spec; [|done|].
    2:{ apply Hoffs. left. }
    cbn [mbind option_bind]. cbn [length] in Hmax.
    rewrite filter_cons.
    destruct (is_live_neighbor cell prev width height off) eqn:Hb.
    + rewrite decide_True by done.
      rewrite add_fits by (unfold Int.fits, Int.INT_MIN, Int.INT_MAX in *; lia).
      rewrite IH; [| intros; apply Hoffs; by right | lia | lia].
      f_equal. cbn [length]. lia.
    + rewrite decide_False by done.
      rewrite IH; [| intros; apply Hoffs; by right | lia | lia]. done.
Qed.

Lemma count_alive_adj_spec cell :
  0 <= cell < width * height ->
  count_alive_adj prev (adjacency_offsets width) width height cell
  = Some (liveNeighbors cell prev width height).
Proof.
  intros Hc. unfold count_alive_adj, for_range, liveNeighbors.
  rewrite (adjacency_offsets_fits _ _ Hok).
  change (Z.to_nat (8 - 0)) with (length (spec_offsets width)).
  rewrite (for_loop_load _ [] (spec_offsets width)).
  rewrite count_fold;
    [done | done | intros off; apply spec_offsets_bound, Hok | lia |].
  unfold Int.INT_MAX. cbn. lia.
Qed.

Lemma apply_rules_cell_spec cell :
  0 <= cell < width * height ->
  apply_rules_cell prev (adjacency_offsets width) width height cell
  = Some (nextState_spec cell prev width height).
Proof.
  intros Hc. unfold apply_rules_cell, nextState_spec, cell_at.
  rewrite count_alive_adj_spec by done. cbn [mbind option_bind].
  destruct (load_Some prev cell) as (b & -> & _); [lia|].
  cbn. destruct b.
  - by destruct (_ || _).
  - by destruct (_ =? 3).
Qed.

End Rules.

(** C3.  On every board (positive width and height, no [int] overflow),
    for every cell index and previous grid, the inner loop of [apply_rules]
    counts exactly the adjacency offsets whose candidate [n = cell + offset]
    satisfies [0 <= n < width*height],
    [abs (cell mod width - n mod width) <= 1] and [prev[n]]; the value
    stored for a live cell is live iff that count is 2 or 3, for a dead
    cell iff it is 3, and dead otherwise. *)
Theorem apply_rules_cell_counts_and_rules (width height : Z) (prev : list bool)
    (cell : Z) :
  board_ok width height ->
  Z.of_nat (length prev) = width * height ->
  0 <= cell < width * height ->
  let n := liveNeighbors cell prev width height in
  count_alive_adj prev (adjacency_offsets width) width height cell = Some n
  /\ n = Z.of_nat (length (filter
         (fun off => 0 <= cell + off < width * height
                     /\ Z.abs (cell mod width - (cell + off) mod width) <= 1
                     /\ prev !! Z.to_nat (cell + off) = Some true)
         (spec_offsets width)))
  /\ exists b, apply_rules_cell prev (adjacency_offsets width) width height cell
               = Some b
     /\ (prev !! Z.to_nat cell = Some true -> (b = true <-> n = 2 \/ n = 3))
     /\ (prev !! Z.to_nat cell = Some false -> (b = true <-> n = 3)).
Proof.
  intros Hok Hlen Hc n. split; [by apply count_alive_adj_spec|]. split.
  - unfold n, liveNeighbors. f_equal. f_equal.
    apply list_filter_iff. intros off.
    unfold is_live_neighbor, passes_edges, cell_at.
    rewrite !andb_true_iff, Z.leb_le, Z.ltb_lt, Z.leb_le.
    split.
    + intros [[[H0 HN] Hcol] Hlive]. repeat split; try done.
      rewrite load_lookup in Hlive by done.
      destruct (prev !! Z.to_nat (cell + off)) as [[]|]; done.
    + intros ([H0 HN] & Hcol & Hlive). repeat split; try done.
      rewrite load_lookup by done. by rewrite Hlive.
  - exists (nextState_spec cell prev width height).
    split; [by apply apply_rules_cell_spec|].
    unfold nextState_spec, cell_at. fold n. rewrite load_lookup by lia.
    split; intros ->; cbn.
    + rewrite orb_true_iff, !Z.eqb_eq. done.
    + rewrite Z.eqb_eq. done.
Qed.

(** ** Rows, columns and the eight offsets *)

Section Grid.
Context (width height : Z).
Hypothesis Hw : 0 < width.

Lemma divmod_at q m :
  0 <= m < width ->
  (width * q + m) / width = q /\ (width * q + m) mod width = m.
Proof.
  intros Hm. split; symmetry.
  - by apply (Z.div_unique_pos _ _ q m).
  - by apply (Z.mod_unique_pos _ _ q m).
Qed.

Lemma cell_row_col cell :
  cell = width * row_of width cell + col_of width cell
  /\ 0 <= col_of width cell < width.
Proof.
  unfold row_of, col_of. split; [apply Z.div_mod; lia | apply Z.mod_pos_bound; lia].
Qed.

Lemma in_board_row cell :
  0 <= cell < width * height <-> 0 <= row_of width cell < height.
Proof.
  destruct (cell_row_col cell) as [Hc Hcol].
  set (r := row_of width cell) in *. set (c := col_of width cell) in *.
  split; intros H; nia.
Qed.

(** The offsets of the table are the row/column steps [dr * width + dc]
    other than (0, 0). *)
Lemma spec_offsets_steps off :
  off ∈ spec_offsets width <->
  exists dr dc, off = dr * width + dc /\ -1 <= dr <= 1 /\ -1 <= dc <= 1
                /\ (dr <> 0 \/ dc <> 0).
Proof.
  unfold spec_offsets. rewrite !elem_of_cons, elem_of_nil. split.
  - intros [-> | [-> | [-> | [-> | [-> | [-> | [-> | [-> | []]]]]]]]].
    + exists (-1), (-1). lia.
    + exists (-1), 0. lia.
    + exists (-1), 1. lia.
    + exists 0, (-1). lia.
    + exists 0, 1. lia.
    + exists 1, (-1). lia.
    + exists 1, 0. lia.
    + exists 1, 1. lia.
  - intros (dr & dc & -> & Hdr & Hdc & Hne).
    assert (dr = -1 \/ dr = 0 \/ dr = 1) as [-> | [-> | ->]] by lia;
    assert (dc = -1 \/ dc = 0 \/ dc = 1) as [-> | [-> | ->]] by lia; lia.
Qed.

(** Row and column of a candidate, by where [col + dc] falls. *)
Lemma candidate_row_col cell dr dc :
  -1 <= dc <= 1 ->
  let n := cell + (dr * width + dc) in
  let r := row_of width cell in
  let c := col_of width cell in
  (0 <= c + dc < width /\ row_of width n = r + dr /\ col_of width n = c + dc)
  \/ (c = 0 /\ dc = -1 /\ row_of width n = r + dr - 1 /\ col_of width n = width - 1)
  \/ (c = width - 1 /\ dc = 1 /\ row_of width n = r + dr + 1 /\ col_of width n = 0).
Proof.
  intros Hdc n r c. destruct (cell_row_col cell) as [Hcell Hcol].
  fold r c in Hcell, Hcol.
  destruct (Z_lt_le_dec (c + dc) 0); [|destruct (Z_lt_le_dec (c + dc) width)].
  - right; left.
    destruct (divmod_at (r + dr - 1) (width - 1)) as [Hq Hm]; [lia|].
    replace (width * (r + dr - 1) + (width - 1)) with n in * by (unfold n; lia).
    unfold row_of, col_of. lia.
  - left.
    destruct (divmod_at (r + dr) (c + dc)) as [Hq Hm]; [lia|].
    replace (width * (r + dr) + (c + dc)) with n in * by (unfold n; lia).
    unfold row_of, col_of. lia.
  - right; right.
    destruct (divmod_at (r + dr + 1) 0) as [Hq Hm]; [lia|].
    replace (width * (r + dr + 1) + 0) with n in * by (unfold n; lia).
    unfold row_of, col_of. lia.
Qed.

(** From width 3 on, the edge tests accept a candidate of the table
    exactly when it is a cell around [cell]. *)
Lemma passes_edges_grid_neighbor cell off :
  3 <= width -> 0 <= cell < width * height -> off ∈ spec_offsets width ->
  passes_edges cell width height off = true
  <-> grid_neighbor width height cell (cell + off).
Proof.
  intros Hw3 Hc (dr & dc & -> & Hdr & Hdc & Hne)%spec_offsets_steps.
  unfold passes_edges, grid_neighbor.
  rewrite !andb_true_iff, Z.leb_le, Z.ltb_lt, Z.leb_le.
  fold (col_of width cell) (col_of width (cell + (dr * width + dc))).
  destruct (cell_row_col cell) as [Hcell Hcol].
  destruct (candidate_row_col cell dr dc Hdc)
    as [(Hin & Hr & Hcl)|[(Hc0 & -> & Hr & Hcl)|(Hc0 & -> & Hr & Hcl)]];
    rewrite Hr, Hcl.
  - assert (dr = -1 \/ dr = 0 \/ dr = 1) as [-> | [-> | ->]] by lia;
      (split; [intros [[H0 HN] Hd]|intros ([H0 HN] & _ & _ & Hd)];
       repeat split; lia).
  - split; [intros [_ Hd]|intros (_ & _ & _ & Hd)]; lia.
  - split; [intros [_ Hd]|intros (_ & _ & _ & Hd)]; lia.
Qed.

(** Every cell around [cell] is the candidate of one offset of the table. *)
Lemma grid_neighbor_offset cell n :
  grid_neighbor width height cell n -> n - cell ∈ spec_offsets width.
Proof.
  intros (Hn & Hne & Hr & Hcl).
  destruct (cell_row_col cell) as [Hcell Hcol].
  destruct (cell_row_col n) as [Hncell Hncol].
  apply spec_offsets_steps.
  exists (row_of width n - row_of width cell), (col_of width n - col_of width cell).
  repeat split; lia.
Qed.

Lemma spec_offsets_NoDup : 3 <= width -> NoDup (spec_offsets width).
Proof.
  intros Hw3. unfold spec_offsets.
  repeat (apply NoDup_cons_2; [rewrite ?elem_of_cons, elem_of_nil; lia|]).
  apply NoDup_nil_2.
Qed.

Lemma spec_offsets_nonzero : 3 <= width -> 0 ∉ spec_offsets width.
Proof.
  intros Hw3. unfold spec_offsets. rewrite !elem_of_cons, elem_of_nil. lia.
Qed.

End Grid.

Lemma apply_rules_cell_counts_and_rules_witness :
  exists b,
    apply_rules_cell [false; true; false; false; true; false; false; true; false]
      (adjacency_offsets 3) 3 3 3 = Some b
    /\ (b = true <-> liveNeighbors 3
                       [false; true; false; false; true; false; false; true; false]
                       3 3 = 3).
Proof.
  destruct (apply_rules_cell_counts_and_rules 3 3
              [false; true; false; false; true; false; false; true; false] 3)
    as (_ & _ & b & Hb & _ & Hdead).
  - unfold board_ok, Int.INT_MAX. lia.
  - reflexivity.
  - lia.
  - exists b. split; [exact Hb|]. apply Hdead. reflexivity.
Defined.

(** C10.  From width 3 on, the eight offsets are pairwise distinct and
    nonzero, an offset's candidate passes the edge tests of [apply_rules]
    exactly when it is one of the cells around the current one (row and
    column each differing by at most 1, not the cell itself), and every such
    cell is the candidate of an offset.  At width 1 the table contains 0,
    at width 2 it repeats 1: a lone live cell of the 1x1 board counts
    itself twice, and on the 2x1 board the one neighbour is counted twice. *)
Theorem adjacency_offsets_neighbors (width height : Z) :
  board_ok width height ->
  (3 <= width ->
   NoDup (adjacency_offsets width) /\ (0 ∉ adjacency_offsets width)
   /\ forall cell, 0 <= cell < width * height ->
        (forall off, off ∈ adjacency_offsets width ->
           (edge_tests width height cell off = true
            <-> grid_neighbor width height cell (cell + off)))
        /\ (forall n, grid_neighbor width height cell n ->
              n - cell ∈ adjacency_offsets width))
  /\ (width = 1 -> 0 ∈ adjacency_offsets width)
  /\ (width = 2 -> ~ NoDup (adjacency_offsets width))
  /\ count_alive_adj [true] (adjacency_offsets 1) 1 1 0 = Some 2
  /\ count_alive_adj [false; true] (adjacency_offsets 2) 2 1 0 = Some 2.
Proof.
  intros Hok. pose proof Hok as (Hw & Hh & Hb).
  rewrite (adjacency_offsets_fits _ _ Hok).
  split; [|split; [|split; [|split]]].
  - intros Hw3. split; [by apply spec_offsets_NoDup|].
    split; [by apply spec_offsets_nonzero|].
    intros cell Hc. split.
    + intros off Hoff.
      rewrite edge_tests_spec; [| done | done |].
      * by apply passes_edges_grid_neighbor.
      * by apply spec_offsets_bound.
    + intros n Hn. by apply (grid_neighbor_offset width height).
  - intros ->. unfold spec_offsets. rewrite !elem_of_cons. lia.
  - intros -> Hnd. unfold spec_offsets in Hnd. cbn in Hnd.
    apply NoDup_cons_1_2, NoDup_cons_1_2, NoDup_cons_1_1 in Hnd.
    apply Hnd. left.
  - reflexivity.
  - reflexivity.
Qed.

Lemma adjacency_offsets_neighbors_witness :
  board_ok 3 3 /\ NoDup (adjacency_offsets 3)
  /\ (edge_tests 3 3 3 (-1) = true <-> grid_neighbor 3 3 3 (3 + -1)).
Proof.
  assert (Hok : board_ok 3 3) by (unfold board_ok, Int.INT_MAX; lia).
  destruct (adjacency_offsets_neighbors 3 3 Hok) as (H3 & _).
  destruct H3 as (Hnd & _ & Hcell); [lia|].
  split; [exact Hok|]. split; [exact Hnd|].
  destruct (Hcell 3) as [Hoff _]; [lia|].
  apply Hoff. unfold adjacency_offsets. rewrite !elem_of_cons. tauto.
Defined.

(** ** No wrap-around between the ends of a row *)

Lemma cell_at_insert_ne (prev : list bool) (i n : Z) b :
  0 <= i -> n <> i -> cell_at (<[Z.to_nat i := b]> prev) n = cell_at prev n.
Proof.
  intros Hi Hne. unfold cell_at, load.
  destruct (Z.leb_spec 0 n); [|done].
  rewrite list_lookup_insert_ne by lia. done.
Qed.

(** A cell whose column differs by two or more is never a live neighbour,
    so its state does not enter the count. *)
Lemma liveNeighbors_insert_far width height prev cell other b :
  0 < width -> 0 <= other ->
  2 <= Z.abs (col_of width cell - col_of width other) ->
  liveNeighbors cell (<[Z.to_nat other := b]> prev) width height
  = liveNeighbors cell prev width height.
Proof.
  intros Hw Ho Hfar. unfold liveNeighbors. do 2 f_equal.
  apply list_filter_iff. intros off. unfold is_live_neighbor.
  destruct (Z.eq_dec (cell + off) other) as [Heq|Hne].
  - assert (passes_edges cell width height off = false) as ->; [|done].
    unfold passes_edges. rewrite Heq. fold (col_of width cell) (col_of width other).
    destruct (Z.leb_spec (Z.abs (col_of width cell - col_of width other)) 1); [lia|].
    by rewrite andb_false_r.
  - by rewrite cell_at_insert_ne.
Qed.

(** C4, as amended.  From width 3 on, in every row of every board the live
    or dead state of the cell in column 0 does not enter the count of the
    cell in column [width - 1] of that row, nor the other way round. *)
Theorem no_wrap_from_width_3 (width height : Z) (prev : list bool) (r : Z) :
  board_ok width height -> 3 <= width ->
  Z.of_nat (length prev) = width * height ->
  0 <= r < height ->
  no_wrap_in_row width height prev r.
Proof.
  intros Hok Hw3 Hlen Hr. pose proof Hok as (Hw & Hh & Hb).
  destruct (divmod_at width r 0) as [_ Hc0]; [lia|].
  destruct (divmod_at width r (width - 1)) as [_ Hc1]; [lia|].
  replace (width * r + 0) with (r * width) in Hc0 by lia.
  replace (width * r + (width - 1)) with (r * width + (width - 1)) in Hc1 by lia.
  assert (0 <= r * width /\ r * width + (width - 1) < width * height) as [H0 H1] by nia.
  split; intros b.
  - rewrite !count_alive_adj_spec by (done || rewrite ?length_insert; done || lia).
    f_equal. apply liveNeighbors_insert_far; [done|lia|].
    unfold col_of. rewrite Hc0, Hc1. lia.
  - rewrite !count_alive_adj_spec by (done || rewrite ?length_insert; done || lia).
    f_equal. apply liveNeighbors_insert_far; [done|lia|].
    unfold col_of. rewrite Hc0, Hc1. lia.
Qed.

Lemma no_wrap_from_width_3_witness :
  no_wrap_in_row 3 1 [true; false; true] 0.
Proof.
  apply no_wrap_from_width_3.
  - unfold board_ok, Int.INT_MAX. lia.
  - lia.
  - reflexivity.
  - lia.
Defined.

(** C4 as stated fails at width 2: columns 0 and [width - 1] are adjacent
    there, and the live first cell of the 2x1 board is counted (twice) for
    the last one. *)
Lemma no_wrap_fails_at_width_2 : ~ no_wrap_in_row 2 1 [true; true] 0.
Proof.
  intros [H _]. specialize (H false). vm_compute in H. discriminate H.
Qed.

(** ** The partition table *)

Lemma partition_spec_length total n :
  1 <= n -> Z.of_nat (length (partition_spec total n)) = n.
Proof.
  intros Hn. unfold partition_spec.
  rewrite length_app, length_fmap, length_seqZ. cbn. lia.
Qed.

Lemma partition_spec_lookup total n i :
  1 <= n -> 0 <= i < n ->
  partition_spec total n !! Z.to_nat i
  = Some (if decide (i = n - 1)
          then {| offset := (total / n) * (n - 1);
                  num_cells := total / n + total mod n |}
          else {| offset := i * (total / n); num_cells := total / n |}).
Proof.
  intros Hn Hi. unfold partition_spec. case_decide as Hlast.
  - rewrite lookup_app_r by (rewrite length_fmap, length_seqZ; lia).
    rewrite length_fmap, length_seqZ.
    replace (Z.to_nat i - Z.to_nat (n - 1))%nat with 0%nat by lia. done.
  - rewrite lookup_app_l by (rewrite length_fmap, length_seqZ; lia).
    rewrite list_lookup_fmap, lookup_seqZ_lt by lia.
    rewrite Z.add_0_l, Z2Nat.id by lia. done.
Qed.

(** main, lines 79-92, computes the table of the specification. *)
Lemma setup_proc_data_spec width height world_size :
  1 <= width * height <= Int.INT_MAX -> 1 <= world_size <= Int.INT_MAX ->
  setup_proc_data width height world_size
  = Some (partition_spec (width * height) world_size).
Proof.
  intros HN Hws. unfold setup_proc_data, floor_div, Int.rem.
  rewrite (sub_fits world_size 1), (mul_fits width height)
    by (unfold Int.fits, Int.INT_MIN, Int.INT_MAX in *; lia).
  set (N := width * height) in *. set (base := N / world_size).
  assert (0 <= base <= N) as Hbase.
  { split; [apply Z.div_pos; lia|]. apply Z.div_le_upper_bound; nia. }
  assert (N = world_size * base + N mod world_size) as Hdm
    by (apply Z.div_mod; lia).
  pose proof (Z.mod_pos_bound N world_size ltac:(lia)) as Hmod.
  unfold Int.INT_MAX in *.
  rewrite Z.rem_mod_nonneg by lia.
  set (zero := {| offset := 0; num_cells := 0 |}).
  match goal with
  | |- context [for_range ?lo ?hi ?body ?s] =>
      destruct (for_range_inv
        (fun j (pd : list ProcInfo) =>
           length pd = Z.to_nat world_size
           /\ forall k : nat, Z.of_nat k < j ->
                pd !! k = Some {| offset := Z.of_nat k * base; num_cells := base |})
        body lo hi s) as (pd & -> & Hlen & Hpd)
  end.
  - lia.
  - split; [apply length_replicate|]. intros k Hk. lia.
  - intros j pd Hj [Hlen Hpd].
    rewrite store_Some by lia.
    rewrite mul_fits by (unfold Int.fits, Int.INT_MIN, Int.INT_MAX; nia).
    eexists. split; [done|]. split; [by rewrite length_insert|].
    intros k Hk. destruct (decide (k = Z.to_nat j)) as [->|Hne].
    + rewrite list_lookup_insert_eq by lia. do 2 f_equal. lia.
    + rewrite list_lookup_insert_ne by lia. apply Hpd. lia.
  - cbn [mbind option_bind]. rewrite store_Some by lia.
    rewrite mul_fits, add_fits by (unfold Int.fits, Int.INT_MIN, Int.INT_MAX; nia).
    f_equal. apply list_eq. intros k.
    destruct (decide (Z.of_nat k < world_size)) as [Hk|Hk].
    + replace k with (Z.to_nat (Z.of_nat k)) at 2 by lia.
      rewrite partition_spec_lookup by lia. case_decide as Hlast.
      * replace (Z.to_nat (world_size - 1)) with k by lia.
        rewrite list_lookup_insert_eq by lia. done.
      * rewrite list_lookup_insert_ne by lia. apply Hpd. lia.
    + rewrite !lookup_ge_None_2; [done| |].
      * pose proof (partition_spec_length N world_size). lia.
      * rewrite length_insert. lia.
Qed.

Lemma sum_cells_app a b : sum_cells (a ++ b) = sum_cells a + sum_cells b.
Proof.
  induction a as [|p a IH]; [done|]. cbn. unfold sum_cells in *. cbn. lia.
Qed.

Lemma sum_cells_const (l : list ProcInfo) c :
  Forall (fun p => num_cells p = c) l -> sum_cells l = Z.of_nat (length l) * c.
Proof.
  induction 1 as [|p l Hp _ IH]; [done|].
  unfold sum_cells in *. cbn [foldr length]. rewrite IH, Hp. lia.
Qed.

Lemma partition_spec_sum total n : 1 <= n -> sum_cells (partition_spec total n) = total.
Proof.
  intros Hn. unfold partition_spec. rewrite sum_cells_app.
  rewrite (sum_cells_const _ (total / n)).
  - rewrite length_fmap, length_seqZ, Z2Nat.id by lia. unfold sum_cells. cbn.
    pose proof (Z.div_mod total n ltac:(lia)). lia.
  - apply Forall_fmap, Forall_forall. done.
Qed.

Lemma partition_spec_load total n i p :
  1 <= n -> load (partition_spec total n) i = Some p ->
  0 <= i < n /\ offset p = i * (total / n)
  /\ (i < n - 1 -> num_cells p = total / n)
  /\ (i = n - 1 -> num_cells p = total / n + total mod n).
Proof.
  intros Hn Hload. apply load_inv in Hload as [Hi Hp].
  rewrite partition_spec_length in Hi by done.
  rewrite partition_spec_lookup in Hp by done.
  split; [done|]. case_decide; simplify_eq; cbn; repeat split; lia.
Qed.

(** C2.  For a board of at least one cell and at least one process, the
    table built at lines 79-92 has exactly [world_size] entries; entry
    [i < world_size - 1] is [{i * base, base}] and the last one is
    [{base * (world_size - 1), base + total mod world_size}] with
    [base = floor (total / world_size)]; consecutive entries are
    contiguous, two different entries never own the same cell, and the
    counts sum to the number of cells. *)
Theorem partition_table_correct (width height world_size : Z) :
  1 <= width * height <= Int.INT_MAX -> 1 <= world_size <= Int.INT_MAX ->
  let total := width * height in
  let base := total / world_size in
  exists proc_data,
    setup_proc_data width height world_size = Some proc_data
    /\ Z.of_nat (length proc_data) = world_size
    /\ (forall i, 0 <= i < world_size - 1 ->
          load proc_data i = Some {| offset := i * base; num_cells := base |})
    /\ load proc_data (world_size - 1)
       = Some {| offset := base * (world_size - 1);
                 num_cells := base + total mod world_size |}
    /\ (forall i p q, load proc_data i = Some p -> load proc_data (i + 1) = Some q ->
          offset q = offset p + num_cells p)
    /\ (forall i j p q, i <> j ->
          load proc_data i = Some p -> load proc_data j = Some q ->
          forall cell, ~ (owns p cell /\ owns q cell))
    /\ sum_cells proc_data = total.
Proof.
  intros HN Hws total base. exists (partition_spec total world_size).
  assert (0 <= base) as Hbase by (apply Z.div_pos; lia).
  pose proof (Z.mod_pos_bound total world_size ltac:(lia)) as Hmod.
  split; [by apply setup_proc_data_spec|].
  split; [apply partition_spec_length; lia|].
  split; [|split; [|split; [|split]]].
  - intros i Hi. rewrite load_lookup, partition_spec_lookup by lia.
    by rewrite decide_False by lia.
  - rewrite load_lookup, partition_spec_lookup by lia.
    by rewrite decide_True by lia.
  - intros i p q (Hi & Hop & Hcp & _)%partition_spec_load
                 (Hi' & Hoq & _)%partition_spec_load; [|lia..].
    fold base in Hop, Hcp, Hoq. rewrite Hoq, Hop, Hcp by lia. lia.
  - intros i j p q Hne (Hi & Hop & Hcp & Hlp)%partition_spec_load
                       (Hj & Hoq & Hcq & Hlq)%partition_spec_load; [|lia..].
    fold base in Hop, Hcp, Hoq, Hcq, Hlp, Hlq.
    unfold owns. intros cell [[Hp1 Hp2] [Hq1 Hq2]].
    rewrite Hop in *. rewrite Hoq in *.
    destruct (Z_lt_le_dec i j).
    + rewrite Hcp in Hp2 by lia. nia.
    + rewrite Hcq in Hq2 by lia. nia.
  - apply partition_spec_sum. lia.
Qed.

Lemma partition_table_correct_witness :
  exists proc_data,
    setup_proc_data 5 5 3 = Some proc_data
    /\ Z.of_nat (length proc_data) = 3
    /\ load proc_data 2 = Some {| offset := 16; num_cells := 9 |}
    /\ sum_cells proc_data = 25.
Proof.
  destruct (partition_table_correct 5 5 3) as (pd & H1 & H2 & _ & H4 & _ & _ & H7).
  - unfold Int.INT_MAX. lia.
  - unfold Int.INT_MAX. lia.
  - exists pd. repeat split; assumption.
Defined.

(** ** Stores, sends and receives *)

Lemma load_store {A} (a a' : list A) i x j :
  store a i x = Some a' ->
  load a' j = if decide (j = i) then Some x else load a j.
Proof.
  intros [Hi ->]%store_inv. unfold load. case_decide as Hj.
  - subst j. destruct (Z.leb_spec 0 i); [|lia].
    apply list_lookup_insert_eq. lia.
  - destruct (Z.leb_spec 0 j); [|done].
    apply list_lookup_insert_ne. lia.
Qed.

Lemma load_ext {A} (a b : list A) :
  length a = length b -> (forall j, load a j = load b j) -> a = b.
Proof.
  intros Hlen Heq. apply list_eq. intros k.
  specialize (Heq (Z.of_nat k)). rewrite !load_lookup, Nat2Z.id in Heq by lia. done.
Qed.

Lemma buf_store_Some m i b :
  0 <= i < Z.of_nat (length (cells m)) ->
  exists m', buf_store m i b = Some m' /\ writes m' = writes m ++ [i]
             /\ store (cells m) i b = Some (cells m')
             /\ length (cells m') = length (cells m).
Proof.
  intros Hi. unfold buf_store. rewrite store_Some by done. cbn.
  eexists. split; [done|]. cbn. repeat split. by rewrite length_insert.
Qed.

Lemma seqZ_snoc m n : 0 <= n -> seqZ m (n + 1) = seqZ m n ++ [m + n].
Proof.
  intros Hn. rewrite seqZ_app by lia. done.
Qed.

(** Receiving a message: the cells from [i] on take the message, the rest
    of the buffer stays, and the stores are those of [i .. i + length). *)
Lemma recv_cells_spec msg : forall m i,
  0 <= i -> i + Z.of_nat (length msg) <= Z.of_nat (length (cells m)) ->
  exists m', recv_cells m i msg = Some m'
    /\ writes m' = writes m ++ seqZ i (Z.of_nat (length msg))
    /\ length (cells m') = length (cells m)
    /\ (forall k : nat, (k < length msg)%nat ->
          load (cells m') (i + Z.of_nat k) = msg !! k)
    /\ (forall j, ~ (i <= j < i + Z.of_nat (length msg)) ->
          load (cells m') j = load (cells m) j).
Proof.
  induction msg as [|b msg IH]; intros m i Hi Hlen.
  - exists m. cbn. rewrite app_nil_r. split_and!; try done.
    intros k Hk. cbn in Hk. lia.
  - cbn [length] in Hlen. cbn [recv_cells].
    destruct (buf_store_Some m i b) as (m1 & -> & Hw1 & Hs1 & Hl1); [lia|].
    destruct (IH m1 (i + 1)) as (m' & Hr & Hw & Hl & Hin & Hout); [lia|lia|].
    exists m'. cbn. split; [done|]. split; [|split; [congruence|split]].
    + rewrite Hw, Hw1, <- app_assoc. f_equal. cbn [length].
      rewrite (seqZ_cons i) by lia. cbn. do 2 f_equal; lia.
    + intros [|k] Hk.
      * rewrite Hout by lia. rewrite (load_store _ _ _ _ _ Hs1).
        rewrite decide_True by lia. done.
      * cbn [length] in Hk. replace (i + Z.of_nat (S k)) with (i + 1 + Z.of_nat k) by lia.
        rewrite Hin by lia. done.
    + intros j Hj. cbn [length] in Hj. rewrite Hout by lia.
      rewrite (load_store _ _ _ _ _ Hs1). rewrite decide_False by lia. done.
Qed.

Lemma mpi_recv_spec m off n msg :
  0 <= off -> Z.of_nat (length msg) = n ->
  off + n <= Z.of_nat (length (cells m)) ->
  exists m', mpi_recv m off n msg = Some m'
    /\ writes m' = writes m ++ seqZ off n
    /\ length (cells m') = length (cells m)
    /\ (forall k : nat, (k < length msg)%nat ->
          load (cells m') (off + Z.of_nat k) = msg !! k)
    /\ (forall j, ~ (off <= j < off + n) -> load (cells m') j = load (cells m) j).
Proof.
  intros Hoff Hn Hlen. unfold mpi_recv.
  destruct (Z.leb_spec (Z.of_nat (length msg)) n); [|lia].
  subst n. by apply recv_cells_spec.
Qed.

(** Sending a range that lies in the buffer: the message is the range. *)
Lemma mpi_send_spec buf off n :
  0 <= off -> 0 <= n -> off + n <= Z.of_nat (length buf) ->
  exists msg, mpi_send buf off n = Some msg
    /\ Z.of_nat (length msg) = n
    /\ (forall k : nat, Z.of_nat k < n -> msg !! k = load buf (off + Z.of_nat k)).
Proof.
  intros Hoff Hn Hlen. unfold mpi_send.
  destruct (Z.ltb_spec n 0); [lia|].
  destruct (mapM (fun k => load buf (off + k)) (seqZ 0 n)) as [msg|] eqn:Hm.
  - exists msg. split; [done|].
    pose proof (length_mapM _ _ _ Hm) as Hl. rewrite length_seqZ in Hl.
    split; [lia|]. intros k Hk.
    apply mapM_Some_1 in Hm.
    destruct (lookup_lt_is_Some_2 msg k) as [b Hb]; [lia|].
    destruct (Forall2_lookup_r _ _ _ _ _ Hm Hb) as (z & Hz & Hload).
    apply lookup_seqZ in Hz as [-> _]. rewrite Z.add_0_l in Hload. congruence.
  - exfalso. apply eq_None_not_Some in Hm. apply Hm.
    apply mapM_is_Some, Forall_forall. intros k [Hk0 Hk1]%elem_of_seqZ. cbn.
    destruct (load_Some buf (off + k)) as (b & -> & _); [lia|]. done.
Qed.

Lemma mpi_send_whole buf n :
  Z.of_nat (length buf) = n -> mpi_send buf 0 n = Some buf.
Proof.
  intros Hn. destruct (mpi_send_spec buf 0 n) as (msg & -> & Hl & Hmsg); [lia..|].
  f_equal. apply list_eq. intros k.
  destruct (decide (Z.of_nat k < n)) as [Hk|Hk].
  - rewrite Hmsg by done. rewrite load_lookup by lia. f_equal. lia.
  - rewrite !lookup_ge_None_2 by lia. done.
Qed.

(** ** apply_rules on one partition *)

(** On a valid partition [apply_rules] terminates inside its buffers; it
    stores to the cells of the partition, in order and once each, the
    next state of each; the other cells keep their value. *)
Lemma apply_rules_spec proc_data last new world_rank width height me :
  board_ok width height ->
  Z.of_nat (length last) = width * height ->
  Z.of_nat (length (cells new)) = width * height ->
  load proc_data world_rank = Some me ->
  0 <= offset me -> 0 <= num_cells me ->
  offset me + num_cells me <= width * height ->
  exists new',
    apply_rules proc_data last new world_rank (adjacency_offsets width)
      width height = Some new'
    /\ writes new' = writes new ++ seqZ (offset me) (num_cells me)
    /\ length (cells new') = length (cells new)
    /\ (forall j, owns me j ->
          load (cells new') j = Some (nextState_spec j last width height))
    /\ (forall j, ~ owns me j -> load (cells new') j = load (cells new) j).
Proof.
  intros Hok Hlast Hnew Hme Hoff Hcnt Hend.
  destruct (board_ok_cells _ _ Hok) as (HN & HNf & _).
  unfold Int.fits, Int.INT_MIN, Int.INT_MAX in HNf.
  unfold apply_rules, owns. rewrite Hme. cbn [mbind option_bind].
  match goal with
  | |- context [for_range ?lo ?hi ?body ?s] =>
      destruct (for_range_inv
        (fun idx (m : Buf) =>
           writes m = writes new ++ seqZ (offset me) idx
           /\ length (cells m) = length (cells new)
           /\ (forall j, offset me <= j < offset me + idx ->
                 load (cells m) j = Some (nextState_spec j last width height))
           /\ (forall j, ~ (offset me <= j < offset me + idx) ->
                 load (cells m) j = load (cells new) j))
        body lo hi s) as (new' & Hloop & Hinv)
  end.
  - done.
  - rewrite seqZ_nil, app_nil_r by lia. split_and!; try done. intros j Hj. lia.
  - intros idx m Hidx (Hw & Hl & Hin & Hout).
    rewrite add_fits by (unfold Int.fits, Int.INT_MIN, Int.INT_MAX; lia).
    rewrite apply_rules_cell_spec by (done || lia). cbn [mbind option_bind].
    destruct (buf_store_Some m (offset me + idx)
                (nextState_spec (offset me + idx) last width height))
      as (m1 & -> & Hw1 & Hs1 & Hl1); [lia|].
    exists m1. split; [done|]. split_and!.
    + rewrite Hw1, Hw, <- app_assoc, seqZ_snoc by lia. done.
    + congruence.
    + intros j Hj. rewrite (load_store _ _ _ _ _ Hs1). case_decide as Hd.
      * by subst j.
      * apply Hin. lia.
    + intros j Hj. rewrite (load_store _ _ _ _ _ Hs1).
      rewrite decide_False by lia. apply Hout. lia.
  - exists new'. done.
Qed.

(** C6.  For every partition inside the board and every previous grid,
    [apply_rules] stores only to the cells [offset .. offset + num_cells - 1]
    of the output buffer (its store trace grows by exactly these indices),
    and every cell of the buffer outside that range keeps its value. *)
Theorem apply_rules_frame (proc_data : list ProcInfo) (last : list bool)
    (new : Buf) (world_rank width height : Z) (me : ProcInfo) :
  board_ok width height ->
  Z.of_nat (length last) = width * height ->
  Z.of_nat (length (cells new)) = width * height ->
  load proc_data world_rank = Some me ->
  0 <= offset me -> 0 <= num_cells me ->
  offset me + num_cells me <= width * height ->
  exists new',
    apply_rules proc_data last new world_rank (adjacency_offsets width)
      width height = Some new'
    /\ (exists stored, writes new' = writes new ++ stored
          /\ forall j, j ∈ stored <-> offset me <= j <= offset me + num_cells me - 1)
    /\ length (cells new') = length (cells new)
    /\ forall j, ~ (offset me <= j <= offset me + num_cells me - 1) ->
         load (cells new') j = load (cells new) j.
Proof.
  intros Hok Hlast Hnew Hme Hoff Hcnt Hend.
  destruct (apply_rules_spec proc_data last new world_rank width height me)
    as (new' & Hrun & Hw & Hl & _ & Hout); try done.
  exists new'. split_and!; try done.
  - exists (seqZ (offset me) (num_cells me)). split; [done|].
    intros j. rewrite elem_of_seqZ. lia.
  - intros j Hj. apply Hout. unfold owns. lia.
Qed.

Lemma apply_rules_frame_witness :
  exists new',
    apply_rules [ {| offset := 0; num_cells := 4 |}; {| offset := 4; num_cells := 5 |} ]
      [false; true; false; false; true; false; false; true; false]
      (fresh [true; true; true; true; true; true; true; true; true])
      1 (adjacency_offsets 3) 3 3 = Some new'
    /\ load (cells new') 3 = Some true.
Proof.
  destruct (apply_rules_frame
              [ {| offset := 0; num_cells := 4 |}; {| offset := 4; num_cells := 5 |} ]
              [false; true; false; false; true; false; false; true; false]
              (fresh [true; true; true; true; true; true; true; true; true])
              1 3 3 {| offset := 4; num_cells := 5 |})
    as (new' & Hrun & _ & _ & Hout).
  - unfold board_ok, Int.INT_MAX. lia.
  - reflexivity.
  - reflexivity.
  - reflexivity.
  - simpl. lia.
  - simpl. lia.
  - simpl. lia.
  - exists new'. split; [exact Hrun|]. rewrite Hout; [reflexivity | simpl; lia].
Defined.

(** ** One iteration of the processes *)

(** A worker that is sent the board answers with the next state of the
    cells of its partition. *)
Lemma worker_iteration_spec proc_data world_rank world mem width height me :
  board_ok width height ->
  Z.of_nat (length world) = width * height ->
  mem_ok width height mem ->
  load proc_data world_rank = Some me ->
  0 <= offset me -> 0 <= num_cells me ->
  offset me + num_cells me <= width * height ->
  exists msg mem',
    worker_iteration proc_data world_rank world mem width height
    = Some (msg, mem')
    /\ Z.of_nat (length msg) = num_cells me
    /\ (forall k : nat, Z.of_nat k < num_cells me ->
          msg !! k = Some (nextState_spec (offset me + Z.of_nat k) world width height))
    /\ mem_ok width height mem'.
Proof.
  intros Hok Hworld [Hml Hmn] Hme Hoff Hcnt Hend.
  destruct (board_ok_cells _ _ Hok) as (HN & HNf & _).
  unfold worker_iteration. rewrite mul_fits by done.
  destruct (mpi_recv_spec (fresh (pm_last mem)) 0 (width * height) world)
    as (last & -> & _ & Hll & Hlin & _); [lia|done|cbn; lia|].
  cbn [mbind option_bind]. cbn [fresh cells] in Hll.
  assert (cells last = world) as ->.
  { apply list_eq. intros k. destruct (decide (k < length world)%nat) as [Hk|Hk].
    - rewrite <- Hlin by done. rewrite load_lookup by lia. f_equal. lia.
    - rewrite !lookup_ge_None_2 by lia. done. }
  destruct (apply_rules_spec proc_data world (fresh (pm_new mem)) world_rank
              width height me) as (new & -> & _ & Hnl & Hin & _); try done.
  cbn [mbind option_bind]. rewrite Hme. cbn [mbind option_bind].
  cbn [fresh cells] in Hnl.
  destruct (mpi_send_spec (cells new) (offset me) (num_cells me))
    as (msg & -> & Hmsgl & Hmsg); [lia..|].
  cbn. exists msg, {| pm_last := world; pm_new := cells new |}.
  split_and!; try done.
  - intros k Hk. rewrite Hmsg by done. apply Hin. unfold owns. lia.
  - split; cbn; lia.
Qed.

(** The coordinator's iteration over a table whose partitions follow one
    another: [start i] is where the partition of rank [i] begins, and
    [start world_size] is the number of cells. *)
Section Gather.
Context (width height world_size : Z) (proc_data : list ProcInfo)
        (start : Z -> Z).
Hypothesis Hok : board_ok width height.
Hypothesis Hws : 1 <= world_size.
Hypothesis Hstart0 : start 0 = 0.
Hypothesis Hstart_end : start world_size = width * height.
Hypothesis Htable : forall i, 0 <= i < world_size ->
  start i <= start (i + 1)
  /\ load proc_data i
     = Some {| offset := start i; num_cells := start (i + 1) - start i |}.

Lemma start_bounds i : 0 <= i <= world_size -> 0 <= start i <= width * height.
Proof using Hws Hstart0 Hstart_end Htable.
  intros Hi.
  assert (forall n : nat, Z.of_nat n <= world_size -> 0 <= start (Z.of_nat n)) as Hlo.
  { induction n as [|n IH]; intros Hn; [change (Z.of_nat 0) with 0; lia|].
    destruct (Htable (Z.of_nat n)) as [Hle _]; [lia|].
    replace (Z.of_nat (S n)) with (Z.of_nat n + 1) by lia. lia. }
  assert (forall n : nat, Z.of_nat n <= world_size - i ->
            start (world_size - Z.of_nat n) <= width * height) as Hhi.
  { induction n as [|n IH]; intros Hn.
    - replace (world_size - Z.of_nat 0) with world_size by lia.
      rewrite Hstart_end. lia.
    - destruct (Htable (world_size - Z.of_nat (S n))) as [Hle _]; [lia|].
      replace (world_size - Z.of_nat (S n) + 1) with (world_size - Z.of_nat n) in Hle by lia.
      lia. }
  split.
  - specialize (Hlo (Z.to_nat i)). rewrite Z2Nat.id in Hlo by lia. lia.
  - specialize (Hhi (Z.to_nat (world_size - i))).
    rewrite Z2Nat.id in Hhi by lia.
    replace (world_size - (world_size - i)) with i in Hhi by lia. lia.
Qed.

Lemma coordinator_iteration_spec mems me :
  Z.of_nat (length mems) = world_size ->
  Forall (mem_ok width height) mems ->
  load mems 0 = Some me ->
  exists new mems',
    coordinator_iteration proc_data world_size mems width height
    = Some (new, mems')
    /\ writes new = seqZ 0 (width * height)
    /\ Z.of_nat (length (cells new)) = width * height
    /\ (forall j, 0 <= j < width * height ->
          load (cells new) j = Some (nextState_spec j (pm_last me) width height))
    /\ Z.of_nat (length mems') = world_size
    /\ Forall (mem_ok width height) mems'
    /\ load mems' 0 = Some me.
Proof using All.
  intros Hlen Hmems Hme.
  destruct (board_ok_cells _ _ Hok) as (HN & HNf & _).
  assert (mem_ok width height me) as [Hml Hmn].
  { apply load_inv in Hme as [_ Hme]. by eapply Forall_lookup_1. }
  unfold coordinator_iteration. rewrite Hme. cbn [mbind option_bind].
  match goal with
  | |- context [for_range ?lo ?hi ?body (@nil (list bool))] =>
      destruct (for_range_inv
        (fun proc (worlds : list (list bool)) =>
           worlds = replicate (Z.to_nat (proc - 1)) (pm_last me))
        body lo hi []) as (worlds & -> & Hworlds)
  end.
  { lia. }
  { done. }
  { intros proc worlds Hproc ->.
    rewrite mul_fits, mpi_send_whole by done. cbn [mbind option_bind].
    eexists. split; [done|].
    replace (Z.to_nat (proc + 1 - 1)) with (S (Z.to_nat (proc - 1))) by lia.
    by rewrite replicate_S_end. }
  cbn [mbind option_bind].
  destruct (Htable 0) as [Hle0 Hpd0]; [lia|].
  change (0 + 1) with 1 in Hle0, Hpd0.
  pose proof (start_bounds 1 ltac:(lia)) as Hs1.
  destruct (apply_rules_spec proc_data (pm_last me) (fresh (pm_new me)) 0
              width height _ Hok Hml Hmn Hpd0)
    as (new0 & -> & Hw0 & Hl0 & Hin0 & _); cbn [offset num_cells]; [lia..|].
  cbn [mbind option_bind]. cbn [fresh cells writes offset num_cells] in *.
  rewrite Hstart0, Z.sub_0_r in Hw0. cbn [app] in Hw0.
  match goal with
  | |- context [for_range ?lo ?hi ?body ?s] =>
      destruct (for_range_inv
        (fun proc (st : Buf * list ProcMem) =>
           writes st.1 = seqZ 0 (start proc)
           /\ Z.of_nat (length (cells st.1)) = width * height
           /\ (forall j, 0 <= j < start proc ->
                 load (cells st.1) j
                 = Some (nextState_spec j (pm_last me) width height))
           /\ Z.of_nat (length st.2) = world_size
           /\ Forall (mem_ok width height) st.2
           /\ load st.2 0 = Some me)
        body lo hi s) as ([new mems'] & Hloop & Hinv)
  end.
  - lia.
  - cbn [fst snd]. split_and!; try done; [lia|].
    intros j Hj. apply Hin0. unfold owns. cbn. lia.
  - intros proc [new mems1] Hproc (Hw & Hl & Hin & Hlm & Hfm & Hm0).
    cbn [fst snd] in *.
    rewrite Hworlds, (load_lookup (replicate _ _) (proc - 1)) by lia.
    rewrite lookup_replicate_2 by lia.
    cbn [mbind option_bind].
    destruct (load_Some mems1 proc) as (wm & -> & Hwm); [lia|].
    cbn [mbind option_bind].
    destruct (Htable proc) as [Hle Hpd]; [lia|].
    pose proof (start_bounds proc ltac:(lia)) as Hsp.
    pose proof (start_bounds (proc + 1) ltac:(lia)) as Hsp1.
    destruct (worker_iteration_spec proc_data proc (pm_last me) wm width height
                _ Hok Hml (Forall_lookup_1 _ _ _ _ Hfm Hwm) Hpd)
      as (msg & wm' & -> & Hmsgl & Hmsg & Hwm'); cbn [offset num_cells]; [lia..|].
    cbn [mbind option_bind]. rewrite Hpd. cbn [mbind option_bind offset num_cells].
    cbn [offset num_cells] in Hmsgl, Hmsg.
    destruct (mpi_recv_spec new (start proc) (start (proc + 1) - start proc) msg)
      as (new1 & -> & Hw1 & Hl1 & Hin1 & Hout1); [lia|done|lia|].
    cbn [mbind option_bind]. rewrite store_Some by lia. cbn [mbind option_bind].
    eexists. split; [done|]. cbn [fst snd]. split_and!.
    + rewrite Hw1, Hw. rewrite <- (seqZ_app 0) by lia. f_equal. lia.
    + lia.
    + intros j Hj. destruct (Z_lt_le_dec j (start proc)) as [Hlt|Hge].
      * rewrite Hout1 by lia. apply Hin. lia.
      * replace j with (start proc + Z.of_nat (Z.to_nat (j - start proc))) at 1 by lia.
        rewrite Hin1 by lia. rewrite Hmsg by lia. do 2 f_equal. lia.
    + rewrite length_insert. lia.
    + apply Forall_insert; done.
    + rewrite load_lookup, list_lookup_insert_ne by lia.
      by rewrite <- (load_lookup mems1 0) by lia.
  - cbn [fst snd] in Hinv. destruct Hinv as (Hw & Hl & Hin & Hlm & Hfm & Hm0).
    exists new, mems'. rewrite Hstart_end in Hw, Hin. done.
Qed.

End Gather.

(** The table of the specification satisfies the hypotheses of the
    section above. *)
Lemma partition_spec_start total n :
  1 <= total -> 1 <= n ->
  let start := fun i => if decide (i = n) then total else i * (total / n) in
  start 0 = 0 /\ start n = total
  /\ forall i, 0 <= i < n ->
       start i <= start (i + 1)
       /\ load (partition_spec total n) i
          = Some {| offset := start i; num_cells := start (i + 1) - start i |}.
Proof.
  intros Htotal Hn start. unfold start.
  assert (0 <= total / n) as Hbase by (apply Z.div_pos; lia).
  pose proof (Z.div_mod total n ltac:(lia)) as Hdm.
  pose proof (Z.mod_pos_bound total n ltac:(lia)) as Hmod.
  split; [rewrite decide_False by lia; lia|].
  split; [by rewrite decide_True|].
  intros i Hi. rewrite load_lookup, partition_spec_lookup by lia.
  rewrite (decide_False (P := i = n)) by lia.
  destruct (decide (i = n - 1)) as [->|Hne].
  - rewrite decide_True by lia. split; [nia|]. do 2 f_equal; lia.
  - rewrite decide_False by lia. split; [nia|]. do 2 f_equal; lia.
Qed.

(** C1.  One full generation over the table of lines 79-92, for every
    board and every number of processes: rank 0's [new_game_state] is
    stored to at every cell index of the board exactly once (its store
    trace is 0, 1, ..., width*height - 1), every cell holds the value
    [apply_rules] computes for it from the previous grid, which is the
    next state of the specification, and the merged grid is the one the
    same program computes with a single process. *)
Theorem generation_refines_sequential (width height world_size : Z)
    (proc_data : list ProcInfo) (mems : list ProcMem) (me : ProcMem) :
  board_ok width height ->
  1 <= world_size <= Int.INT_MAX ->
  setup_proc_data width height world_size = Some proc_data ->
  Z.of_nat (length mems) = world_size ->
  Forall (mem_ok width height) mems ->
  load mems 0 = Some me ->
  exists new mems',
    coordinator_iteration proc_data world_size mems width height
    = Some (new, mems')
    /\ writes new = seqZ 0 (width * height)
    /\ NoDup (writes new)
    /\ (forall j, j ∈ writes new <-> 0 <= j < width * height)
    /\ (forall j, 0 <= j < width * height ->
          load (cells new) j
          = apply_rules_cell (pm_last me) (adjacency_offsets width) width height j
          /\ load (cells new) j
             = Some (nextState_spec j (pm_last me) width height))
    /\ exists proc_data1 new1 mems1,
         setup_proc_data width height 1 = Some proc_data1
         /\ coordinator_iteration proc_data1 1 [me] width height
            = Some (new1, mems1)
         /\ cells new = cells new1.
Proof.
  intros Hok Hws Hsetup Hlen Hmems Hme.
  destruct (board_ok_cells _ _ Hok) as (HN & HNf & _).
  assert (1 <= width * height <= Int.INT_MAX) as HN1
    by (unfold Int.fits in HNf; lia).
  assert (mem_ok width height me) as Hmok.
  { apply load_inv in Hme as [_ Hme]. by eapply Forall_lookup_1. }
  rewrite setup_proc_data_spec in Hsetup by done. injection Hsetup as <-.
  destruct (partition_spec_start (width * height) world_size)
    as (Hs0 & Hse & Htab); [lia..|].
  destruct (coordinator_iteration_spec width height world_size _ _ Hok
              ltac:(lia) Hs0 Hse Htab mems me Hlen Hmems Hme)
    as (new & mems' & Hrun & Hw & Hl & Hcells & _).
  destruct (partition_spec_start (width * height) 1)
    as (Hs0' & Hse' & Htab'); [lia..|].
  destruct (coordinator_iteration_spec width height 1 _ _ Hok
              ltac:(lia) Hs0' Hse' Htab' [me] me)
    as (new1 & mems1 & Hrun1 & _ & Hl1 & Hcells1 & _); [done|by constructor|done|].
  exists new, mems'. split_and!; try done.
  - rewrite Hw. apply NoDup_seqZ.
  - intros j. rewrite Hw, elem_of_seqZ. lia.
  - intros j Hj. rewrite apply_rules_cell_spec by (done || apply Hmok).
    split; by apply Hcells.
  - exists (partition_spec (width * height) 1), new1, mems1.
    split; [apply setup_proc_data_spec; unfold Int.INT_MAX in *; lia|].
    split; [done|]. apply load_ext; [lia|]. intros j.
    destruct (decide (0 <= j < width * height)) as [Hj|Hj].
    + by rewrite Hcells, Hcells1.
    + unfold load. destruct (Z.leb_spec 0 j); [|done].
      rewrite !lookup_ge_None_2 by lia. done.
Qed.

Lemma generation_refines_sequential_witness :
  exists new mems',
    coordinator_iteration
      [ {| offset := 0; num_cells := 4 |}; {| offset := 4; num_cells := 5 |} ] 2
      [ {| pm_last := [false; true; false; false; true; false; false; true; false];
           pm_new := calloc_bool 9 |};
        {| pm_last := calloc_bool 9; pm_new := calloc_bool 9 |} ] 3 3
    = Some (new, mems')
    /\ writes new = seqZ 0 9.
Proof.
  destruct (generation_refines_sequential 3 3 2
              [ {| offset := 0; num_cells := 4 |}; {| offset := 4; num_cells := 5 |} ]
              [ {| pm_last := [false; true; false; false; true; false; false; true; false];
                   pm_new := calloc_bool 9 |};
                {| pm_last := calloc_bool 9; pm_new := calloc_bool 9 |} ]
              {| pm_last := [false; true; false; false; true; false; false; true; false];
                 pm_new := calloc_bool 9 |})
    as (new & mems' & Hrun & Hw & _).
  - unfold board_ok, Int.INT_MAX. lia.
  - unfold Int.INT_MAX. lia.
  - reflexivity.
  - reflexivity.
  - repeat constructor.
  - reflexivity.
  - exists new, mems'. split; [exact Hrun | exact Hw].
Defined.

(** ** The count by rows and columns *)

Lemma length_filter_sum {A} (P : A -> Prop) `{!forall x, Decision (P x)} (l : list A) :
  Z.of_nat (length (filter P l))
  = foldr (fun x acc => Z.b2z (bool_decide (P x)) + acc) 0 l.
Proof.
  induction l as [|x l IH]; [done|].
  rewrite filter_cons. cbn [foldr]. rewrite <- IH.
  case_decide as Hx.
  - rewrite bool_decide_eq_true_2 by done. cbn [length Z.b2z]. lia.
  - rewrite bool_decide_eq_false_2 by done. cbn [Z.b2z]. lia.
Qed.

Lemma spec_offsets_of_steps width :
  spec_offsets width = (fun s : Z * Z => s.1 * width + s.2) <$> steps.
Proof. unfold spec_offsets, steps. cbn. repeat (f_equal; try lia). Qed.

Section Count2D.
Context (width height : Z) (prev : list bool).
Hypothesis Hok : board_ok width height.
Hypothesis Hw3 : 3 <= width.
Hypothesis Hlen : Z.of_nat (length prev) = width * height.

(** From width 3 on, an offset's candidate is a live neighbour exactly when
    the cell one row and column step away is on the board and alive. *)
Lemma is_live_neighbor_2d cell dr dc :
  0 <= cell < width * height -> -1 <= dr <= 1 -> -1 <= dc <= 1 ->
  is_live_neighbor cell prev width height (dr * width + dc)
  = live_at prev width height (row_of width cell + dr) (col_of width cell + dc).
Proof using Hok Hw3.
  intros Hc Hdr Hdc. destruct Hok as (Hw & Hh & _).
  unfold is_live_neighbor, live_at, passes_edges, in_board2.
  fold (col_of width cell) (col_of width (cell + (dr * width + dc))).
  destruct (cell_row_col width Hw cell) as [Hcell Hcol].
  pose proof (in_board_row width height Hw cell) as Hrow.
  pose proof (in_board_row width height Hw (cell + (dr * width + dc))) as Hnrow.
  destruct (candidate_row_col width Hw cell dr dc Hdc)
    as [(Hin & Hr & Hcl)|[(Hc0 & -> & Hr & Hcl)|(Hc0 & -> & Hr & Hcl)]];
    rewrite Hcl; rewrite Hr in Hnrow.
  - replace ((row_of width cell + dr) * width + (col_of width cell + dc))
      with (cell + (dr * width + dc)) by lia.
    f_equal.
    destruct (Z.leb_spec 0 (cell + (dr * width + dc)));
      destruct (Z.ltb_spec (cell + (dr * width + dc)) (width * height));
      destruct (Z.leb_spec 0 (row_of width cell + dr));
      destruct (Z.ltb_spec (row_of width cell + dr) height);
      destruct (Z.leb_spec 0 (col_of width cell + dc));
      destruct (Z.ltb_spec (col_of width cell + dc) width);
      destruct (Z.leb_spec (Z.abs (col_of width cell - (col_of width cell + dc))) 1);
      cbn; try done; lia.
  - destruct (Z.leb_spec (Z.abs (col_of width cell - (width - 1))) 1); [lia|].
    destruct (Z.leb_spec 0 (col_of width cell + -1)); [lia|].
    by rewrite !andb_false_r.
  - destruct (Z.leb_spec (Z.abs (col_of width cell - 0)) 1); [lia|].
    destruct (Z.ltb_spec (col_of width cell + 1) width); [lia|].
    by rewrite !andb_false_r.
Qed.

Lemma liveNeighbors_2d cell :
  0 <= cell < width * height ->
  liveNeighbors cell prev width height
  = foldr (fun s acc =>
             Z.b2z (live_at prev width height
                      (row_of width cell + s.1) (col_of width cell + s.2)) + acc)
      0 steps.
Proof using Hok Hw3.
  intros Hc. unfold liveNeighbors. rewrite length_filter_sum.
  rewrite spec_offsets_of_steps.
  assert (Forall (fun s : Z * Z => -1 <= s.1 <= 1 /\ -1 <= s.2 <= 1) steps) as Hsteps
    by (unfold steps; repeat constructor; cbn; lia).
  induction Hsteps as [|[dr dc] l [Hdr Hdc] _ IH]; [done|].
  cbn [fmap list_fmap foldr fst snd]. cbn [fmap] in IH. rewrite IH. f_equal.
  rewrite <- is_live_neighbor_2d by done.
  destruct (is_live_neighbor cell prev width height (dr * width + dc)) eqn:Hb.
  - by rewrite bool_decide_eq_true_2.
  - by rewrite bool_decide_eq_false_2 by congruence.
Qed.

End Count2D.

Lemma board2_length width height live :
  0 <= width * height -> Z.of_nat (length (board2 width height live)) = width * height.
Proof. intros HN. unfold board2. rewrite length_fmap, length_seqZ. lia. Qed.

Lemma cell_at_board2 width height live cell :
  0 <= cell < width * height ->
  cell_at (board2 width height live) cell
  = live (row_of width cell) (col_of width cell).
Proof.
  intros Hc. unfold cell_at, board2. rewrite load_lookup by lia.
  rewrite list_lookup_fmap, lookup_seqZ_lt by lia. cbn.
  by rewrite Z2Nat.id by lia.
Qed.

Lemma live_at_board2 width height live r c :
  0 < width ->
  live_at (board2 width height live) width height r c
  = in_board2 width height r c && live r c.
Proof.
  intros Hw. unfold live_at. destruct (in_board2 width height r c) eqn:Hin; [|done].
  cbn. unfold in_board2 in Hin.
  rewrite !andb_true_iff, !Z.leb_le, !Z.ltb_lt in Hin.
  destruct (divmod_at width r c) as [Hq Hm]; [lia|].
  replace (width * r + c) with (r * width + c) in * by lia.
  rewrite cell_at_board2 by nia. unfold row_of, col_of. by rewrite Hq, Hm.
Qed.

(** ** The blinker *)

(** On a board whose live cells are all on the board, the state of a
    position is the pattern's. *)
Lemma live_at_inside width height live r c :
  0 < width ->
  (live r c = true -> in_board2 width height r c = true) ->
  live_at (board2 width height live) width height r c = live r c.
Proof.
  intros Hw Hin. rewrite live_at_board2 by done.
  destruct (live r c); [by rewrite Hin|by rewrite andb_false_r].
Qed.

Lemma blinker_h_inside width height R C r c :
  0 <= R < height -> 1 <= C <= width - 2 ->
  blinker_h R C r c = true -> in_board2 width height r c = true.
Proof.
  unfold blinker_h, in_board2. intros HR HC.
  rewrite !andb_true_iff, Z.eqb_eq, !Z.leb_le, Z.ltb_lt, Z.ltb_lt. lia.
Qed.

Lemma blinker_v_inside width height R C r c :
  1 <= R <= height - 2 -> 0 <= C < width ->
  blinker_v R C r c = true -> in_board2 width height r c = true.
Proof.
  unfold blinker_v, in_board2. intros HR HC.
  rewrite !andb_true_iff, Z.eqb_eq, !Z.leb_le, Z.ltb_lt, Z.ltb_lt. lia.
Qed.

(** Settle every integer comparison of the goal from the hypotheses. *)
Ltac settle_comparisons :=
  repeat match goal with
    | |- context [?a =? ?b] =>
        first [ replace (a =? b) with true by (symmetry; apply Z.eqb_eq; lia)
              | replace (a =? b) with false by (symmetry; apply Z.eqb_neq; lia) ]
    | |- context [?a <=? ?b] =>
        first [ replace (a <=? b) with true by (symmetry; apply Z.leb_le; lia)
              | replace (a <=? b) with false by (symmetry; apply Z.leb_gt; lia) ]
    end.

(** Where a coordinate lies with respect to the centre of the pattern. *)
Lemma around (x X : Z) :
  x <= X - 3 \/ x = X - 2 \/ x = X - 1 \/ x = X \/ x = X + 1 \/ x = X + 2
  \/ X + 3 <= x.
Proof. lia. Qed.

Section Blinker.
Context (width height R C : Z).
Hypothesis Hok : board_ok width height.
Hypothesis Hw3 : 3 <= width.
Hypothesis HR : 1 <= R <= height - 2.
Hypothesis HC : 1 <= C <= width - 2.

Lemma blinker_h_next cell :
  0 <= cell < width * height ->
  nextState_spec cell (board2 width height (blinker_h R C)) width height
  = blinker_v R C (row_of width cell) (col_of width cell).
Proof using All.
  intros Hc. pose proof Hok as (Hw & Hh & _).
  unfold nextState_spec.
  rewrite liveNeighbors_2d by (done || apply board2_length; lia).
  rewrite cell_at_board2 by done.
  unfold steps. cbn [foldr fst snd].
  rewrite !live_at_inside by (done || apply blinker_h_inside; lia).
  generalize (row_of width cell) (col_of width cell). intros r c.
  unfold blinker_h, blinker_v.
  destruct (around r R) as [?|[?|[?|[?|[?|[?|?]]]]]];
    destruct (around c C) as [?|[?|[?|[?|[?|[?|?]]]]]];
    settle_comparisons; reflexivity.
Qed.

Lemma blinker_v_next cell :
  0 <= cell < width * height ->
  nextState_spec cell (board2 width height (blinker_v R C)) width height
  = blinker_h R C (row_of width cell) (col_of width cell).
Proof using All.
  intros Hc. pose proof Hok as (Hw & Hh & _).
  unfold nextState_spec.
  rewrite liveNeighbors_2d by (done || apply board2_length; lia).
  rewrite cell_at_board2 by done.
  unfold steps. cbn [foldr fst snd].
  rewrite !live_at_inside by (done || apply blinker_v_inside; lia).
  generalize (row_of width cell) (col_of width cell). intros r c.
  unfold blinker_h, blinker_v.
  destruct (around r R) as [?|[?|[?|[?|[?|[?|?]]]]]];
    destruct (around c C) as [?|[?|[?|[?|[?|[?|?]]]]]];
    settle_comparisons; reflexivity.
Qed.

End Blinker.

(** ** A whole generation *)

(** From the memories main starts with, one generation on any number of
    processes gives every cell its next state. *)
Lemma generation_spec width height world_size board :
  board_ok width height -> 1 <= world_size <= Int.INT_MAX ->
  Z.of_nat (length board) = width * height ->
  generation width height world_size board
  = Some ((fun j => nextState_spec j board width height)
            <$> seqZ 0 (width * height)).
Proof.
  intros Hok Hws Hlen.
  destruct (board_ok_cells _ _ Hok) as (HN & HNf & _).
  assert (1 <= width * height <= Int.INT_MAX) as HN1
    by (unfold Int.fits in HNf; lia).
  unfold generation. rewrite setup_proc_data_spec by done.
  cbn [mbind option_bind].
  destruct (partition_spec_start (width * height) world_size)
    as (Hs0 & Hse & Htab); [lia..|].
  set (me := {| pm_last := board; pm_new := calloc_bool (Int.mul width height) |}).
  assert (Z.of_nat (length (calloc_bool (Int.mul width height))) = width * height)
    as Hcalloc.
  { unfold calloc_bool. rewrite length_replicate, mul_fits by done. lia. }
  destruct (coordinator_iteration_spec width height world_size _ _ Hok
              ltac:(lia) Hs0 Hse Htab
              (initial_mems width height world_size board) me)
    as (new & mems' & -> & _ & Hl & Hcells & _).
  - unfold initial_mems. cbn [length]. rewrite length_replicate. lia.
  - unfold initial_mems. apply Forall_cons. split; [done|].
    by apply Forall_replicate.
  - done.
  - cbn. f_equal. apply load_ext.
    + rewrite length_fmap, length_seqZ. lia.
    + intros j. destruct (decide (0 <= j < width * height)) as [Hj|Hj].
      * rewrite Hcells by done. rewrite load_lookup by lia.
        rewrite list_lookup_fmap, lookup_seqZ_lt by lia. cbn.
        by rewrite Z2Nat.id by lia.
      * unfold load. destruct (Z.leb_spec 0 j); [|done].
        rewrite !lookup_ge_None_2; [done|..].
        -- rewrite length_fmap, length_seqZ. lia.
        -- lia.
Qed.

Lemma centered_inside size pos :
  5 <= size -> centered size pos -> 1 <= pos <= size - 2.
Proof.
  intros Hs [-> | ->].
  - pose proof (Z.div_mod size 2 ltac:(lia)).
    pose proof (Z.mod_pos_bound size 2 ltac:(lia)). lia.
  - pose proof (Z.div_mod (size - 1) 2 ltac:(lia)).
    pose proof (Z.mod_pos_bound (size - 1) 2 ltac:(lia)). lia.
Qed.

(** C5.  On every board of at least 5 x 5 cells that is dead except for
    three live cells in a row around the centre, one generation of the
    program (on any number of processes) gives the board that is dead
    except for the three cells in a column around the centre, a generation
    from that board gives the first one back, and so two generations in
    sequence are the identity on the pattern. *)
Theorem blinker_oscillates (width height world_size R C : Z) :
  board_ok width height -> 1 <= world_size <= Int.INT_MAX ->
  5 <= width -> 5 <= height ->
  centered height R -> centered width C ->
  let horizontal := board2 width height (blinker_h R C) in
  let vertical := board2 width height (blinker_v R C) in
  generation width height world_size horizontal = Some vertical
  /\ generation width height world_size vertical = Some horizontal
  /\ (generation width height world_size horizontal
        ≫= generation width height world_size) = Some horizontal.
Proof.
  intros Hok Hws Hw5 Hh5 HR%centered_inside HC%centered_inside; [|lia..].
  intros horizontal vertical.
  destruct (board_ok_cells _ _ Hok) as (HN & _).
  assert (generation width height world_size horizontal = Some vertical) as Hhv.
  { rewrite generation_spec by (done || apply board2_length; lia).
    f_equal. unfold vertical, board2. apply list_fmap_ext.
    intros i j [-> Hj]%lookup_seqZ.
    apply (blinker_h_next width height R C); [done|lia|done|done|lia]. }
  assert (generation width height world_size vertical = Some horizontal) as Hvh.
  { rewrite generation_spec by (done || apply board2_length; lia).
    f_equal. unfold horizontal, board2. apply list_fmap_ext.
    intros i j [-> Hj]%lookup_seqZ.
    apply (blinker_v_next width height R C); [done|lia|done|done|lia]. }
  split; [done|]. split; [done|]. rewrite Hhv. exact Hvh.
Qed.

Lemma blinker_oscillates_witness :
  generation 5 5 3 (board2 5 5 (blinker_h 2 2)) = Some (board2 5 5 (blinker_v 2 2))
  /\ generation 5 5 3 (board2 5 5 (blinker_v 2 2)) = Some (board2 5 5 (blinker_h 2 2)).
Proof.
  destruct (blinker_oscillates 5 5 3 2 2) as (Hhv & Hvh & _).
  - unfold board_ok, Int.INT_MAX. lia.
  - unfold Int.INT_MAX. lia.
  - lia.
  - lia.
  - left. reflexivity.
  - left. reflexivity.
  - split; [exact Hhv | exact Hvh].
Defined.

(** ** fill_game_field *)

Lemma count_true_app a b : count_true (a ++ b) = count_true a + count_true b.
Proof. unfold count_true. rewrite filter_app, length_app. lia. Qed.

Lemma count_true_replicate_false n : count_true (replicate n false) = 0.
Proof.
  induction n as [|n IH]; [done|]. unfold count_true in *. cbn [replicate].
  rewrite filter_cons, decide_False by done. exact IH.
Qed.

Lemma count_true_replicate_true n : count_true (replicate n true) = Z.of_nat n.
Proof.
  induction n as [|n IH]; [done|]. unfold count_true in *. cbn [replicate].
  rewrite filter_cons, decide_True by done. cbn [length]. lia.
Qed.

(** Storing to the first cell of the untouched rest of the field. *)
Lemma store_next (pre : list bool) (n : nat) b :
  store (pre ++ replicate (S n) false) (Z.of_nat (length pre)) b
  = Some ((pre ++ [b]) ++ replicate n false).
Proof.
  rewrite store_Some by (rewrite length_app, length_replicate; lia).
  f_equal. rewrite Nat2Z.id. rewrite insert_app_r_alt by lia.
  rewrite Nat.sub_diag. cbn. by rewrite <- app_assoc.
Qed.

Section Fill.
Context (rand : nat -> Z) (width height live_cells : Z).
Hypothesis Hw : 0 < width.
Hypothesis Hh : 0 < height.
Hypothesis HN : width * height <= Int.INT_MAX.
Hypothesis Hlive : 0 <= live_cells <= Int.INT_MAX.

(** Fewer live cells than cells: exactly [live_cells] cells are filled,
    whatever [rand] returns. *)
Lemma fillRandom_fewer :
  live_cells < width * height ->
  exists f, fillRandom rand width height live_cells = Some f
    /\ Z.of_nat (length f) = width * height
    /\ count_true f = live_cells.
Proof using All.
  intros Hlt. unfold fillRandom, fill_game_field.
  assert (0 < width * height) as HNpos by nia.
  unfold Int.INT_MAX in *.
  rewrite !mul_fits by (unfold Int.fits, Int.INT_MIN, Int.INT_MAX; lia).
  set (N := width * height) in *.
  match goal with
  | |- context [for_range ?lo ?hi ?body ?s] =>
      destruct (for_range_inv
        (fun i (st : FillState) =>
           exists pre, field st = pre ++ replicate (Z.to_nat (N - i)) false
             /\ Z.of_nat (length pre) = i
             /\ count_true pre + cells_to_generate st = live_cells
             /\ 0 <= cells_to_generate st
             /\ (0 < cells_to_generate st -> cells_to_generate st <= N - i - 1))
        body lo hi s) as (st & -> & pre & Hf & Hpl & Hcount & Hc0 & Hc1)
  end.
  - lia.
  - exists []. cbn. rewrite Z.sub_0_r. split_and!; try done; lia.
  - intros i st Hi (pre & Hf & Hpl & Hcount & Hc0 & Hc1).
    assert (Z.to_nat (N - i) = S (Z.to_nat (N - (i + 1)))) as Hrest by lia.
    assert (forall calls, exists st',
              fill_cell st i calls = Some st'
              /\ field st' = (pre ++ [true]) ++ replicate (Z.to_nat (N - (i + 1))) false
              /\ cells_to_generate st' = Int.sub (cells_to_generate st) 1) as Hfill.
    { intros calls. unfold fill_cell. rewrite Hf, Hrest, <- Hpl, store_next. cbn.
      eexists. split; [done|]. done. }
    destruct (Z.ltb_spec 0 (cells_to_generate st)) as [Hpos|Hzero].
    + rewrite add_fits, sub_fits by (unfold Int.fits, Int.INT_MIN, Int.INT_MAX; lia).
      specialize (Hc1 Hpos).
      assert (Int.sub (cells_to_generate st) 1 = cells_to_generate st - 1) as Hsub
        by (apply sub_fits; unfold Int.fits, Int.INT_MIN, Int.INT_MAX; lia).
      assert (forall st', field st' = (pre ++ [true]) ++ replicate (Z.to_nat (N - (i + 1))) false ->
                cells_to_generate st' = Int.sub (cells_to_generate st) 1 ->
                exists pre', field st' = pre' ++ replicate (Z.to_nat (N - (i + 1))) false
                  /\ Z.of_nat (length pre') = i + 1
                  /\ count_true pre' + cells_to_generate st' = live_cells
                  /\ 0 <= cells_to_generate st'
                  /\ (0 < cells_to_generate st' -> cells_to_generate st' <= N - (i + 1) - 1))
        as Hfilled.
      { intros st' Hf' Hc'. exists (pre ++ [true]). rewrite Hc', Hsub.
        rewrite count_true_app, length_app. change (count_true [true]) with 1.
        cbn [length]. split_and!; try done; lia. }
      destruct (Z.eqb_spec (N - (i + 1)) (cells_to_generate st)) as [Heq|Hne].
      * destruct (Hfill (rand_calls st)) as (st' & -> & Hf' & Hc').
        exists st'. split; [done|]. by apply Hfilled.
      * destruct (Z.ltb_spec (Int.rem (rand (rand_calls st)) N) live_cells).
        -- destruct (Hfill (S (rand_calls st))) as (st' & -> & Hf' & Hc').
           exists st'. split; [done|]. by apply Hfilled.
        -- eexists. split; [done|]. cbn. exists (pre ++ [false]).
           rewrite Hf, Hrest, count_true_app, length_app.
           change (count_true [false]) with 0. cbn [length replicate field cells_to_generate].
           rewrite <- app_assoc. split_and!; try done; lia.
    + exists st. split; [done|]. exists (pre ++ [false]).
      rewrite Hf, Hrest, count_true_app, length_app.
      change (count_true [false]) with 0. cbn [length replicate].
      rewrite <- app_assoc. split_and!; try done; lia.
  - cbn. exists (field st). split; [done|].
    replace (Z.to_nat (N - N)) with 0%nat in Hf by lia. cbn in Hf.
    rewrite app_nil_r in Hf. rewrite Hf. split; [done|]. lia.
Qed.

(** At least as many live cells as cells: every cell is filled. *)
Lemma fillRandom_all :
  width * height <= live_cells ->
  fillRandom rand width height live_cells
  = Some (replicate (Z.to_nat (width * height)) true).
Proof using All.
  intros Hge. unfold fillRandom, fill_game_field.
  assert (0 < width * height) as HNpos by nia.
  unfold Int.INT_MAX in *.
  rewrite !mul_fits by (unfold Int.fits, Int.INT_MIN, Int.INT_MAX; lia).
  set (N := width * height) in *.
  match goal with
  | |- context [for_range ?lo ?hi ?body ?s] =>
      destruct (for_range_inv
        (fun i (st : FillState) =>
           field st = replicate (Z.to_nat i) true ++ replicate (Z.to_nat (N - i)) false
           /\ cells_to_generate st = live_cells - i)
        body lo hi s) as (st & -> & Hf & Hc)
  end.
  - lia.
  - cbn. rewrite Z.sub_0_r. split; [done|lia].
  - intros i st Hi [Hf Hc].
    assert (Z.to_nat (N - i) = S (Z.to_nat (N - (i + 1)))) as Hrest by lia.
    destruct (Z.ltb_spec 0 (cells_to_generate st)); [|lia].
    rewrite add_fits, sub_fits by (unfold Int.fits, Int.INT_MIN, Int.INT_MAX; lia).
    destruct (Z.eqb_spec (N - (i + 1)) (cells_to_generate st)); [lia|].
    pose proof (Z.rem_bound_abs (rand (rand_calls st)) N ltac:(lia)).
    unfold Int.rem.
    destruct (Z.ltb_spec (Z.rem (rand (rand_calls st)) N) live_cells); [|lia].
    pose proof (store_next (replicate (Z.to_nat i) true)
                  (Z.to_nat (N - (i + 1))) true) as Hst.
    rewrite length_replicate, Z2Nat.id in Hst by lia.
    unfold fill_cell. rewrite Hf, Hrest, Hst.
    cbn. eexists. split; [done|]. cbn. split.
    + replace (Z.to_nat (i + 1)) with (Z.to_nat i + 1)%nat by lia.
      by rewrite replicate_add.
    + rewrite sub_fits by (unfold Int.fits, Int.INT_MIN, Int.INT_MAX; lia). lia.
  - cbn. f_equal. rewrite Hf.
    replace (Z.to_nat (N - N)) with 0%nat by lia. cbn. by rewrite app_nil_r.
Qed.

End Fill.

(** C7.  For every positive width and height, every live-cell count
    [live_cells >= 0] and every sequence of results of [rand ()],
    [fill_game_field] on the freshly allocated field terminates with
    exactly [live_cells] live cells when [live_cells <= width*height], and
    with all [width*height] cells live when [live_cells >= width*height]. *)
Theorem fillRandom_live_cells (rand : nat -> Z) (width height live_cells : Z) :
  0 < width -> 0 < height -> width * height <= Int.INT_MAX ->
  0 <= live_cells <= Int.INT_MAX ->
  exists f, fillRandom rand width height live_cells = Some f
    /\ Z.of_nat (length f) = width * height
    /\ (live_cells <= width * height -> count_true f = live_cells)
    /\ (width * height <= live_cells ->
        forall i, 0 <= i < width * height -> load f i = Some true).
Proof.
  intros Hw Hh HN Hlive.
  assert (0 < width * height) as HNpos by nia.
  destruct (Z_lt_le_dec live_cells (width * height)) as [Hlt|Hge].
  - destruct (fillRandom_fewer rand width height live_cells)
      as (f & Hrun & Hlen & Hcount); try done.
    exists f. split_and!; try done. lia.
  - exists (replicate (Z.to_nat (width * height)) true).
    split; [by apply fillRandom_all|]. rewrite length_replicate.
    split_and!.
    + lia.
    + intros Hle. rewrite count_true_replicate_true. lia.
    + intros _ i Hi. rewrite load_lookup by lia.
      apply lookup_replicate_2. lia.
Qed.

Lemma fillRandom_live_cells_witness :
  exists f, fillRandom (fun k => 7 * Z.of_nat k + 3) 4 3 5 = Some f
    /\ count_true f = 5.
Proof.
  destruct (fillRandom_live_cells (fun k => 7 * Z.of_nat k + 3) 4 3 5)
    as (f & Hrun & _ & Hcount & _).
  - lia.
  - lia.
  - unfold Int.INT_MAX. lia.
  - unfold Int.INT_MAX. lia.
  - exists f. split; [exact Hrun|]. apply Hcount. lia.
Defined.

(** ** read_args and the start of main *)

(** C8, as amended.  A wrong argument count is the one configuration
    error [read_args] detects: rank 0 writes the usage message once and
    aborts the whole job with status 1, before the board is filled, any
    generation computed or anything printed, and no other rank writes a
    message.  With six arguments [read_args] returns the five parsed
    values as they are, on every rank and whatever their sign. *)
Theorem read_args_checks_arity_only (argc : Z) (argv : list string)
    (argv0 : string) :
  load argv 0 = Some argv0 ->
  (argc <> 6 ->
   read_args argc argv 0 = Some ([usage argv0], Aborted 1)
   /\ (forall rand world_size,
         main_rank0 rand argc argv world_size
         = Some {| stderr := [usage argv0]; stdout := []; status := 1;
                   generations := 0 |})
   /\ (forall proc_id err o, proc_id <> 0 ->
         read_args argc argv proc_id = Some (err, o) -> err = []))
  /\ (argc = 6 ->
      forall proc_id a1 a2 a3 a4 a5,
        argv = [argv0; a1; a2; a3; a4; a5] ->
        read_args argc argv proc_id
        = Some ([], Returned {| live_cells := int_of_long (strtol a1);
                                iterations := int_of_long (strtol a2);
                                print_modulo := int_of_long (strtol a3);
                                width := int_of_long (strtol a4);
                                height := int_of_long (strtol a5) |})).
Proof.
  intros Hargv0. split.
  - intros Hargc.
    assert (read_args argc argv 0 = Some ([usage argv0], Aborted 1)) as Hread.
    { unfold read_args. destruct (Z.eqb_spec argc 6); [done|].
      change (0 =? 0) with true. cbn [negb andb]. by rewrite Hargv0. }
    split; [done|]. split.
    + intros rand world_size. unfold main_rank0. by rewrite Hread.
    + intros proc_id err o Hproc. unfold read_args.
      destruct (Z.eqb_spec proc_id 0); [done|]. rewrite andb_false_r.
      destruct (load argv 1); [|done]. destruct (load argv 2); [|done].
      destruct (load argv 3); [|done]. destruct (load argv 4); [|done].
      destruct (load argv 5); [|done]. cbn. by intros [= <- _].
  - intros -> proc_id a1 a2 a3 a4 a5 ->. reflexivity.
Qed.

Lemma read_args_checks_arity_only_witness :
  read_args 3 ["life"; "10"; "4"]%string 0
  = Some ([usage "life"], Aborted 1).
Proof.
  destruct (read_args_checks_arity_only 3 ["life"; "10"; "4"]%string "life")
    as [Harity _].
  - reflexivity.
  - destruct Harity as [Hread _]; [lia | exact Hread].
Defined.

(** C8 as stated fails: a run with width 0 (six arguments) is not
    reported; [read_args] returns, the exit status is 0, two iterations of
    the loop run and both print. *)
Lemma zero_width_is_not_reported :
  (exists a, read_args 6 ["life"; "3"; "1"; "1"; "0"; "5"]%string 0
             = Some ([], Returned a)
             /\ non_positive_config a)
  /\ ~ reports_and_aborts 6 ["life"; "3"; "1"; "1"; "0"; "5"]%string
  /\ main_rank0 (fun _ => 0) 6 ["life"; "3"; "1"; "1"; "0"; "5"]%string 2
     = Some {| stderr := []; stdout := [(0, []); (1, [])]; status := 0;
               generations := 2 |}.
Proof.
  split; [|split].
  - eexists. split; [reflexivity|]. left. vm_compute. discriminate.
  - intros (msg & code & Hread & _). vm_compute in Hread. discriminate Hread.
  - vm_compute. reflexivity.
Qed.

(** ** The processes side by side: control *)

Section Control.
Context (a : Args) (world_size : Z) (proc_data : list ProcInfo)
        (board : list bool).
Hypothesis Hws : 1 <= world_size.

Local Abbreviation step := (step a world_size proc_data).
Local Abbreviation reachable := (reachable a world_size proc_data board).

(** A step of [r] that stays in its iteration and does not take [r] out of
    the barrier keeps the ranks separated. *)
Lemma separated_local P r p' :
  separated world_size P ->
  iteration p' = iteration (P r) ->
  (pc (P r) = InBarrier -> pc p' = InBarrier) ->
  separated world_size (<[r := p']> P).
Proof using Type.
  intros Hsep Hiter Hpc p q Hp Hq.
  destruct (decide (r = p)) as [<-|Hnp], (decide (r = q)) as [<-|Hnq];
    rewrite ?fn_lookup_insert, ?(fn_lookup_insert_ne P r) by done.
  - lia.
  - rewrite Hiter. by apply Hsep.
  - rewrite Hiter. intros Hlt. destruct (Hsep p r Hp Hq Hlt) as [-> Hb]. auto.
  - by apply Hsep.
Qed.

(** Leaving the barrier once every rank has entered it keeps the ranks
    separated. *)
Lemma separated_leave (s : World) r c' :
  separated world_size (procs s) ->
  0 <= r < world_size ->
  pc (procs s r) = InBarrier ->
  (forall q, 0 <= q < world_size -> entered s (iteration (procs s r)) q) ->
  separated world_size
    (<[r := {| pc := c'; iteration := iteration (procs s r) + 1;
               mem := mem (procs s r); computed := computed (procs s r);
               merged := merged (procs s r) |}]> (procs s)).
Proof using Type.
  intros Hsep Hr Hpc Hall p q Hp Hq.
  destruct (decide (r = p)) as [<-|Hnp], (decide (r = q)) as [<-|Hnq];
    rewrite ?fn_lookup_insert, ?(fn_lookup_insert_ne (procs s) r) by done;
    cbn [iteration pc].
  - lia.
  - intros Hlt. destruct (Hall q Hq) as [Hgt|[Heq Hb]]; [lia|]. split; [lia|done].
  - intros Hlt. assert (iteration (procs s r) < iteration (procs s p)) as Hlt' by lia.
    destruct (Hsep p r Hp Hq Hlt') as [Heq _]. lia.
  - by apply Hsep.
Qed.

Lemma counted_local P r p' :
  counted a world_size P ->
  0 <= iteration p' ->
  computed p' = iteration p' + after_compute (pc p') ->
  (pc p' = Finished <-> ~ iteration p' < Int.add (iterations a) 1) ->
  (r = 0 ->
   merged p' = iteration p' * (world_size - 1) + merged_now world_size (pc p')
   /\ forall k, pc p' = SendWorld k \/ pc p' = RecvPart k -> 1 <= k <= world_size) ->
  counted a world_size (<[r := p']> P).
Proof using Type.
  intros (Hc & Hm & Hk) Hi Hcomp Hfin Hzero. split_and!.
  - intros p Hp. destruct (decide (r = p)) as [<-|Hnp];
      rewrite ?fn_lookup_insert, ?(fn_lookup_insert_ne P r) by done; auto.
  - destruct (decide (r = 0)) as [->|Hn0];
      rewrite ?fn_lookup_insert, ?(fn_lookup_insert_ne P r) by done; [|done].
    by apply Hzero.
  - intros k. destruct (decide (r = 0)) as [->|Hn0];
      rewrite ?fn_lookup_insert, ?(fn_lookup_insert_ne P r) by done; [|apply Hk].
    by apply Hzero.
Qed.

Lemma loop_head_cases r g :
  (loop_head a r g = Finished /\ ~ g < Int.add (iterations a) 1)
  \/ (g < Int.add (iterations a) 1
      /\ ((r = 0 /\ loop_head a r g = SendWorld 1)
          \/ (r <> 0 /\ loop_head a r g = RecvWorld))).
Proof using Type.
  unfold loop_head.
  destruct (Z.ltb_spec g (Int.add (iterations a) 1)); [|left; split; [done|lia]].
  right. split; [done|]. destruct (Z.eqb_spec r 0); [left|right]; done.
Qed.

Lemma not_finished_lt (c : Pc) g :
  (c = Finished <-> ~ g < Int.add (iterations a) 1) -> c <> Finished ->
  g < Int.add (iterations a) 1.
Proof using Type. intros [_ H] Hc. destruct (Z_lt_dec g (Int.add (iterations a) 1)); tauto. Qed.

Lemma finished_iff_other (c : Pc) g :
  g < Int.add (iterations a) 1 -> c <> Finished ->
  (c = Finished <-> ~ g < Int.add (iterations a) 1).
Proof using Type. tauto. Qed.

Lemma control_initial :
  separated world_size (procs (initial_world a board))
  /\ counted a world_size (procs (initial_world a board)).
Proof using Hws.
  unfold initial_world. cbn [procs]. split.
  - intros p q _ _. cbn [iteration]. lia.
  - split_and!.
    + intros p _. cbn [iteration pc computed].
      destruct (loop_head_cases p 0) as [[-> ?]|[? [[_ ->]|[_ ->]]]]; cbn;
        (split_and!; [lia | lia | split; [done || lia | done]]).
    + cbn [iteration pc merged].
      destruct (loop_head_cases 0 0) as [[-> _]|[_ [[_ ->]|[_ ->]]]]; cbn; lia.
    + intros k. cbn [pc].
      destruct (loop_head_cases 0 0) as [[-> _]|[_ [[_ ->]|[? _]]]]; [| |done];
        intros [[=]|[=]]. lia.
Qed.

Lemma control_step s s' :
  step s s' ->
  separated world_size (procs s) /\ counted a world_size (procs s) ->
  separated world_size (procs s') /\ counted a world_size (procs s').
Proof using Hws.
  intros Hstep [Hsep Hcnt].
  pose proof Hcnt as (Hc & Hm & Hk).
  destruct Hstep as
    [s c k msg Hc0 Hpc Hlt Hsend
    |s c k Hc0 Hpc Hge
    |s c new Hc0 Hpc Hrun
    |s c k msg rest pd new Hc0 Hpc Hlt Hq Hpd Hrecv
    |s c k Hc0 Hpc Hge
    |s c Hc0 Hpc
    |s r p msg rest last Hr Hp Hpc Hq Hrecv
    |s r p new Hr Hp Hpc Hrun
    |s r p pd msg Hr Hp Hpc Hpd Hsend
    |s r p Hr Hp Hpc Hall];
    cbn [procs]; subst;
    match goal with
    | H : pc (procs s ?r) = _ |- _ =>
        pose proof (Hc r ltac:(lia)) as (Hi & Hcomp & Hfin)
    end;
    try match goal with
      | H : pc _ = SendWorld ?k |- _ => pose proof (Hk k (or_introl H)) as Hkk
      | H : pc _ = RecvPart ?k |- _ => pose proof (Hk k (or_intror H)) as Hkk
      end;
    rewrite Hpc in *.
  1-9: apply not_finished_lt in Hfin; [|discriminate];
    split;
    [apply separated_local; cbn; [done..|congruence]
    |apply counted_local;
       [done | cbn in *; lia | cbn in *; lia
       | apply finished_iff_other; [cbn; lia | cbn; discriminate]
       | intros ?; cbn in *; split;
         [lia | intros ? [[=]|[=]]; subst; lia]]].
  split; [by apply separated_leave|].
  apply counted_local; cbn [pc iteration computed merged]; [done|lia| | |].
  - destruct (loop_head_cases r (iteration (procs s r) + 1))
      as [[-> _]|[_ [[_ ->]|[_ ->]]]]; cbn in *; lia.
  - destruct (loop_head_cases r (iteration (procs s r) + 1))
      as [[-> ?]|[? [[_ ->]|[_ ->]]]]; (split; [done || lia | done]).
  - intros ->. rewrite Hm, Hpc.
    destruct (loop_head_cases 0 (iteration (procs s 0) + 1))
      as [[-> _]|[_ [[_ ->]|[? _]]]]; [| |done]; cbn.
    + split; [lia|]. intros k' [[=]|[=]].
    + split; [lia|]. intros k' [[= <-]|[=]]. lia.
Qed.

Lemma control_reachable s :
  reachable s ->
  separated world_size (procs s) /\ counted a world_size (procs s).
Proof using Hws.
  induction 1 as [|s s' _ IH Hstep]; [apply control_initial|].
  by apply (control_step s s').
Qed.

End Control.

(** ** The processes side by side: data *)

Lemma next_board_length width height prev :
  0 <= width * height ->
  Z.of_nat (length (next_board width height prev)) = width * height.
Proof. intros HN. unfold next_board. rewrite length_fmap, length_seqZ. lia. Qed.

Lemma load_next_board width height prev j :
  0 <= j < width * height ->
  load (next_board width height prev) j
  = Some (nextState_spec j prev width height).
Proof.
  intros Hj. unfold next_board. rewrite load_lookup by lia.
  rewrite list_lookup_fmap, lookup_seqZ_lt by lia. cbn. by rewrite Z2Nat.id by lia.
Qed.

Lemma board_at_succ width height board g :
  0 <= g ->
  board_at width height board (g + 1)
  = next_board width height (board_at width height board g).
Proof.
  intros Hg. unfold board_at.
  replace (Z.to_nat (g + 1)) with (S (Z.to_nat g)) by lia. done.
Qed.

Lemma board_at_length width height board g :
  0 <= width * height ->
  Z.of_nat (length board) = width * height ->
  Z.of_nat (length (board_at width height board g)) = width * height.
Proof.
  intros HN Hb. unfold board_at. destruct (Z.to_nat g) as [|n]; [done|].
  cbn [Nat.iter]. by apply next_board_length.
Qed.

Lemma part_start_table total n :
  1 <= total -> 1 <= n ->
  part_start total n 0 = 0 /\ part_start total n n = total
  /\ forall i, 0 <= i < n ->
       part_start total n i <= part_start total n (i + 1)
       /\ load (partition_spec total n) i
          = Some {| offset := part_start total n i;
                    num_cells := part_start total n (i + 1) - part_start total n i |}.
Proof. apply partition_spec_start. Qed.

Lemma part_start_bounds total n i :
  1 <= total -> 1 <= n -> 0 <= i <= n -> 0 <= part_start total n i <= total.
Proof.
  intros Ht Hn Hi. unfold part_start. case_decide; [lia|].
  assert (0 <= total / n) by (apply Z.div_pos; lia).
  pose proof (Z.div_mod total n ltac:(lia)).
  pose proof (Z.mod_pos_bound total n ltac:(lia)). nia.
Qed.

(** Receiving a whole board replaces the buffer. *)
Lemma mpi_recv_whole buf msg n last :
  Z.of_nat (length buf) = n -> Z.of_nat (length msg) = n ->
  mpi_recv (fresh buf) 0 n msg = Some last -> cells last = msg.
Proof.
  intros Hb Hm Hrecv.
  destruct (mpi_recv_spec (fresh buf) 0 n msg) as (m' & Hr & _ & Hl & Hin & _);
    [lia | done | cbn; lia |].
  rewrite Hrecv in Hr. injection Hr as <-. cbn in Hl.
  apply list_eq. intros k. destruct (decide (k < length msg)%nat) as [Hk|Hk].
  - rewrite <- Hin by done. rewrite load_lookup by lia. f_equal. lia.
  - rewrite !lookup_ge_None_2 by lia. done.
Qed.

Lemma agree_on_eq x y :
  length x = length y -> agree_on 0 (Z.of_nat (length x)) x y -> x = y.
Proof.
  intros Hlen Hag. apply load_ext; [done|]. intros j.
  destruct (decide (0 <= j < Z.of_nat (length x))) as [Hj|Hj]; [by apply Hag|].
  unfold load. destruct (Z.leb_spec 0 j); [|done].
  rewrite !lookup_ge_None_2 by lia. done.
Qed.

Section Data.
Context (a : Args) (world_size : Z) (board : list bool).
Hypothesis Hok : board_ok (width a) (height a).
Hypothesis Hws : 1 <= world_size <= Int.INT_MAX.
Hypothesis Hboard : Z.of_nat (length board) = width a * height a.

Local Abbreviation total := (width a * height a).
Local Abbreviation proc_data := (partition_spec (width a * height a) world_size).
Local Abbreviation B := (board_at (width a) (height a) board).
Local Abbreviation start := (part_start (width a * height a) world_size).
Local Abbreviation run_step := (step a world_size proc_data).
Local Abbreviation inv := (holds a world_size board).
Local Abbreviation worker_ok := (worker_inv a world_size board).
Local Abbreviation coord_ok := (coord_inv a world_size board).

Lemma total_pos : 1 <= total /\ Int.mul (width a) (height a) = total.
Proof.
  destruct (board_ok_cells _ _ Hok) as (HN & HNf & _).
  split; [lia|by apply mul_fits].
Qed.

Lemma B_length g : Z.of_nat (length (B g)) = total.
Proof.
  destruct total_pos. apply board_at_length; [lia|done].
Qed.

Lemma proc_data_load r :
  0 <= r < world_size ->
  load proc_data r
  = Some {| offset := start r; num_cells := start (r + 1) - start r |}
  /\ 0 <= start r <= start (r + 1) /\ start (r + 1) <= total.
Proof.
  intros Hr. destruct total_pos as [Ht _].
  destruct (part_start_table total world_size) as (_ & _ & Htab); [lia..|].
  destruct (Htab r Hr) as [Hle Hload].
  pose proof (part_start_bounds total world_size r ltac:(lia) ltac:(lia) ltac:(lia)).
  pose proof (part_start_bounds total world_size (r + 1) ltac:(lia) ltac:(lia) ltac:(lia)).
  split; [done|lia].
Qed.

(** What [apply_rules] leaves in the partition of [r], from the board of
    iteration [g]. *)
Lemma apply_rules_part r g new_cells new :
  0 <= r < world_size -> 0 <= g ->
  Z.of_nat (length new_cells) = total ->
  apply_rules proc_data (B g) (fresh new_cells) r
    (adjacency_offsets (width a)) (width a) (height a) = Some new ->
  Z.of_nat (length (cells new)) = total
  /\ agree_on (start r) (start (r + 1)) (cells new) (B (g + 1)).
Proof.
  intros Hr Hg Hlen Hrun.
  destruct (proc_data_load r Hr) as (Hload & Hs0 & Hs1).
  destruct (apply_rules_spec proc_data (B g) (fresh new_cells) r
              (width a) (height a) _ Hok (B_length g) Hlen Hload)
    as (new' & Hrun' & _ & Hl & Hin & _); cbn [offset num_cells]; [lia..|].
  rewrite Hrun in Hrun'. injection Hrun' as <-. cbn [fresh cells] in Hl.
  split; [lia|]. intros j Hj.
  rewrite Hin by (unfold owns; cbn; lia).
  rewrite board_at_succ, load_next_board by lia. done.
Qed.

(** A step of rank 0 that stays in its iteration.  *)
Lemma worker_inv_coord r (c c' w : Proc) qw qc :
  iteration c' = iteration c ->
  sent world_size (pc c') r = sent world_size (pc c) r ->
  got world_size (pc c') r = got world_size (pc c) r ->
  worker_ok r c w qw qc -> worker_ok r c' w qw qc.
Proof.
  intros Hi Hs Hg. unfold worker_inv.
  by rewrite Hi, Hs, Hg.
Qed.

Lemma holds_coord_step (s : World) c' qw' qc' :
  inv s -> coord_ok c' ->
  (forall r, 0 < r < world_size ->
     worker_ok r (procs s 0) (procs s r) (to_worker s r) (to_coord s r) ->
     worker_ok r c' (procs s r) (qw' r) (qc' r)) ->
  inv {| procs := <[0 := c']> (procs s); to_worker := qw'; to_coord := qc' |}.
Proof.
  intros [Hc Hw] Hc' Hw'. split; cbn [procs to_worker to_coord].
  - by rewrite fn_lookup_insert.
  - intros r Hr. rewrite fn_lookup_insert, fn_lookup_insert_ne by lia. auto.
Qed.

Lemma holds_worker_step (s : World) r w' qw' qc' :
  inv s -> 0 < r < world_size ->
  (forall r', r' <> r -> qw' r' = to_worker s r' /\ qc' r' = to_coord s r') ->
  worker_ok r (procs s 0) w' (qw' r) (qc' r) ->
  inv {| procs := <[r := w']> (procs s); to_worker := qw'; to_coord := qc' |}.
Proof.
  intros [Hc Hw] Hr Hq Hw'. split; cbn [procs to_worker to_coord].
  - by rewrite fn_lookup_insert_ne by lia.
  - intros r' Hr'. rewrite (fn_lookup_insert_ne _ r 0) by lia.
    destruct (decide (r = r')) as [<-|Hne].
    + by rewrite fn_lookup_insert.
    + rewrite fn_lookup_insert_ne by done.
      destruct (Hq r' ltac:(done)) as [-> ->]. auto.
Qed.

(** Evaluate [sent] and [got] at the control points in sight. *)
Ltac prog :=
  unfold sent, got, progress in *; cbn [pc at_pc] in *;
  try (exfalso; lia);
  repeat match goal with
    | |- context [?x <? ?y] => destruct (Z.ltb_spec x y)
    end;
  try (exfalso; lia);
  repeat match goal with
    | H : context [?x <? ?y] |- _ =>
        first [ rewrite (proj2 (Z.ltb_lt x y)) in H by lia
              | rewrite (proj2 (Z.ltb_ge x y)) in H by lia ]
    end;
  try done.

Ltac fin H :=
  decompose [and] H; prog;
  repeat match goal with
    | H : to_worker _ _ = _ |- _ => rewrite H
    | H : to_coord _ _ = _ |- _ => rewrite H
    end;
  try done; split_and?; try done.

Section Steps.
Context (s : World).
Hypothesis Hsep : separated world_size (procs s).
Hypothesis Hcnt : counted a world_size (procs s).
Hypothesis Hinv : inv s.

(** Rank 0 is not ahead of a worker unless the worker is in the barrier,
    and the other way round. *)
Lemma worker_ahead r :
  0 < r < world_size ->
  iteration (procs s r) = iteration (procs s 0) + 1 ->
  pc (procs s 0) = InBarrier.
Proof.
  intros Hr Heq. destruct (Hsep r 0) as [_ Hb]; [lia..|done].
Qed.

Lemma worker_behind r :
  0 < r < world_size ->
  iteration (procs s r) + 1 = iteration (procs s 0) ->
  pc (procs s r) = InBarrier.
Proof.
  intros Hr Heq. destruct (Hsep 0 r) as [_ Hb]; [lia..|done].
Qed.

Lemma iteration_near r :
  0 < r < world_size ->
  iteration (procs s r) = iteration (procs s 0)
  \/ iteration (procs s r) = iteration (procs s 0) + 1
  \/ iteration (procs s r) + 1 = iteration (procs s 0).
Proof.
  intros Hr.
  destruct (Z_lt_le_dec (iteration (procs s 0)) (iteration (procs s r))) as [Hlt|Hle].
  - destruct (Hsep r 0) as [Heq _]; [lia..|]. lia.
  - destruct (Z_lt_le_dec (iteration (procs s r)) (iteration (procs s 0))) as [Hlt|Hle'].
    + destruct (Hsep 0 r) as [Heq _]; [lia..|]. lia.
    + lia.
Qed.

(** Two ranks in the same iteration have both left the loop or neither. *)
Lemma finished_together p q :
  0 <= p < world_size -> 0 <= q < world_size ->
  iteration (procs s p) = iteration (procs s q) ->
  pc (procs s p) = Finished -> pc (procs s q) = Finished.
Proof.
  intros Hp Hq Heq Hfin. destruct Hcnt as (Hc & _).
  destruct (Hc p Hp) as (_ & _ & Hfp). destruct (Hc q Hq) as (_ & _ & Hfq).
  apply Hfq. rewrite <- Heq. by apply Hfp.
Qed.

Lemma holds_send_world k msg :
  pc (procs s 0) = SendWorld k -> k < world_size ->
  mpi_send (pm_last (mem (procs s 0))) 0 (Int.mul (width a) (height a)) = Some msg ->
  inv {| procs := <[0 := at_pc (procs s 0) (SendWorld (k + 1))]> (procs s);
           to_worker := <[k := to_worker s k ++ [msg]]> (to_worker s);
           to_coord := to_coord s |}.
Proof.
  intros Hpc Hlt Hsend. destruct total_pos as [Ht Hmul].
  pose proof Hinv as [Hci Hwi].
  destruct Hci as [[Hll Hln] Hci]. rewrite Hpc in Hci.
  rewrite Hmul, mpi_send_whole in Hsend by done. injection Hsend as <-.
  destruct Hcnt as (_ & _ & Hk). pose proof (Hk k (or_introl Hpc)) as Hkk.
  apply holds_coord_step; [done| |].
  - split; [done|]. cbn. done.
  - intros r Hr Hw. destruct (decide (k = r)) as [->|Hne].
    + rewrite fn_lookup_insert.
      destruct Hw as (Hsz & H1 & H2 & H3). split_and!; [done|..].
      * intros Heq. cbn in Heq. apply worker_ahead in Heq; [congruence|done].
      * intros Heq. specialize (H2 Heq). rewrite Hpc in H2.
        cbn [pc at_pc iteration]. rewrite <- Hci. fin H2.
      * intros Heq. specialize (H3 Heq). rewrite Hpc in H3.
        cbn [pc at_pc iteration]. rewrite <- Hci.
        destruct (pc (procs s r)) eqn:Hpr; try done.
        -- fin H3.
        -- fin H3.
        -- fin H3.
        -- fin H3.
        -- apply (finished_together r 0) in Hpr; [congruence|lia..|done].
    + rewrite fn_lookup_insert_ne by done.
      revert Hw. apply worker_inv_coord; [done|rewrite Hpc; prog..].
Qed.

Lemma holds_send_world_done k :
  pc (procs s 0) = SendWorld k -> ~ k < world_size ->
  inv {| procs := <[0 := at_pc (procs s 0) Compute]> (procs s);
           to_worker := to_worker s; to_coord := to_coord s |}.
Proof.
  intros Hpc Hge. pose proof Hinv as [Hci Hwi].
  destruct Hci as [Hsz Hci]. rewrite Hpc in Hci.
  destruct Hcnt as (_ & _ & Hk). pose proof (Hk k (or_introl Hpc)) as Hkk.
  apply holds_coord_step; [done| |].
  - split; [done|]. cbn. done.
  - intros r Hr. apply worker_inv_coord; [done|rewrite Hpc; prog..].
Qed.

Lemma holds_compute_coord new :
  pc (procs s 0) = Compute ->
  apply_rules proc_data (pm_last (mem (procs s 0)))
    (fresh (pm_new (mem (procs s 0)))) 0
    (adjacency_offsets (width a)) (width a) (height a) = Some new ->
  inv {| procs := <[0 := {| pc := RecvPart 1;
                              iteration := iteration (procs s 0);
                              mem := {| pm_last := pm_last (mem (procs s 0));
                                        pm_new := cells new |};
                              computed := computed (procs s 0) + 1;
                              merged := merged (procs s 0) |}]> (procs s);
           to_worker := to_worker s; to_coord := to_coord s |}.
Proof.
  intros Hpc Hrun. pose proof Hinv as [Hci Hwi].
  destruct Hci as [[Hll Hln] Hci]. rewrite Hpc in Hci.
  destruct Hcnt as (Hc & _ & _). destruct (Hc 0 ltac:(lia)) as (Hg & _).
  rewrite Hci in Hrun.
  destruct (apply_rules_part 0 _ _ _ ltac:(lia) Hg Hln Hrun) as [Hl Hag].
  destruct total_pos as [Ht _].
  destruct (part_start_table total world_size) as (Hs0 & _); [lia..|].
  rewrite Hs0 in Hag. change (0 + 1) with 1 in Hag.
  apply holds_coord_step; [done| |].
  - split; [done|]. cbn. done.
  - intros r Hr. apply worker_inv_coord; [done|rewrite Hpc; prog..].
Qed.

(** The part rank 0 finds in the stream of worker [k] when it comes to
    line 143 for it: the worker is in the barrier of the same iteration
    and has sent the next state of its partition, and nothing else. *)
Lemma recv_part_msg k msg rest :
  pc (procs s 0) = RecvPart k -> 0 < k < world_size ->
  to_coord s k = msg :: rest ->
  rest = []
  /\ is_part (start k) (start (k + 1)) (B (iteration (procs s 0) + 1)) msg
  /\ iteration (procs s k) = iteration (procs s 0)
  /\ pc (procs s k) = InBarrier /\ to_worker s k = []
  /\ sized a (mem (procs s k)).
Proof.
  intros Hpc Hk Hq. destruct Hinv as [_ Hwi].
  destruct (Hwi k Hk) as (Hsz & H1 & H2 & H3).
  destruct (iteration_near k Hk) as [Heq|[Heq|Heq]].
  - specialize (H3 Heq). rewrite Hpc in H3.
    destruct (pc (procs s k)) eqn:Hpk; try done;
      try (decompose [and] H3; congruence).
    destruct H3 as (_ & Hqw & H3).
    replace (got world_size (RecvPart k) k) with false in H3 by prog.
    destruct H3 as (m & Hm & Hpart). rewrite Hq in Hm. injection Hm as <- ->.
    done.
  - destruct (H1 Heq) as (_ & _ & Hqc). congruence.
  - destruct (H2 Heq) as (_ & Hqc & _). congruence.
Qed.

Lemma holds_recv_part k msg rest pd new :
  pc (procs s 0) = RecvPart k -> k < world_size ->
  to_coord s k = msg :: rest ->
  load proc_data k = Some pd ->
  mpi_recv (fresh (pm_new (mem (procs s 0)))) (offset pd) (num_cells pd) msg
  = Some new ->
  inv {| procs := <[0 := {| pc := RecvPart (k + 1);
                              iteration := iteration (procs s 0);
                              mem := {| pm_last := pm_last (mem (procs s 0));
                                        pm_new := cells new |};
                              computed := computed (procs s 0);
                              merged := merged (procs s 0) + 1 |}]> (procs s);
           to_worker := to_worker s;
           to_coord := <[k := rest]> (to_coord s) |}.
Proof.
  intros Hpc Hlt Hq Hpd Hrecv. pose proof Hinv as [Hci Hwi].
  destruct Hci as [[Hll Hln] Hci]. rewrite Hpc in Hci. destruct Hci as [Hlast Hag].
  destruct Hcnt as (_ & _ & Hk). pose proof (Hk k (or_intror Hpc)) as Hkk.
  destruct (recv_part_msg k msg rest Hpc ltac:(lia) Hq)
    as (-> & [Hml Hmsg] & Hiter & Hpk & Hqw & Hsz).
  destruct (proc_data_load k ltac:(lia)) as (Hload & Hs0 & Hs1).
  rewrite Hload in Hpd. injection Hpd as <-. cbn [offset num_cells] in Hrecv.
  destruct (mpi_recv_spec (fresh (pm_new (mem (procs s 0)))) (start k)
              (start (k + 1) - start k) msg)
    as (new' & Hr & _ & Hl & Hin & Hout); [lia|done|cbn; lia|].
  rewrite Hrecv in Hr. injection Hr as <-. cbn [fresh cells] in Hl, Hout.
  apply holds_coord_step; [done| |].
  - split; [split; cbn; lia|]. cbn [pc iteration mem pm_last pm_new].
    split; [done|]. intros j Hj.
    destruct (Z_lt_le_dec j (start k)) as [Hjl|Hjg].
    + rewrite Hout by lia. apply Hag. lia.
    + replace j with (start k + Z.of_nat (Z.to_nat (j - start k))) by lia.
      rewrite Hin by lia. apply Hmsg. lia.
  - intros r Hr Hw. destruct (decide (k = r)) as [->|Hne].
    + rewrite fn_lookup_insert. split_and!; [done|cbn; lia..|].
      intros _. rewrite Hpk. cbn [pc]. rewrite Hqw. prog.
    + rewrite fn_lookup_insert_ne by done.
      revert Hw. apply worker_inv_coord; [done|rewrite Hpc; prog..].
Qed.

Lemma holds_recv_part_done k :
  pc (procs s 0) = RecvPart k -> ~ k < world_size ->
  inv {| procs := <[0 := at_pc (procs s 0) Swap]> (procs s);
           to_worker := to_worker s; to_coord := to_coord s |}.
Proof.
  intros Hpc Hge. pose proof Hinv as [Hci Hwi].
  destruct Hci as [[Hll Hln] Hci]. rewrite Hpc in Hci. destruct Hci as [Hlast Hag].
  destruct Hcnt as (Hc & _ & Hk). pose proof (Hk k (or_intror Hpc)) as Hkk.
  destruct (Hc 0 ltac:(lia)) as (Hg & _).
  assert (k = world_size) as -> by lia.
  destruct total_pos as [Ht _].
  destruct (part_start_table total world_size) as (_ & Hse & _); [lia..|].
  rewrite Hse, <- Hln in Hag.
  apply holds_coord_step; [done| |].
  - split; [done|]. cbn. split; [done|]. apply agree_on_eq; [|done].
    pose proof (B_length (iteration (procs s 0) + 1)). lia.
  - intros r Hr. apply worker_inv_coord; [done|rewrite Hpc; prog..].
Qed.

Lemma holds_swap :
  pc (procs s 0) = Swap ->
  inv {| procs := <[0 := {| pc := InBarrier;
                              iteration := iteration (procs s 0);
                              mem := {| pm_last := pm_new (mem (procs s 0));
                                        pm_new := pm_last (mem (procs s 0)) |};
                              computed := computed (procs s 0);
                              merged := merged (procs s 0) |}]> (procs s);
           to_worker := to_worker s; to_coord := to_coord s |}.
Proof.
  intros Hpc. pose proof Hinv as [Hci Hwi].
  destruct Hci as [[Hll Hln] Hci]. rewrite Hpc in Hci. destruct Hci as [Hlast Hnew].
  apply holds_coord_step; [done| |].
  - split; [split; cbn; lia|]. cbn. done.
  - intros r Hr. apply worker_inv_coord; [done|rewrite Hpc; prog..].
Qed.

(** A worker in the middle of an iteration is in the iteration of rank 0. *)
Lemma worker_in_step r :
  0 < r < world_size ->
  pc (procs s r) = Compute \/ pc (procs s r) = SendPart ->
  iteration (procs s r) = iteration (procs s 0).
Proof.
  intros Hr Hpc. destruct Hinv as [_ Hwi].
  destruct (Hwi r Hr) as (_ & H1 & _).
  destruct (iteration_near r Hr) as [Heq|[Heq|Heq]]; [done|..].
  - destruct (H1 Heq) as ([Hp|Hp] & _); destruct Hpc; congruence.
  - apply worker_behind in Heq; [|done]. destruct Hpc; congruence.
Qed.

(** The board a worker finds in its stream at line 157 is the board of its
    iteration, whole, and nothing follows it. *)
Lemma recv_world_msg r msg rest :
  0 < r < world_size -> pc (procs s r) = RecvWorld ->
  to_worker s r = msg :: rest ->
  rest = [] /\ msg = B (iteration (procs s r))
  /\ iteration (procs s r) = iteration (procs s 0)
  /\ sent world_size (pc (procs s 0)) r = true
  /\ got world_size (pc (procs s 0)) r = false
  /\ to_coord s r = [].
Proof.
  intros Hr Hpc Hq. destruct Hinv as [_ Hwi].
  destruct (Hwi r Hr) as (_ & H1 & _ & H3).
  destruct (iteration_near r Hr) as [Heq|[Heq|Heq]].
  - specialize (H3 Heq). rewrite Hpc in H3. destruct H3 as (Hg & Hqc & Hqw).
    rewrite Hq in Hqw. rewrite Heq.
    destruct (sent world_size (pc (procs s 0)) r); [|done].
    injection Hqw as -> ->. done.
  - destruct (H1 Heq) as (_ & Hqw & _). congruence.
  - apply worker_behind in Heq; [congruence|done].
Qed.

Lemma holds_recv_world r msg rest last :
  0 < r < world_size -> pc (procs s r) = RecvWorld ->
  to_worker s r = msg :: rest ->
  mpi_recv (fresh (pm_last (mem (procs s r)))) 0
    (Int.mul (width a) (height a)) msg = Some last ->
  inv {| procs := <[r := {| pc := Compute;
                              iteration := iteration (procs s r);
                              mem := {| pm_last := cells last;
                                        pm_new := pm_new (mem (procs s r)) |};
                              computed := computed (procs s r);
                              merged := merged (procs s r) |}]> (procs s);
           to_worker := <[r := rest]> (to_worker s);
           to_coord := to_coord s |}.
Proof.
  intros Hr Hpc Hq Hrecv. destruct total_pos as [Ht Hmul].
  destruct (recv_world_msg r msg rest Hr Hpc Hq)
    as (-> & -> & Heq & Hs & Hg & Hqc).
  pose proof Hinv as [_ Hwi]. destruct (Hwi r Hr) as ([Hll Hln] & _).
  rewrite Hmul in Hrecv.
  apply mpi_recv_whole in Hrecv; [|done|apply B_length].
  apply holds_worker_step; [done|done| |].
  - intros r' Hne. by rewrite fn_lookup_insert_ne.
  - rewrite fn_lookup_insert. split_and!.
    + split; cbn; [rewrite Hrecv; apply B_length|done].
    + cbn. lia.
    + cbn. lia.
    + intros _. cbn. rewrite Hrecv, Heq. done.
Qed.

Lemma holds_compute_worker r new :
  0 < r < world_size -> pc (procs s r) = Compute ->
  apply_rules proc_data (pm_last (mem (procs s r)))
    (fresh (pm_new (mem (procs s r)))) r
    (adjacency_offsets (width a)) (width a) (height a) = Some new ->
  inv {| procs := <[r := {| pc := SendPart;
                              iteration := iteration (procs s r);
                              mem := {| pm_last := pm_last (mem (procs s r));
                                        pm_new := cells new |};
                              computed := computed (procs s r) + 1;
                              merged := merged (procs s r) |}]> (procs s);
           to_worker := to_worker s; to_coord := to_coord s |}.
Proof.
  intros Hr Hpc Hrun.
  pose proof (worker_in_step r Hr (or_introl Hpc)) as Heq.
  pose proof Hinv as [_ Hwi]. destruct (Hwi r Hr) as ([Hll Hln] & _ & _ & H3).
  specialize (H3 Heq). rewrite Hpc in H3.
  destruct H3 as (Hs & Hg & Hqw & Hqc & Hlast).
  destruct Hcnt as (Hc & _ & _). destruct (Hc 0 ltac:(lia)) as (Hg0 & _).
  rewrite Hlast in Hrun.
  destruct (apply_rules_part r _ _ _ ltac:(lia) Hg0 Hln Hrun) as [Hl Hag].
  apply holds_worker_step; [done|done|done|].
  split_and!.
  - split; cbn; lia.
  - cbn. lia.
  - cbn. lia.
  - intros _. cbn. done.
Qed.

Lemma holds_send_part r pd msg :
  0 < r < world_size -> pc (procs s r) = SendPart ->
  load proc_data r = Some pd ->
  mpi_send (pm_new (mem (procs s r))) (offset pd) (num_cells pd) = Some msg ->
  inv {| procs := <[r := at_pc (procs s r) InBarrier]> (procs s);
           to_worker := to_worker s;
           to_coord := <[r := to_coord s r ++ [msg]]> (to_coord s) |}.
Proof.
  intros Hr Hpc Hpd Hsend.
  pose proof (worker_in_step r Hr (or_intror Hpc)) as Heq.
  pose proof Hinv as [_ Hwi]. destruct (Hwi r Hr) as ([Hll Hln] & _ & _ & H3).
  specialize (H3 Heq). rewrite Hpc in H3.
  destruct H3 as (Hs & Hg & Hqw & Hqc & Hag).
  destruct (proc_data_load r ltac:(lia)) as (Hload & Hs0 & Hs1).
  rewrite Hload in Hpd. injection Hpd as <-. cbn [offset num_cells] in Hsend.
  destruct (mpi_send_spec (pm_new (mem (procs s r))) (start r)
              (start (r + 1) - start r))
    as (msg' & Hsend' & Hml & Hmsg); [lia..|].
  rewrite Hsend in Hsend'. injection Hsend' as <-.
  apply holds_worker_step; [done|done| |].
  - intros r' Hne. by rewrite fn_lookup_insert_ne.
  - rewrite fn_lookup_insert. split_and!.
    + done.
    + cbn. lia.
    + cbn. lia.
    + intros _. cbn [pc at_pc]. rewrite Hg, Hqc. split_and!; [done..|].
      exists msg. split; [done|]. split; [done|].
      intros i Hi. rewrite Hmsg by done. apply Hag. lia.
Qed.

Lemma holds_leave_barrier r :
  0 <= r < world_size -> pc (procs s r) = InBarrier ->
  (forall q, 0 <= q < world_size ->
     entered s (iteration (procs s r)) q) ->
  inv {| procs := <[r := {| pc := loop_head a r (iteration (procs s r) + 1);
                              iteration := iteration (procs s r) + 1;
                              mem := mem (procs s r);
                              computed := computed (procs s r);
                              merged := merged (procs s r) |}]> (procs s);
           to_worker := to_worker s; to_coord := to_coord s |}.
Proof.
  intros Hr Hpc Hall. pose proof Hinv as [Hci Hwi].
  destruct (decide (r = 0)) as [->|Hne].
  - destruct Hci as [Hsz Hci]. rewrite Hpc in Hci.
    apply holds_coord_step; [done| |].
    + split; [done|]. cbn [pc iteration mem].
      destruct (loop_head_cases a 0 (iteration (procs s 0) + 1))
        as [[-> _]|[_ [[_ ->]|[? _]]]]; done.
    + intros q Hq (Hqsz & H1 & H2 & H3).
      assert (forall c, c = loop_head a 0 (iteration (procs s 0) + 1) ->
                sent world_size c q = false /\ got world_size c q = false) as Hprog.
      { intros c ->.
        destruct (loop_head_cases a 0 (iteration (procs s 0) + 1))
          as [[-> _]|[_ [[_ ->]|[? _]]]]; [| |done]; prog. }
      destruct (Hprog _ eq_refl) as [Hs Hg].
      split_and!; [done|..]; cbn [pc iteration]; rewrite ?Hs, ?Hg.
      * intros Heq. destruct (iteration_near q Hq); lia.
      * intros Heq. assert (iteration (procs s q) = iteration (procs s 0)) as Heq' by lia.
        specialize (H3 Heq').
        destruct (Hall q ltac:(lia)) as [Hgt|[_ Hpq]]; [lia|].
        rewrite Hpq, Hpc in H3. destruct H3 as (_ & Hqw & H3).
        replace (got world_size InBarrier q) with true in H3 by prog. done.
      * intros Heq. destruct (H1 Heq) as ([Hp|Hp] & Hqw & Hqc); rewrite Hp; done.
  - apply holds_worker_step; [done|lia|done|].
    destruct (Hwi r ltac:(lia)) as (Hsz & H1 & H2 & H3).
    split_and!; [done|..]; cbn [pc iteration].
    + intros Heq. assert (iteration (procs s r) = iteration (procs s 0)) as Heq' by lia.
      specialize (H3 Heq'). rewrite Hpc in H3. destruct H3 as (_ & Hqw & H3).
      destruct (Hall 0 ltac:(lia)) as [Hgt|[_ Hp0]]; [lia|].
      rewrite Hp0 in H3.
      replace (got world_size InBarrier r) with true in H3 by prog.
      split_and!; [|done..].
      destruct (loop_head_cases a r (iteration (procs s r) + 1))
        as [[-> _]|[_ [[? _]|[_ ->]]]]; [by right|lia|by left].
    + intros Heq. destruct (iteration_near r ltac:(lia)); lia.
    + intros Heq. destruct (H2 Heq) as (Hg & Hqc & Hqw).
      destruct (loop_head_cases a r (iteration (procs s r) + 1))
        as [[-> Hfin]|[_ [[? _]|[_ ->]]]]; [|lia|exact (conj Hg (conj Hqc Hqw))].
      split; [|done]. rewrite Hqw.
      assert (pc (procs s 0) = Finished) as ->; [|prog].
      destruct Hcnt as (Hc & _). destruct (Hc 0 ltac:(lia)) as (_ & _ & Hf0).
      apply Hf0. rewrite <- Heq. done.
Qed.

End Steps.

Lemma holds_initial : inv (initial_world a board).
Proof.
  destruct total_pos as [Ht Hmul].
  assert (Z.of_nat (length (calloc_bool (Int.mul (width a) (height a)))) = total)
    as Hcalloc.
  { unfold calloc_bool. rewrite length_replicate, Hmul. lia. }
  split.
  - split; [split; cbn; done|]. cbn [initial_world procs pc iteration mem pm_last].
    destruct (loop_head_cases a 0 0) as [[-> _]|[_ [[_ ->]|[? _]]]]; done.
  - intros r Hr. cbn [initial_world procs to_worker to_coord].
    split_and!; cbn [pc iteration mem pm_last pm_new].
    + split; cbn; [|done]. destruct (Z.eqb_spec r 0); [lia|done].
    + lia.
    + lia.
    + intros _.
      destruct (loop_head_cases a 0 0) as [[-> _]|[_ [[_ ->]|[? _]]]]; [| |done];
      destruct (loop_head_cases a r 0) as [[-> _]|[_ [[? _]|[_ ->]]]];
        try lia; prog.
Qed.

Lemma holds_step (s s' : World) :
  run_step s s' ->
  separated world_size (procs s) -> counted a world_size (procs s) ->
  inv s -> inv s'.
Proof.
  intros Hstep Hsep Hcnt Hinv.
  destruct Hstep as
    [s c k msg Hc0 Hpc Hlt Hsend
    |s c k Hc0 Hpc Hge
    |s c new Hc0 Hpc Hrun
    |s c k msg rest pd new Hc0 Hpc Hlt Hq Hpd Hrecv
    |s c k Hc0 Hpc Hge
    |s c Hc0 Hpc
    |s r p msg rest last Hr Hp Hpc Hq Hrecv
    |s r p new Hr Hp Hpc Hrun
    |s r p pd msg Hr Hp Hpc Hpd Hsend
    |s r p Hr Hp Hpc Hall]; subst.
  - by apply holds_send_world.
  - by eapply holds_send_world_done.
  - by apply holds_compute_coord.
  - by eapply holds_recv_part.
  - by eapply holds_recv_part_done.
  - by apply holds_swap.
  - by eapply holds_recv_world.
  - by apply holds_compute_worker.
  - by eapply holds_send_part.
  - by apply holds_leave_barrier.
Qed.

Lemma holds_reachable s :
  reachable a world_size proc_data board s ->
  separated world_size (procs s) /\ counted a world_size (procs s) /\ inv s.
Proof.
  induction 1 as [|s s' _ (Hsep & Hcnt & Hinv) Hstep].
  - destruct (control_initial a world_size board ltac:(lia)). split_and!; [done..|].
    apply holds_initial.
  - destruct (control_step a world_size proc_data ltac:(lia) s s' Hstep) as [? ?];
      [done|]. split_and!; [done..|]. by apply (holds_step s s').
Qed.

End Data.

Lemma board_after_spec (a : Args) (board : list bool) (n : nat) :
  board_ok (width a) (height a) ->
  Z.of_nat (length board) = width a * height a ->
  board_after a board n
  = Some (board_at (width a) (height a) board (Z.of_nat n)).
Proof.
  intros Hok Hlen. unfold board_at. rewrite Nat2Z.id.
  destruct (board_ok_cells _ _ Hok) as (HN & _).
  induction n as [|n IH]; [done|].
  cbn [board_after Nat.iter]. rewrite IH. cbn [mbind option_bind].
  rewrite generation_spec; [done|done|unfold Int.INT_MAX; lia|].
  pose proof (board_at_length (width a) (height a) board (Z.of_nat n)
                ltac:(lia) Hlen) as Hl.
  unfold board_at in Hl. by rewrite Nat2Z.id in Hl.
Qed.

(** C9.  In every state the processes can reach, running lines 118-168
    side by side on any board and any number of ranks: when a rank is in
    iteration g+1, every rank has entered the barrier that ends iteration
    g, so each has returned from its call of [apply_rules] for it and rank
    0 has completed all its receives of line 143 for it; the only step that
    takes a rank into a new iteration is the return from [MPI_Barrier],
    which waits for all ranks; and every board in flight to a worker, and
    every board a rank calls [apply_rules] on, is the whole board of that
    iteration as the one-process program computes it. *)
Theorem barrier_separates_generations (a : Args) (world_size : Z)
    (proc_data : list ProcInfo) (board : list bool) (s : World) :
  board_ok (width a) (height a) ->
  1 <= world_size <= Int.INT_MAX ->
  setup_proc_data (width a) (height a) world_size = Some proc_data ->
  Z.of_nat (length board) = width a * height a ->
  reachable a world_size proc_data board s ->
  (forall p q g, 0 <= p < world_size -> 0 <= q < world_size ->
     iteration (procs s p) = g + 1 ->
     entered s g q
     /\ g + 1 <= computed (procs s q)
     /\ (g + 1) * (world_size - 1) <= merged (procs s 0))
  /\ (forall s' p, step a world_size proc_data s s' ->
        0 <= p < world_size ->
        iteration (procs s' p) <> iteration (procs s p) ->
        pc (procs s p) = InBarrier
        /\ iteration (procs s' p) = iteration (procs s p) + 1
        /\ forall q, 0 <= q < world_size ->
             entered s (iteration (procs s p)) q)
  /\ (forall r msg rest, 0 < r < world_size ->
        to_worker s r = msg :: rest ->
        rest = []
        /\ board_after a board (Z.to_nat (iteration (procs s 0))) = Some msg)
  /\ (forall r, 0 <= r < world_size -> pc (procs s r) = Compute ->
        board_after a board (Z.to_nat (iteration (procs s r)))
        = Some (pm_last (mem (procs s r)))).
Proof.
  intros Hok Hws Hsetup Hboard Hreach.
  destruct (board_ok_cells _ _ Hok) as (HN & HNf & _).
  rewrite setup_proc_data_spec in Hsetup
    by (unfold Int.fits in HNf; lia || done).
  injection Hsetup as <-.
  destruct (holds_reachable a world_size board Hok Hws Hboard s Hreach)
    as (Hsep & Hcnt & Hci & Hwi).
  pose proof Hcnt as (Hc & Hm & Hk).
  assert (forall g, 0 <= g ->
            board_after a board (Z.to_nat g)
            = Some (board_at (width a) (height a) board g)) as Hafter.
  { intros g Hg. rewrite board_after_spec by done. by rewrite Z2Nat.id. }
  split_and!.
  - intros p q g Hp Hq Hiter.
    assert (entered s g q /\ g + 1 <= computed (procs s q)) as [He Hcq].
    { destruct (Hc q Hq) as (Hiq & Hcomp & _).
      destruct (Z_lt_le_dec (iteration (procs s q)) (iteration (procs s p)))
        as [Hlt|Hle].
      - destruct (Hsep p q Hp Hq Hlt) as [Heq Hb]. rewrite Hb in Hcomp. cbn in Hcomp.
        split; [right; split; [lia|done]|lia].
      - assert (0 <= after_compute (pc (procs s q)))
          by (destruct (pc (procs s q)); cbn; lia).
        split; [left; lia|lia]. }
    split; [done|]. split; [done|].
    destruct (Hc 0 ltac:(lia)) as (Hi0 & _).
    assert (g <= iteration (procs s 0)
            /\ (iteration (procs s 0) = g -> pc (procs s 0) = InBarrier)) as [Hg0' Hb0].
    { destruct (Z_lt_le_dec (iteration (procs s 0)) (iteration (procs s p)))
        as [Hlt|Hle].
      - destruct (Hsep p 0 Hp ltac:(lia) Hlt) as [Heq Hb]. split; [lia|done].
      - split; lia. }
    rewrite Hm.
    destruct (Z.eq_dec (iteration (procs s 0)) g) as [Heq|Hne].
    + rewrite (Hb0 Heq), Heq. cbn. lia.
    + assert (0 <= merged_now world_size (pc (procs s 0))).
      { destruct (pc (procs s 0)) eqn:Hpc0; cbn; try lia.
        pose proof (Hk proc (or_intror eq_refl)). lia. }
      nia.
  - intros s' p Hstep Hp Hne.
    destruct Hstep as
      [s c k msg Hc0 Hpc Hlt Hsend
      |s c k Hc0 Hpc Hge
      |s c new Hc0 Hpc Hrun
      |s c k msg rest pd new Hc0 Hpc Hlt Hq Hpd Hrecv
      |s c k Hc0 Hpc Hge
      |s c Hc0 Hpc
      |s r w msg rest last Hr Hw Hpc Hq Hrecv
      |s r w new Hr Hw Hpc Hrun
      |s r w pd msg Hr Hw Hpc Hpd Hsend
      |s r w Hr Hw Hpc Hall]; subst; cbn [procs] in Hne |- *;
    match type of Hne with
    | context [<[?r := _]> _ p] =>
        destruct (decide (r = p)) as [<-|Hrp];
        [rewrite fn_lookup_insert in Hne |- *
        |rewrite fn_lookup_insert_ne in Hne by done; done]
    end; cbn in Hne; done.
  - intros r msg rest Hr Hq.
    destruct (Hc 0 ltac:(lia)) as (Hi0 & _). rewrite Hafter by done.
    destruct (Hwi r Hr) as (_ & H1 & H2 & H3).
    destruct (iteration_near world_size board Hws s Hsep r Hr) as [Heq|[Heq|Heq]].
    + specialize (H3 Heq).
      destruct (pc (procs s r)); try done;
        try (decompose [and] H3; congruence).
      destruct H3 as (_ & _ & Hqw). rewrite Hq in Hqw.
      destruct (sent world_size (pc (procs s 0)) r); [|done].
      by injection Hqw as -> ->.
    + destruct (H1 Heq) as (_ & Hqw & _). congruence.
    + destruct (H2 Heq) as (_ & _ & Hqw). rewrite Hq in Hqw.
      destruct (sent world_size (pc (procs s 0)) r); [|done].
      by injection Hqw as -> ->.
  - intros r Hr Hpc. destruct (Hc r Hr) as (Hir & _). rewrite Hafter by done.
    f_equal. destruct (decide (r = 0)) as [->|Hne].
    + destruct Hci as [_ Hci]. by rewrite Hpc in Hci.
    + pose proof (worker_in_step a world_size board Hws s Hsep
                    (conj Hci Hwi) r ltac:(lia) (or_introl Hpc)) as Heq.
      destruct (Hwi r ltac:(lia)) as (_ & _ & _ & H3).
      specialize (H3 Heq). rewrite Hpc in H3.
      destruct H3 as (_ & _ & _ & _ & Hlast). by rewrite Heq.
Qed.

(** Extend a run by one step, and name the state reached. *)
Ltac run_step H tac :=
  let H' := fresh "Hrun" in
  eassert (reachable _ _ _ _ _) as H'
    by (eapply reachable_step; [exact H | tac]);
  clear H; rename H' into H;
  match type of H with
  | reachable _ _ _ _ ?s => let n := fresh "s" in set (n := s) in H
  end.

(** The demo run up to the point where rank 1 has left the barrier of
    iteration 0 and rank 0 is still inside it. *)
Lemma barrier_separates_generations_witness :
  exists s,
    reachable demo_args 2 demo_table demo_board s
    /\ iteration (procs s 1) = 1
    /\ entered s 0 0
    /\ 1 <= computed (procs s 0)
    /\ 1 <= merged (procs s 0).
Proof.
  pose proof (reachable_initial demo_args 2 demo_table demo_board) as H.
  run_step H ltac:(eapply step_send_world;
                   [reflexivity | reflexivity | reflexivity | cbv; reflexivity]).
  run_step H ltac:(eapply step_send_world_done;
                   [reflexivity | reflexivity | discriminate]).
  run_step H ltac:(eapply step_compute_coord;
                   [reflexivity | reflexivity | cbv; reflexivity]).
  run_step H ltac:(eapply step_recv_world with (r := 1);
                   [split; reflexivity | reflexivity | reflexivity
                   | cbv; reflexivity | cbv; reflexivity]).
  run_step H ltac:(eapply step_compute_worker with (r := 1);
                   [split; reflexivity | reflexivity | reflexivity
                   | cbv; reflexivity]).
  run_step H ltac:(eapply step_send_part with (r := 1);
                   [split; reflexivity | reflexivity | reflexivity
                   | cbv; reflexivity | cbv; reflexivity]).
  run_step H ltac:(eapply step_recv_part;
                   [reflexivity | reflexivity | reflexivity | cbv; reflexivity
                   | cbv; reflexivity | cbv; reflexivity]).
  run_step H ltac:(eapply step_recv_part_done;
                   [reflexivity | reflexivity | discriminate]).
  run_step H ltac:(eapply step_swap; [reflexivity | reflexivity]).
  run_step H ltac:(eapply step_leave_barrier with (r := 1);
                   [split; [discriminate | reflexivity] | reflexivity | reflexivity
                   | intros q Hq; assert (q = 0 \/ q = 1) as [-> | ->] by lia;
                     right; split; reflexivity]).
  eexists. split; [exact H|].
  destruct (barrier_separates_generations demo_args 2 demo_table demo_board _
              ltac:(unfold board_ok, Int.INT_MAX; cbn; lia)
              ltac:(unfold Int.INT_MAX; lia) eq_refl eq_refl H)
    as (Hsep & _).
  destruct (Hsep 1 0 0 ltac:(lia) ltac:(lia) eq_refl) as (He & Hc & Hm).
  split; [reflexivity|]. split; [exact He|]. split; [exact Hc | exact Hm].
Defined.

(** * Further properties of life.c *)

(** ** Loops that leave their bounds *)

(** A loop whose body fails at some index, whatever the state, fails. *)
Lemma for_loop_fails {St} (body : Z -> St -> option St) (n : nat) (i j : Z)
    (s : St) :
  i <= j < i + Z.of_nat n -> (forall s, body j s = None) ->
  for_loop n i body s = None.
Proof.
  revert i s. induction n as [|n IH]; intros i s Hj Hfail; [lia|].
  cbn [for_loop]. destruct (body i s) as [s'|] eqn:Hb; [|done].
  cbn. destruct (decide (j = i)) as [->|Hne]; [by rewrite Hfail in Hb|].
  apply IH; [lia|done].
Qed.

Lemma for_range_fails {St} (body : Z -> St -> option St) (lo hi j : Z) (s : St) :
  lo <= j < hi -> (forall s, body j s = None) -> for_range lo hi body s = None.
Proof.
  intros Hj Hfail. unfold for_range. apply (for_loop_fails body _ lo j); [lia|done].
Qed.

(** ** print_game *)

Lemma cells_of_text_app s t :
  cells_of_text (s +:+ t) = cells_of_text s ++ cells_of_text t.
Proof.
  induction s as [|c s IH]; [done|].
  change (String c s +:+ t) with (String c (s +:+ t)).
  cbn [cells_of_text]. rewrite IH. by repeat case_match.
Qed.

Lemma line_breaks_app s t : line_breaks (s +:+ t) = line_breaks s + line_breaks t.
Proof.
  induction s as [|c s IH]; [done|].
  change (String c s +:+ t) with (String c (s +:+ t)).
  cbn [line_breaks]. rewrite IH. lia.
Qed.

Lemma string_length_app s t :
  String.length (s +:+ t) = (String.length s + String.length t)%nat.
Proof.
  induction s as [|c s IH]; [done|].
  change (String c s +:+ t) with (String c (s +:+ t)).
  cbn [String.length Nat.add]. by rewrite IH.
Qed.

Lemma count_true_snoc f b : count_true (f ++ [b]) = count_true f + Z.b2z b.
Proof. rewrite count_true_app. by destruct b. Qed.

Lemma glyph_text (c : bool) :
  cells_of_text (if c then live_glyph else dead_glyph) = [c]
  /\ line_breaks (if c then live_glyph else dead_glyph) = 0
  /\ Z.of_nat (String.length (if c then live_glyph else dead_glyph))
     = 1 + 2 * Z.b2z c.
Proof. by destruct c. Qed.

(** What [print_game] has written when it has shown the first [k] cells
    and ended [i] lines. *)
Lemma print_game_spec field width height :
  0 <= width -> 0 <= height -> width * height <= Int.INT_MAX ->
  width * height <= Z.of_nat (length field) ->
  exists out, print_game field width height = Some out
    /\ cells_of_text out = take (Z.to_nat (width * height)) field
    /\ line_breaks out = height
    /\ Z.of_nat (String.length out)
       = width * height
         + 2 * count_true (take (Z.to_nat (width * height)) field) + height.
Proof.
  intros Hw Hh HN Hlen.
  set (shown := fun (k i : Z) (out : string) =>
         cells_of_text out = take (Z.to_nat k) field
         /\ line_breaks out = i
         /\ Z.of_nat (String.length out)
            = k + 2 * count_true (take (Z.to_nat k) field) + i).
  unfold print_game.
  destruct (for_range_inv (fun i out => shown (i * width) i out)
              (fun i out =>
                 out ← for_range 0 width
                          (fun j out =>
                             c ← load field (Int.add (Int.mul i width) j);
                             Some (out +:+ (if c : bool then live_glyph
                                            else dead_glyph)))
                          out;
                 Some (out +:+ nl))
              0 height EmptyString) as (out & Hrun & Hc & Hb & Hl); [done|done| |].
  - intros i out Hi Hout.
    destruct (for_range_inv (fun j out => shown (i * width + j) i out)
                (fun j out =>
                   c ← load field (Int.add (Int.mul i width) j);
                   Some (out +:+ (if c : bool then live_glyph else dead_glyph)))
                0 width out) as (out' & Hrow & Hc & Hb & Hl); [done| |..].
    + by rewrite Z.add_0_r.
    + intros j o Hj (Hc & Hb & Hl).
      assert (0 <= i * width + j < width * height) as Hidx by nia.
      rewrite mul_fits, add_fits
        by (unfold Int.fits, Int.INT_MIN, Int.INT_MAX in *; nia).
      destruct (load_Some field (i * width + j)) as (c & -> & Hlk); [lia|].
      cbn [mbind option_bind]. eexists. split; [done|]. unfold shown.
      replace (Z.to_nat (i * width + (j + 1))) with (S (Z.to_nat (i * width + j)))
        by lia.
      rewrite (take_S_r _ _ c) by done.
      destruct (glyph_text c) as (Hgc & Hgb & Hgl).
      rewrite cells_of_text_app, line_breaks_app, string_length_app,
        count_true_snoc, Hc, Hb, Hgc, Hgb.
      split_and!; [done|lia|lia].
    + rewrite Hrow. cbn [mbind option_bind]. eexists. split; [done|].
      unfold shown.
      replace ((i + 1) * width) with (i * width + width) by lia.
      rewrite cells_of_text_app, line_breaks_app, string_length_app, Hc, Hb.
      change (cells_of_text nl) with (@nil bool).
      change (line_breaks nl) with 1. change (String.length nl) with 1%nat.
      split_and!; [by rewrite app_nil_r|lia|lia].
  - exists out. rewrite Z.mul_comm in Hc, Hl. by split_and!.
Qed.

(** X1.  [print_game] on a field of width * height cells stays inside the
    field and writes [height] lines: one byte for every dead cell, three
    for every live cell and one line break after each row. *)
Theorem print_game_size (field : list bool) (width height : Z) :
  0 <= width -> 0 <= height -> width * height <= Int.INT_MAX ->
  Z.of_nat (length field) = width * height ->
  exists out, print_game field width height = Some out
    /\ line_breaks out = height
    /\ Z.of_nat (String.length out)
       = width * height + 2 * count_true field + height.
Proof.
  intros Hw Hh HN Hlen.
  destruct (print_game_spec field width height) as (out & Hrun & _ & Hb & Hl);
    [lia..|].
  rewrite take_ge in Hl by lia. by exists out.
Qed.

Lemma print_game_size_witness :
  exists out, print_game [true; false; false; true; true; true] 3 2 = Some out
    /\ line_breaks out = 2
    /\ Z.of_nat (String.length out)
       = 3 * 2 + 2 * count_true [true; false; false; true; true; true] + 2.
Proof.
  apply (print_game_size [true; false; false; true; true; true] 3 2).
  - lia.
  - lia.
  - unfold Int.INT_MAX. lia.
  - reflexivity.
Defined.

(** X2.  The text [print_game] writes determines the board: two fields of
    width * height cells that print alike are the same field. *)
Theorem print_game_injective (field1 field2 : list bool) (width height : Z) :
  0 <= width -> 0 <= height -> width * height <= Int.INT_MAX ->
  Z.of_nat (length field1) = width * height ->
  Z.of_nat (length field2) = width * height ->
  print_game field1 width height = print_game field2 width height ->
  field1 = field2.
Proof.
  intros Hw Hh HN Hl1 Hl2 Heq.
  destruct (print_game_spec field1 width height) as (out1 & Hrun1 & Hc1 & _);
    [lia..|].
  destruct (print_game_spec field2 width height) as (out2 & Hrun2 & Hc2 & _);
    [lia..|].
  rewrite Hrun1, Hrun2 in Heq. injection Heq as <-.
  rewrite take_ge in Hc1, Hc2 by lia. congruence.
Qed.

Lemma print_game_injective_witness :
  [true; false; false; true] = [true; false; false; true].
Proof.
  apply (print_game_injective [true; false; false; true]
           [true; false; false; true] 2 2).
  - lia.
  - lia.
  - unfold Int.INT_MAX. lia.
  - reflexivity.
  - reflexivity.
  - reflexivity.
Defined.

(** X3.  On a field with fewer than width * height cells [print_game]
    reads past the end of the field. *)
Theorem print_game_short_field (field : list bool) (width height : Z) :
  0 < width -> 0 < height -> width * height <= Int.INT_MAX ->
  Z.of_nat (length field) < width * height ->
  print_game field width height = None.
Proof.
  intros Hw Hh HN Hlen. unfold print_game.
  set (n := Z.of_nat (length field)) in *.
  assert (0 <= n) as Hn by lia.
  pose proof (Z.div_mod n width ltac:(lia)) as Hdm.
  pose proof (Z.mod_pos_bound n width Hw) as Hm.
  assert (0 <= n / width < height) as Hq.
  { split; [apply Z.div_pos; lia|]. apply Z.div_lt_upper_bound; lia. }
  apply (for_range_fails _ 0 height (n / width)); [done|]. intros out.
  rewrite (for_range_fails _ 0 width (n mod width)); [done|done|]. intros o.
  rewrite mul_fits, add_fits
    by (unfold Int.fits, Int.INT_MIN, Int.INT_MAX in *; nia).
  replace (n / width * width + n mod width) with n by lia.
  unfold load. destruct (Z.leb_spec 0 n); [|lia].
  rewrite lookup_ge_None_2 by lia. done.
Qed.

Lemma print_game_short_field_witness :
  print_game [true; false; true] 2 2 = None.
Proof.
  apply (print_game_short_field [true; false; true] 2 2).
  - lia.
  - lia.
  - unfold Int.INT_MAX. lia.
  - simpl. lia.
Defined.

(** ** main: the loop and what it prints *)

Lemma swap_buffers_spec width height new mems me :
  Forall (mem_ok width height) mems ->
  load mems 0 = Some me -> mem_ok width height me ->
  Z.of_nat (length (cells new)) = width * height ->
  exists mems',
    swap_buffers new mems = Some mems'
    /\ length mems' = length mems
    /\ Forall (mem_ok width height) mems'
    /\ load mems' 0 = Some {| pm_last := cells new; pm_new := pm_last me |}.
Proof.
  intros Hmems Hme [Hl Hn] Hnew. unfold swap_buffers. rewrite Hme.
  cbn [mbind option_bind].
  apply load_inv in Hme as [_ Hlk].
  pose proof (lookup_lt_Some _ _ _ Hlk) as Hlt.
  rewrite store_Some by (change (Z.to_nat 0) with 0%nat in Hlt; lia).
  eexists. split; [done|]. split_and!.
  - by rewrite length_insert.
  - apply Forall_insert; [done|]. by split.
  - rewrite load_lookup by lia. apply list_lookup_insert_eq.
    by change (Z.to_nat 0) with 0%nat in *.
Qed.

Lemma printed_snoc pm (f : Z -> Z * list bool) g :
  0 <= g ->
  f <$> filter (fun g => Z.rem g pm = 0) (seqZ 0 (g + 1))
  = (f <$> filter (fun g => Z.rem g pm = 0) (seqZ 0 g))
    ++ (if Z.rem g pm =? 0 then [f g] else []).
Proof.
  intros Hg. rewrite seqZ_snoc, filter_app, fmap_app by done. f_equal.
  rewrite Z.add_0_l. destruct (Z.eqb_spec (Z.rem g pm) 0) as [Hr|Hr].
  - by rewrite filter_cons_True, filter_nil.
  - by rewrite filter_cons_False, filter_nil.
Qed.

Section MainLoop.
Context (a : Args) (world_size : Z) (board : list bool).
Hypothesis Hok : board_ok (width a) (height a).
Hypothesis Hws : 1 <= world_size <= Int.INT_MAX.
Hypothesis Hboard : Z.of_nat (length board) = width a * height a.
Hypothesis Hpm : print_modulo a <> 0.
Hypothesis Hit : -1 <= iterations a < Int.INT_MAX.

Local Abbreviation B := (board_at (width a) (height a) board).

Lemma main_loop_spec mems me :
  Z.of_nat (length mems) = world_size ->
  Forall (mem_ok (width a) (height a)) mems ->
  load mems 0 = Some me -> pm_last me = board ->
  exists mems' me',
    main_loop a world_size (partition_spec (width a * height a) world_size) mems
    = Some (printed a board, mems')
    /\ Z.of_nat (length mems') = world_size
    /\ Forall (mem_ok (width a) (height a)) mems'
    /\ load mems' 0 = Some me'
    /\ pm_last me' = B (iterations a + 1).
Proof using All.
  intros Hlen Hmems Hme Hlast.
  destruct (board_ok_cells _ _ Hok) as (HN & HNf & _).
  destruct (part_start_table (width a * height a) world_size)
    as (Hs0 & Hse & Htab); [lia..|].
  unfold main_loop, printed.
  rewrite add_fits by (unfold Int.fits, Int.INT_MIN, Int.INT_MAX in *; lia).
  match goal with
  | |- context [for_range 0 ?hi ?body ?s] =>
      destruct (for_range_inv
        (fun g (st : list (Z * list bool) * list ProcMem) =>
           st.1 = (fun g => (g, B g))
                    <$> filter (fun g => Z.rem g (print_modulo a) = 0) (seqZ 0 g)
           /\ Z.of_nat (length st.2) = world_size
           /\ Forall (mem_ok (width a) (height a)) st.2
           /\ exists me', load st.2 0 = Some me' /\ pm_last me' = B g)
        body 0 hi s) as ([out mems'] & Hrun & Hout & Hl' & Hm' & me' & Hme' & Hb')
  end.
  - lia.
  - cbn [fst snd]. split_and!; [done..|]. by exists me.
  - intros g [out ms] Hg (Hout & Hl & Hms & m0 & Hm0 & Hb). cbn [fst snd] in *.
    rewrite Hm0. cbn [mbind option_bind].
    destruct (Z.eqb_spec (print_modulo a) 0) as [|_]; [done|].
    assert (mem_ok (width a) (height a) m0) as Hok0.
    { apply load_inv in Hm0 as [_ Hlk]. by eapply Forall_lookup_1. }
    destruct (coordinator_iteration_spec (width a) (height a) world_size _ _ Hok
                ltac:(lia) Hs0 Hse Htab ms m0 Hl Hms Hm0)
      as (new & ms' & Hci & _ & Hnl & Hnew & Hl' & Hms' & Hm0').
    assert (cells new = B (g + 1)) as Hcells.
    { apply load_ext.
      - pose proof (board_at_length (width a) (height a) board (g + 1)
                      ltac:(lia) Hboard). lia.
      - intros j. destruct (decide (0 <= j < width a * height a)) as [Hj|Hj].
        + rewrite Hnew, Hb, board_at_succ, load_next_board by lia. done.
        + pose proof (board_at_length (width a) (height a) board (g + 1)
                        ltac:(lia) Hboard).
          unfold load. destruct (Z.leb_spec 0 j); [|done].
          rewrite !lookup_ge_None_2 by lia. done. }
    destruct (swap_buffers_spec (width a) (height a) new ms' m0 Hms' Hm0' Hok0 Hnl)
      as (ms'' & Hswap & Hl'' & Hms'' & Hm0'').
    unfold Int.rem.
    exists ((if Z.rem g (print_modulo a) =? 0 then out ++ [(g, pm_last m0)]
             else out), ms'').
    split.
    + destruct (Z.rem g (print_modulo a) =? 0); cbn [mbind option_bind];
        rewrite Hci; cbn [mbind option_bind]; rewrite Hswap; done.
    + cbn [fst snd]. split_and!; [|lia|done|].
      * rewrite printed_snoc by lia. rewrite Hout, Hb.
        destruct (Z.rem g (print_modulo a) =? 0); [done|by rewrite app_nil_r].
      * eexists. split; [done|]. done.
  - cbn [fst snd] in *. exists mems', me'. rewrite Hrun, Hout. by split_and!.
Qed.

End MainLoop.

Lemma initial_mems_ok width height world_size board :
  board_ok width height -> 1 <= world_size ->
  Z.of_nat (length board) = width * height ->
  Z.of_nat (length (initial_mems width height world_size board)) = world_size
  /\ Forall (mem_ok width height) (initial_mems width height world_size board)
  /\ load (initial_mems width height world_size board) 0
     = Some {| pm_last := board; pm_new := calloc_bool (Int.mul width height) |}.
Proof.
  intros Hok Hws Hlen. destruct (board_ok_cells _ _ Hok) as (HN & HNf & _).
  assert (Z.of_nat (length (calloc_bool (Int.mul width height))) = width * height)
    as Hcalloc.
  { unfold calloc_bool. rewrite length_replicate, mul_fits by done. lia. }
  unfold initial_mems. split_and!.
  - cbn [length]. rewrite length_replicate. lia.
  - apply Forall_cons. split; [done|]. by apply Forall_replicate.
  - done.
Qed.

(** X4.  The loop of main on rank 0, started with the board in
    [last_game_state] and anything in the other buffers of the ranks:
    it prints iteration g, for g from 0 to [iterations], exactly when
    g % print_modulo is 0, what it prints then is the board after g
    generations of the rule, whatever the number of ranks, and rank 0 ends
    with the board after [iterations] + 1 generations. *)
Theorem main_loop_prints (a : Args) (world_size : Z) (board : list bool)
    (mems : list ProcMem) (me : ProcMem) :
  board_ok (width a) (height a) ->
  1 <= world_size <= Int.INT_MAX ->
  print_modulo a <> 0 ->
  -1 <= iterations a < Int.INT_MAX ->
  Z.of_nat (length mems) = world_size ->
  Forall (mem_ok (width a) (height a)) mems ->
  load mems 0 = Some me -> pm_last me = board ->
  exists mems' me',
    main_loop a world_size (partition_spec (width a * height a) world_size) mems
    = Some (printed a board, mems')
    /\ load mems' 0 = Some me'
    /\ pm_last me' = board_at (width a) (height a) board (iterations a + 1).
Proof.
  intros Hok Hws Hpm Hit Hlen Hmems Hme Hlast.
  assert (Z.of_nat (length board) = width a * height a) as Hboard.
  { apply load_inv in Hme as [_ Hlk].
    destruct (Forall_lookup_1 _ _ _ _ Hmems Hlk) as [Hl _]. by rewrite <- Hlast. }
  destruct (main_loop_spec a world_size board Hok Hws Hboard Hpm Hit mems me)
    as (mems' & me' & Hrun & _ & _ & Hme' & Hb); [done..|].
  by exists mems', me'.
Qed.

Lemma main_loop_prints_witness :
  exists mems' me',
    main_loop demo_args 2 (partition_spec (3 * 3) 2)
      (initial_mems 3 3 2 demo_board)
    = Some (printed demo_args demo_board, mems')
    /\ load mems' 0 = Some me'
    /\ pm_last me' = board_at 3 3 demo_board (1 + 1).
Proof.
  apply (main_loop_prints demo_args 2 demo_board (initial_mems 3 3 2 demo_board)
           {| pm_last := demo_board; pm_new := calloc_bool (Int.mul 3 3) |}).
  - unfold board_ok, Int.INT_MAX. simpl. lia.
  - unfold Int.INT_MAX. lia.
  - simpl. lia.
  - unfold Int.INT_MAX. simpl. lia.
  - reflexivity.
  - repeat constructor.
  - reflexivity.
  - reflexivity.
Defined.

(** X5.  main on rank 0 with six arguments that describe a board that
    fits, a non-zero print interval and a number of live cells and of
    iterations that are not negative: the run writes nothing to stderr,
    ends with status 0 after [iterations] + 1 passes of the loop, and
    prints the successive generations of the board [fill_game_field] made,
    which has [live_cells] live cells (all cells, when there are fewer). *)
Theorem main_rank0_run (rand : nat -> Z) (argc : Z) (argv : list string)
    (world_size : Z) (err : list string) (a : Args) :
  read_args argc argv 0 = Some (err, Returned a) ->
  board_ok (width a) (height a) ->
  1 <= world_size <= Int.INT_MAX ->
  print_modulo a <> 0 ->
  0 <= iterations a < Int.INT_MAX ->
  0 <= live_cells a <= Int.INT_MAX ->
  exists board rest,
    fillRandom rand (width a) (height a) (live_cells a) = Some board
    /\ count_true board = Z.min (live_cells a) (width a * height a)
    /\ main_rank0 rand argc argv world_size
       = Some {| stderr := []; stdout := (0, board) :: rest; status := 0;
                 generations := iterations a + 1 |}
    /\ (0, board) :: rest = printed a board.
Proof.
  intros Hread Hok Hws Hpm Hit Hlive.
  destruct (board_ok_cells _ _ Hok) as (HN & HNf & _).
  pose proof Hok as (Hw & Hh & _).
  assert (width a * height a <= Int.INT_MAX) as HNmax
    by (unfold Int.fits in HNf; lia).
  assert (err = []) as ->.
  { unfold read_args in Hread. destruct (negb (argc =? 6) && (0 =? 0)).
    - destruct (load argv 0); discriminate.
    - destruct (load argv 1); [|discriminate].
      destruct (load argv 2); [|discriminate].
      destruct (load argv 3); [|discriminate].
      destruct (load argv 4); [|discriminate].
      destruct (load argv 5); [|discriminate].
      by injection Hread as <- _. }
  assert (exists board,
            fillRandom rand (width a) (height a) (live_cells a) = Some board
            /\ Z.of_nat (length board) = width a * height a
            /\ count_true board = Z.min (live_cells a) (width a * height a))
    as (board & Hfill & Hlen & Hcount).
  { destruct (Z_lt_le_dec (live_cells a) (width a * height a)) as [Hlt|Hge].
    - destruct (fillRandom_fewer rand (width a) (height a) (live_cells a)
                  Hw Hh HNmax Hlive Hlt) as (f & Hf & Hl & Hc).
      exists f. split_and!; [done..|lia].
    - exists (replicate (Z.to_nat (width a * height a)) true). split_and!.
      + by apply fillRandom_all.
      + rewrite length_replicate. lia.
      + rewrite count_true_replicate_true. lia. }
  destruct (initial_mems_ok (width a) (height a) world_size board Hok
              ltac:(lia) Hlen) as (Hml & Hmok & Hm0).
  destruct (main_loop_spec a world_size board Hok Hws Hlen Hpm ltac:(lia)
              (initial_mems (width a) (height a) world_size board) _
              Hml Hmok Hm0 eq_refl)
    as (mems' & me' & Hrun & _).
  assert (exists rest, printed a board = (0, board) :: rest) as [rest Hrest].
  { unfold printed. rewrite seqZ_cons by lia.
    rewrite filter_cons_True by (by rewrite Z.rem_0_l).
    rewrite fmap_cons. eexists. done. }
  exists board, rest. split_and!; [done..| |done].
  unfold main_rank0. rewrite Hread. cbn [mbind option_bind].
  rewrite Hfill. cbn [mbind option_bind].
  rewrite setup_proc_data_spec by lia. cbn [mbind option_bind].
  rewrite Hrun. cbn [mbind option_bind]. rewrite Hrest.
  rewrite add_fits by (unfold Int.fits, Int.INT_MIN, Int.INT_MAX in *; lia).
  by rewrite Z.max_r by lia.
Qed.

Lemma main_rank0_run_witness :
  exists board rest,
    fillRandom (fun k => 7 * Z.of_nat k + 3) 3 3 3 = Some board
    /\ count_true board = Z.min 3 (3 * 3)
    /\ main_rank0 (fun k => 7 * Z.of_nat k + 3) 6
         ["life"; "3"; "1"; "1"; "3"; "3"] 2
       = Some {| stderr := []; stdout := (0, board) :: rest; status := 0;
                 generations := 1 + 1 |}
    /\ (0, board) :: rest = printed demo_args board.
Proof.
  apply (main_rank0_run (fun k => 7 * Z.of_nat k + 3) 6
           ["life"; "3"; "1"; "1"; "3"; "3"] 2 [] demo_args).
  - reflexivity.
  - unfold board_ok, Int.INT_MAX. simpl. lia.
  - unfold Int.INT_MAX. lia.
  - simpl. lia.
  - unfold Int.INT_MAX. simpl. lia.
  - unfold Int.INT_MAX. simpl. lia.
Defined.

(** X6.  A print interval of 0 is not caught: with six arguments, of which
    the third reads as 0, and at least one pass of the loop to make, rank 0
    evaluates [iteration % 0] in the first pass, whatever the other
    arguments are. *)
Theorem print_modulo_zero_divides (rand : nat -> Z) (argc : Z)
    (argv : list string) (world_size : Z) (err : list string) (a : Args) :
  read_args argc argv 0 = Some (err, Returned a) ->
  print_modulo a = 0 ->
  0 <= iterations a < Int.INT_MAX ->
  main_rank0 rand argc argv world_size = None.
Proof.
  intros Hread Hpm Hit. unfold main_rank0. rewrite Hread.
  cbn [mbind option_bind].
  destruct (fillRandom _ _ _ _) as [board|]; [|done]. cbn [mbind option_bind].
  destruct (setup_proc_data _ _ _) as [proc_data|]; [|done].
  cbn [mbind option_bind].
  unfold main_loop. rewrite (for_range_fails _ 0 _ 0); [done| |].
  - rewrite add_fits by (unfold Int.fits, Int.INT_MIN, Int.INT_MAX in *; lia).
    lia.
  - intros [out mems]. rewrite Hpm. by destruct (load mems 0).
Qed.

Lemma print_modulo_zero_divides_witness :
  main_rank0 (fun k => 7 * Z.of_nat k + 3) 6
    ["life"; "3"; "1"; "0"; "3"; "3"] 2 = None.
Proof.
  apply (print_modulo_zero_divides (fun k => 7 * Z.of_nat k + 3) 6
           ["life"; "3"; "1"; "0"; "3"; "3"] 2 []
           {| live_cells := 3; iterations := 1; print_modulo := 0; width := 3;
              height := 3 |}).
  - reflexivity.
  - reflexivity.
  - unfold Int.INT_MAX. simpl. lia.
Defined.

(** ** Boards that do not change *)

Lemma cell_at_dead n cell : cell_at (calloc_bool n) cell = false.
Proof.
  unfold cell_at, calloc_bool, load. destruct (0 <=? cell); [|done].
  destruct (replicate (Z.to_nat n) false !! Z.to_nat cell) as [b|] eqn:Hb; [|done].
  by apply lookup_replicate in Hb as [-> _].
Qed.

Lemma nextState_dead n cell width height :
  nextState_spec cell (calloc_bool n) width height = false.
Proof.
  unfold nextState_spec. rewrite cell_at_dead.
  replace (liveNeighbors cell (calloc_bool n) width height) with 0; [done|].
  unfold liveNeighbors, spec_offsets.
  rewrite !filter_cons_False, filter_nil;
    [done|unfold is_live_neighbor; rewrite cell_at_dead, andb_false_r; done..].
Qed.

Lemma next_board_dead width height :
  next_board width height (calloc_bool (width * height))
  = calloc_bool (width * height).
Proof.
  unfold next_board. apply list_eq. intros k.
  rewrite list_lookup_fmap. unfold calloc_bool at 2.
  destruct (decide (k < Z.to_nat (width * height))%nat) as [Hk|Hk].
  - rewrite lookup_replicate_2 by done.
    rewrite lookup_seqZ_lt by lia. cbn. by rewrite nextState_dead.
  - rewrite lookup_seqZ_ge by lia.
    rewrite lookup_ge_None_2 by (rewrite length_replicate; lia). done.
Qed.

(** X7.  The board without a live cell is a fixed point of the program:
    one generation on any number of ranks gives it back, and so does any
    number of generations. *)
Theorem dead_board_stays_dead (width height world_size : Z) :
  board_ok width height -> 1 <= world_size <= Int.INT_MAX ->
  generation width height world_size (calloc_bool (Int.mul width height))
  = Some (calloc_bool (Int.mul width height))
  /\ forall g, board_at width height (calloc_bool (Int.mul width height)) g
               = calloc_bool (Int.mul width height).
Proof.
  intros Hok Hws. destruct (board_ok_cells _ _ Hok) as (HN & HNf & _).
  rewrite mul_fits by done. split.
  - rewrite generation_spec; [|done..|].
    + f_equal. apply next_board_dead.
    + unfold calloc_bool. rewrite length_replicate. lia.
  - intros g. unfold board_at. induction (Z.to_nat g) as [|n IH]; [done|].
    rewrite Nat.iter_succ, IH. apply next_board_dead.
Qed.

Lemma dead_board_stays_dead_witness :
  generation 4 3 5 (calloc_bool (Int.mul 4 3)) = Some (calloc_bool (Int.mul 4 3)).
Proof.
  apply (dead_board_stays_dead 4 3 5).
  - unfold board_ok, Int.INT_MAX. lia.
  - unfold Int.INT_MAX. lia.
Defined.

Lemma block_inside width height R C r c :
  0 <= R <= height - 2 -> 0 <= C <= width - 2 ->
  block R C r c = true -> in_board2 width height r c = true.
Proof.
  unfold block, in_board2. intros HR HC.
  rewrite !andb_true_iff, !Z.leb_le, !Z.ltb_lt. lia.
Qed.

Lemma block_next width height R C cell :
  board_ok width height -> 3 <= width ->
  0 <= R <= height - 2 -> 0 <= C <= width - 2 ->
  0 <= cell < width * height ->
  nextState_spec cell (board2 width height (block R C)) width height
  = block R C (row_of width cell) (col_of width cell).
Proof.
  intros Hok Hw3 HR HC Hc. pose proof Hok as (Hw & Hh & _).
  unfold nextState_spec.
  rewrite liveNeighbors_2d by (done || apply board2_length; lia).
  rewrite cell_at_board2 by done.
  unfold steps. cbn [foldr fst snd].
  rewrite !live_at_inside by (done || apply block_inside; lia).
  generalize (row_of width cell) (col_of width cell). intros r c.
  unfold block.
  destruct (around r R) as [?|[?|[?|[?|[?|[?|?]]]]]];
    destruct (around c C) as [?|[?|[?|[?|[?|[?|?]]]]]];
    settle_comparisons; reflexivity.
Qed.

(** X8.  The block, four live cells in a square anywhere on a board at
    least three cells wide (also against an edge or in a corner), is a
    still life of the program on any number of ranks. *)
Theorem block_is_still (width height world_size R C : Z) :
  board_ok width height -> 1 <= world_size <= Int.INT_MAX ->
  3 <= width -> 0 <= R <= height - 2 -> 0 <= C <= width - 2 ->
  generation width height world_size (board2 width height (block R C))
  = Some (board2 width height (block R C)).
Proof.
  intros Hok Hws Hw3 HR HC. destruct (board_ok_cells _ _ Hok) as (HN & _).
  rewrite generation_spec by (done || apply board2_length; lia).
  f_equal. unfold board2 at 2. apply list_fmap_ext.
  intros i j [-> Hj]%lookup_seqZ. apply block_next; [done..|lia].
Qed.

Lemma block_is_still_witness :
  generation 4 3 2 (board2 4 3 (block 0 2)) = Some (board2 4 3 (block 0 2)).
Proof.
  apply (block_is_still 4 3 2 0 2).
  - unfold board_ok, Int.INT_MAX. lia.
  - unfold Int.INT_MAX. lia.
  - lia.
  - lia.
  - lia.
Defined.

(** ** Boards one column wide *)

Lemma cell_at_lone n cell i :
  0 <= cell < n -> cell_at (lone_cell n cell) i = (i =? cell).
Proof.
  intros Hc. unfold cell_at, lone_cell, load.
  destruct (Z.leb_spec 0 i) as [Hi|Hi].
  - rewrite list_lookup_fmap.
    destruct (decide (i < n)) as [Hlt|Hge].
    + rewrite lookup_seqZ_lt by lia. cbn. by rewrite Z2Nat.id by lia.
    + rewrite lookup_seqZ_ge by lia. cbn. symmetry. apply Z.eqb_neq. lia.
  - cbn. symmetry. apply Z.eqb_neq. lia.
Qed.

Lemma is_live_neighbor_lone height cell i off :
  0 <= cell < height ->
  is_live_neighbor i (lone_cell height cell) 1 height off = (i + off =? cell).
Proof.
  intros Hc. unfold is_live_neighbor, passes_edges.
  rewrite cell_at_lone, !Z.mod_1_r by done.
  destruct (Z.eqb_spec (i + off) cell) as [Heq|Hne]; [|by rewrite andb_false_r].
  rewrite Z.mul_1_l.
  destruct (Z.leb_spec 0 (i + off)); [|lia].
  destruct (Z.ltb_spec (i + off) height); [|lia]. done.
Qed.

Lemma lone_cell_next height cell i :
  0 <= cell < height ->
  nextState_spec i (lone_cell height cell) 1 height = (i =? cell).
Proof.
  intros Hc. unfold nextState_spec, liveNeighbors.
  rewrite length_filter_sum, cell_at_lone by done.
  unfold spec_offsets. cbn [foldr].
  rewrite !is_live_neighbor_lone by done.
  destruct (around i cell) as [?|[?|[?|[?|[?|[?|?]]]]]];
    settle_comparisons; reflexivity.
Qed.

(** X9.  On a board one column wide the offset table holds 0 twice, so a
    live cell counts itself as two of its neighbours: a single live cell
    does not die, and the board with one live cell is a fixed point of the
    program. *)
Theorem lone_cell_survives_in_one_column (height world_size cell : Z) :
  board_ok 1 height -> 1 <= world_size <= Int.INT_MAX ->
  0 <= cell < height ->
  generation 1 height world_size (lone_cell height cell)
  = Some (lone_cell height cell).
Proof.
  intros Hok Hws Hc.
  rewrite generation_spec; [|done..|].
  - f_equal. rewrite Z.mul_1_l. unfold lone_cell at 2. apply list_fmap_ext.
    intros k j _. by apply lone_cell_next.
  - unfold lone_cell. rewrite length_fmap, length_seqZ. lia.
Qed.

Lemma lone_cell_survives_in_one_column_witness :
  generation 1 5 2 (lone_cell 5 2) = Some (lone_cell 5 2).
Proof.
  apply (lone_cell_survives_in_one_column 5 2 2).
  - unfold board_ok, Int.INT_MAX. lia.
  - unfold Int.INT_MAX. lia.
  - lia.
Defined.

(** ** apply_rules and the bounds of the board *)

Lemma load_outside {A} (a : list A) i :
  ~ 0 <= i < Z.of_nat (length a) -> load a i = None.
Proof.
  intros Hi. unfold load. destruct (Z.leb_spec 0 i); [|done].
  apply lookup_ge_None_2. lia.
Qed.

Lemma apply_rules_cell_outside last offs width height cell :
  ~ 0 <= cell < Z.of_nat (length last) ->
  apply_rules_cell last offs width height cell = None.
Proof.
  intros Hc. unfold apply_rules_cell.
  destruct (count_alive_adj last offs width height cell); [|done].
  cbn [mbind option_bind]. by rewrite load_outside.
Qed.

(** X10.  [apply_rules] on a partition that is not empty stays inside its
    two buffers exactly when the partition lies on the board: a partition
    that starts before cell 0 or ends after the last cell makes it read
    outside [last_game_state]. *)
Theorem apply_rules_in_bounds (proc_data : list ProcInfo) (last : list bool)
    (new : Buf) (world_rank width height : Z) (me : ProcInfo) :
  board_ok width height ->
  Z.of_nat (length last) = width * height ->
  Z.of_nat (length (cells new)) = width * height ->
  load proc_data world_rank = Some me ->
  0 < num_cells me ->
  Int.fits (offset me) -> Int.fits (offset me + num_cells me) ->
  is_Some (apply_rules proc_data last new world_rank (adjacency_offsets width)
             width height)
  <-> 0 <= offset me /\ offset me + num_cells me <= width * height.
Proof.
  intros Hok Hlast Hnew Hme Hnum Hoff Hend. split.
  - intros Hrun.
    destruct (decide (0 <= offset me /\ offset me + num_cells me <= width * height))
      as [|Hout]; [done|]. exfalso.
    destruct Hrun as [new' Hrun]. revert Hrun.
    unfold apply_rules. rewrite Hme. cbn [mbind option_bind].
    set (idx := if decide (offset me < 0) then 0
                else Z.max 0 (width * height - offset me)).
    assert (0 <= idx < num_cells me
            /\ ~ 0 <= offset me + idx < Z.of_nat (length last)) as [Hidx Hcell]
      by (unfold idx; case_decide; lia).
    rewrite (for_range_fails _ 0 _ idx); [done|lia|].
    intros s. cbv zeta.
    rewrite add_fits by (unfold Int.fits in *; lia).
    rewrite apply_rules_cell_outside by done. done.
  - intros [Hlo Hhi].
    destruct (apply_rules_spec proc_data last new world_rank width height me)
      as (new' & -> & _); [done..|lia|done|]. done.
Qed.

Lemma apply_rules_in_bounds_witness :
  is_Some (apply_rules demo_table demo_board (fresh (calloc_bool 9)) 1
             (adjacency_offsets 3) 3 3)
  <-> 0 <= 4 /\ 4 + 5 <= 3 * 3.
Proof.
  apply (apply_rules_in_bounds demo_table demo_board (fresh (calloc_bool 9)) 1
           3 3 {| offset := 4; num_cells := 5 |}).
  - unfold board_ok, Int.INT_MAX. lia.
  - reflexivity.
  - reflexivity.
  - reflexivity.
  - simpl. lia.
  - unfold Int.fits, Int.INT_MIN, Int.INT_MAX. simpl. lia.
  - unfold Int.fits, Int.INT_MIN, Int.INT_MAX. simpl. lia.
Defined.

(** ** setup_proc_data with more ranks than cells *)

(** X11.  When there are more ranks than cells, every rank but the last
    gets an empty partition at offset 0, rank 0 among them when there is
    another rank, and the last rank gets the whole board. *)
Theorem more_ranks_than_cells (width height world_size : Z) :
  1 <= width * height <= Int.INT_MAX ->
  width * height < world_size <= Int.INT_MAX ->
  setup_proc_data width height world_size
  = Some (replicate (Z.to_nat (world_size - 1)) {| offset := 0; num_cells := 0 |}
          ++ [ {| offset := 0; num_cells := width * height |} ]).
Proof.
  intros HN Hws. rewrite setup_proc_data_spec by lia. f_equal.
  unfold partition_spec.
  rewrite Z.div_small, Z.mod_small by lia. rewrite Z.mul_0_l, Z.add_0_l.
  f_equal. apply list_eq. intros k. rewrite list_lookup_fmap.
  destruct (decide (k < Z.to_nat (world_size - 1))%nat) as [Hk|Hk].
  - rewrite lookup_seqZ_lt, lookup_replicate_2 by lia. cbn.
    by rewrite Z.mul_0_r.
  - rewrite lookup_seqZ_ge by lia.
    rewrite lookup_ge_None_2 by (rewrite length_replicate; lia). done.
Qed.

Lemma more_ranks_than_cells_witness :
  setup_proc_data 2 1 4
  = Some (replicate (Z.to_nat (4 - 1)) {| offset := 0; num_cells := 0 |}
          ++ [ {| offset := 0; num_cells := 2 * 1 |} ]).
Proof.
  apply (more_ranks_than_cells 2 1 4).
  - unfold Int.INT_MAX. lia.
  - unfold Int.INT_MAX. lia.
Defined.

(** ** fill_game_field on any field *)

Section FillAny.
Context (rand : nat -> Z) (width height live_cells : Z) (field0 : list bool).
Hypothesis Hw : 0 < width.
Hypothesis Hh : 0 < height.
Hypothesis HN : width * height <= Int.INT_MAX.
Hypothesis Hlive : 0 <= live_cells <= Int.INT_MAX.
Hypothesis Hlen : Z.of_nat (length field0) = width * height.

Lemma fill_game_field_spec :
  exists f, fill_game_field rand field0 width height live_cells = Some f
    /\ length f = length field0
    /\ (forall j, load field0 j = Some true -> load f j = Some true)
    /\ (live_cells < width * height ->
        load f (width * height - 1) = load field0 (width * height - 1)).
Proof using All.
  unfold fill_game_field.
  assert (0 < width * height) as HNpos by nia.
  unfold Int.INT_MAX in *.
  rewrite !mul_fits by (unfold Int.fits, Int.INT_MIN, Int.INT_MAX; lia).
  set (N := width * height) in *.
  match goal with
  | |- context [for_range ?lo ?hi ?body ?s] =>
      destruct (for_range_inv
        (fun i (st : FillState) =>
           length (field st) = length field0
           /\ (forall j, load field0 j = Some true -> load (field st) j = Some true)
           /\ 0 <= cells_to_generate st <= live_cells
           /\ (live_cells < N ->
               load (field st) (N - 1) = load field0 (N - 1)
               /\ (0 < cells_to_generate st -> cells_to_generate st <= N - i - 1)))
        body lo hi s) as (st & -> & Hl & Hmono & _ & Hlast)
  end.
  - lia.
  - cbn. split_and!; [done|done|lia|lia|]. intros Hlt. split; [done|lia].
  - intros i st Hi (Hl & Hmono & Hc & Hlast).
    assert (forall calls, 0 < cells_to_generate st ->
              (live_cells < N -> i <> N - 1) ->
              exists st', fill_cell st i calls = Some st'
                /\ length (field st') = length field0
                /\ (forall j, load field0 j = Some true ->
                      load (field st') j = Some true)
                /\ 0 <= cells_to_generate st' <= live_cells
                /\ (live_cells < N ->
                    load (field st') (N - 1) = load field0 (N - 1)
                    /\ (0 < cells_to_generate st' ->
                        cells_to_generate st' <= N - (i + 1) - 1))) as Hfill.
    { intros calls Hpos Hne. unfold fill_cell.
      destruct (store (field st) i true) as [f'|] eqn:Hst;
        [|by rewrite store_Some in Hst by lia].
      pose proof (fun j => load_store _ _ _ _ j Hst) as Hf'.
      apply store_inv in Hst as [_ ->]. cbn [mbind option_bind].
      eexists. split; [done|]. cbn [field cells_to_generate].
      rewrite sub_fits by (unfold Int.fits, Int.INT_MIN, Int.INT_MAX; lia).
      split_and!; [by rewrite length_insert| |lia|lia|].
      - intros j Hj. rewrite (Hf' j). case_decide; [done|by apply Hmono].
      - intros Hlt. destruct (Hlast Hlt) as [Hcell Hbound].
        split; [|lia]. rewrite (Hf' (N - 1)).
        case_decide as Heq; [by destruct (Hne Hlt)|done]. }
    destruct (Z.ltb_spec 0 (cells_to_generate st)) as [Hpos|Hzero].
    + rewrite add_fits, sub_fits by (unfold Int.fits, Int.INT_MIN, Int.INT_MAX; lia).
      assert (live_cells < N -> i <> N - 1) as Hne.
      { intros Hlt. destruct (Hlast Hlt) as [_ Hbound]. specialize (Hbound Hpos). lia. }
      destruct (Z.eqb_spec (N - (i + 1)) (cells_to_generate st)) as [Heq|Hneq].
      * by apply Hfill.
      * destruct (Z.ltb_spec (Int.rem (rand (rand_calls st)) N) live_cells).
        -- by apply Hfill.
        -- eexists. split; [done|]. cbn [field cells_to_generate].
           split_and!; [done|done|lia|lia|].
           intros Hlt. destruct (Hlast Hlt) as [Hcell Hbound]. split; [done|lia].
    + exists st. split; [done|]. split_and!; [done|done|lia|lia|].
      intros Hlt. destruct (Hlast Hlt) as [Hcell Hbound]. split; [done|lia].
  - cbn [mbind option_bind]. exists (field st). split_and!; [done..|].
    intros Hlt. by destruct (Hlast Hlt).
Qed.

End FillAny.

(** X12.  Unless every cell is asked to be live, [fill_game_field] leaves
    the last cell of a fresh field dead, whatever [rand] returns: the
    forced filling of the remaining cells is tested one cell early, so the
    cells to generate are used up before the loop reaches the last cell. *)
Theorem fillRandom_last_cell_dead (rand : nat -> Z)
    (width height live_cells : Z) :
  0 < width -> 0 < height -> width * height <= Int.INT_MAX ->
  0 <= live_cells < width * height ->
  exists f, fillRandom rand width height live_cells = Some f
    /\ load f (width * height - 1) = Some false.
Proof.
  intros Hw Hh HN Hlive. unfold fillRandom.
  assert (Int.mul width height = width * height) as HNf
    by (apply mul_fits; unfold Int.fits, Int.INT_MIN, Int.INT_MAX in *; nia).
  assert (Z.of_nat (length (calloc_bool (Int.mul width height))) = width * height)
    as Hlen.
  { unfold calloc_bool. rewrite length_replicate, HNf. nia. }
  destruct (fill_game_field_spec rand width height live_cells
              (calloc_bool (Int.mul width height)) Hw Hh HN
              ltac:(unfold Int.INT_MAX in *; lia) Hlen)
    as (f & Hrun & _ & _ & Hlast).
  exists f. split; [done|]. rewrite Hlast by lia.
  unfold calloc_bool. rewrite load_lookup by nia.
  apply lookup_replicate_2. rewrite HNf. nia.
Qed.

Lemma fillRandom_last_cell_dead_witness :
  exists f, fillRandom (fun _ => 0) 4 3 11 = Some f
    /\ load f (4 * 3 - 1) = Some false.
Proof.
  apply (fillRandom_last_cell_dead (fun _ => 0) 4 3 11).
  - lia.
  - lia.
  - unfold Int.INT_MAX. lia.
  - lia.
Defined.

(** X13.  [fill_game_field] on a field that already holds live cells,
    with a number of live cells that is not negative: it returns without
    leaving the field, keeps the field's size and never clears a cell. *)
Theorem fill_game_field_only_adds (rand : nat -> Z) (field0 : list bool)
    (width height live_cells : Z) :
  0 < width -> 0 < height -> width * height <= Int.INT_MAX ->
  0 <= live_cells <= Int.INT_MAX ->
  Z.of_nat (length field0) = width * height ->
  exists f, fill_game_field rand field0 width height live_cells = Some f
    /\ length f = length field0
    /\ forall j, load field0 j = Some true -> load f j = Some true.
Proof.
  intros Hw Hh HN Hlive Hlen.
  destruct (fill_game_field_spec rand width height live_cells field0
              Hw Hh HN Hlive Hlen) as (f & Hrun & Hl & Hmono & _).
  by exists f.
Qed.

Lemma fill_game_field_only_adds_witness :
  exists f,
    fill_game_field (fun k => 7 * Z.of_nat k + 3) [false; true; false; false]
      2 2 1 = Some f
    /\ load f 1 = Some true.
Proof.
  destruct (fill_game_field_only_adds (fun k => 7 * Z.of_nat k + 3)
              [false; true; false; false] 2 2 1) as (f & Hrun & _ & Hmono).
  - lia.
  - lia.
  - unfold Int.INT_MAX. lia.
  - unfold Int.INT_MAX. lia.
  - reflexivity.
  - exists f. split; [exact Hrun|]. apply Hmono. reflexivity.
Defined.

(** ** read_args on the other ranks *)

(** X14.  The test of the argument count is made on rank 0 only: on every
    other rank a command line of fewer than six entries makes [read_args]
    go on and read an [argv] entry that is not there. *)
Theorem read_args_reads_missing_argument (argc : Z) (argv : list string)
    (proc_id : Z) :
  proc_id <> 0 -> (length argv < 6)%nat ->
  read_args argc argv proc_id = None.
Proof.
  intros Hrank Hlen. unfold read_args.
  destruct (Z.eqb_spec proc_id 0) as [|_]; [done|]. rewrite andb_false_r.
  assert (load argv 5 = None) as H5
    by (apply load_outside; lia).
  destruct (load argv 1); [|done]. destruct (load argv 2); [|done].
  destruct (load argv 3); [|done]. destruct (load argv 4); [|done].
  cbn [mbind option_bind]. by rewrite H5.
Qed.

Lemma read_args_reads_missing_argument_witness :
  read_args 3 ["life"; "3"; "1"] 1 = None.
Proof.
  apply (read_args_reads_missing_argument 3 ["life"; "3"; "1"] 1).
  - lia.
  - simpl. lia.
Defined.

(** ** The workers and their buffers *)

Lemma worker_iteration_last proc_data world_rank world mem width height msg mem' :
  board_ok width height ->
  Z.of_nat (length world) = width * height ->
  Z.of_nat (length (pm_last mem)) = width * height ->
  worker_iteration proc_data world_rank world mem width height = Some (msg, mem') ->
  pm_last mem' = world.
Proof.
  intros Hok Hworld Hlast. destruct (board_ok_cells _ _ Hok) as (_ & HNf & _).
  unfold worker_iteration. rewrite mul_fits by done.
  destruct (mpi_recv _ _ _ _) as [last|] eqn:Hrecv; [|done].
  apply mpi_recv_whole in Hrecv; [|done..]. cbn [mbind option_bind].
  destruct (apply_rules _ _ _ _ _ _ _) as [new|]; [|done].
  cbn [mbind option_bind]. destruct (load proc_data world_rank) as [me|]; [|done].
  cbn [mbind option_bind]. destruct (mpi_send _ _ _) as [m|]; [|done].
  cbn [mbind option_bind]. intros [= _ <-]. done.
Qed.

(** X15.  What a worker sends back, and the board it holds afterwards,
    depend on the board it received only: whatever its two buffers held
    before (the cells of earlier iterations, or anything else), the answer
    is the next state of the cells of its partition and its
    [last_game_state] is the board received. *)
Theorem worker_answer_ignores_buffers (proc_data : list ProcInfo)
    (world_rank : Z) (world : list bool) (mem1 mem2 : ProcMem)
    (width height : Z) (me : ProcInfo) :
  board_ok width height ->
  Z.of_nat (length world) = width * height ->
  mem_ok width height mem1 -> mem_ok width height mem2 ->
  load proc_data world_rank = Some me ->
  0 <= offset me -> 0 <= num_cells me ->
  offset me + num_cells me <= width * height ->
  exists msg mem1' mem2',
    worker_iteration proc_data world_rank world mem1 width height
    = Some (msg, mem1')
    /\ worker_iteration proc_data world_rank world mem2 width height
       = Some (msg, mem2')
    /\ pm_last mem1' = world /\ pm_last mem2' = world
    /\ msg = (fun j => nextState_spec j world width height)
               <$> seqZ (offset me) (num_cells me).
Proof.
  intros Hok Hworld Hm1 Hm2 Hme Hoff Hnum Hend.
  destruct (worker_iteration_spec proc_data world_rank world mem1 width height me)
    as (msg1 & mem1' & Hrun1 & Hl1 & Hmsg1 & _); [done..|].
  destruct (worker_iteration_spec proc_data world_rank world mem2 width height me)
    as (msg2 & mem2' & Hrun2 & Hl2 & Hmsg2 & _); [done..|].
  assert (forall msg, Z.of_nat (length msg) = num_cells me ->
            (forall k : nat, Z.of_nat k < num_cells me ->
               msg !! k
               = Some (nextState_spec (offset me + Z.of_nat k) world width height)) ->
            msg = (fun j => nextState_spec j world width height)
                    <$> seqZ (offset me) (num_cells me)) as Hslice.
  { intros msg Hl Hmsg. apply list_eq. intros k. rewrite list_lookup_fmap.
    destruct (decide (Z.of_nat k < num_cells me)) as [Hk|Hk].
    - rewrite Hmsg, lookup_seqZ_lt by lia. done.
    - rewrite lookup_seqZ_ge by lia. apply lookup_ge_None_2. lia. }
  exists msg1, mem1', mem2'.
  rewrite Hrun1, Hrun2, (Hslice msg1), (Hslice msg2) by done.
  split_and!; [done|done| | |done].
  - eapply worker_iteration_last; [done|done| |exact Hrun1]. by destruct Hm1.
  - eapply worker_iteration_last; [done|done| |exact Hrun2]. by destruct Hm2.
Qed.

Lemma worker_answer_ignores_buffers_witness :
  exists msg mem1' mem2',
    worker_iteration demo_table 1 demo_board
      {| pm_last := calloc_bool 9; pm_new := calloc_bool 9 |} 3 3
    = Some (msg, mem1')
    /\ worker_iteration demo_table 1 demo_board
         {| pm_last := demo_board; pm_new := replicate 9 true |} 3 3
       = Some (msg, mem2').
Proof.
  destruct (worker_answer_ignores_buffers demo_table 1 demo_board
              {| pm_last := calloc_bool 9; pm_new := calloc_bool 9 |}
              {| pm_last := demo_board; pm_new := replicate 9 true |}
              3 3 {| offset := 4; num_cells := 5 |})
    as (msg & mem1' & mem2' & Hrun1 & Hrun2 & _).
  - unfold board_ok, Int.INT_MAX. lia.
  - reflexivity.
  - split; reflexivity.
  - split; reflexivity.
  - reflexivity.
  - simpl. lia.
  - simpl. lia.
  - simpl. lia.
  - exists msg, mem1', mem2'. split; [exact Hrun1 | exact Hrun2].
Defined.

(** ** Sending a partition *)

(** X16.  A partition sent from one buffer (line 163) and received at the
    same offset of another (line 143) is copied cell for cell: the
    receiver stores to the cells of the partition, in order and once each,
    they become the sender's, and every other cell of the receiver keeps
    its value. *)
Theorem send_then_receive_copies_partition (src dst : list bool) (off n : Z) :
  0 <= off -> 0 <= n ->
  off + n <= Z.of_nat (length src) -> off + n <= Z.of_nat (length dst) ->
  exists msg new,
    mpi_send src off n = Some msg
    /\ mpi_recv (fresh dst) off n msg = Some new
    /\ writes new = seqZ off n
    /\ length (cells new) = length dst
    /\ (forall j, off <= j < off + n -> load (cells new) j = load src j)
    /\ (forall j, ~ off <= j < off + n -> load (cells new) j = load dst j).
Proof.
  intros Hoff Hn Hsrc Hdst.
  destruct (mpi_send_spec src off n) as (msg & Hsend & Hl & Hmsg); [done..|].
  destruct (mpi_recv_spec (fresh dst) off n msg)
    as (new & Hrecv & Hw & Hlen & Hin & Hout); [done..|].
  exists msg, new. split_and!; [done..| |done].
  intros j Hj. replace j with (off + Z.of_nat (Z.to_nat (j - off))) by lia.
  rewrite Hin, Hmsg by lia. done.
Qed.

Lemma send_then_receive_copies_partition_witness :
  exists msg new,
    mpi_send [true; false; true; true] 1 2 = Some msg
    /\ mpi_recv (fresh [false; false; false; false]) 1 2 msg = Some new
    /\ cells new = [false; false; true; false].
Proof.
  destruct (send_then_receive_copies_partition [true; false; true; true]
              [false; false; false; false] 1 2)
    as (msg & new & Hsend & Hrecv & _).
  - lia.
  - lia.
  - simpl. lia.
  - simpl. lia.
  - exists msg, new. split; [exact Hsend|]. split; [exact Hrecv|].
    revert Hrecv. injection Hsend as <-. intros [= <-]. reflexivity.
Defined.

(** ** The processes side by side: messages and progress *)

(** What every reachable state of the program satisfies. *)
Lemma reachable_inv (a : Args) (world_size : Z) (proc_data : list ProcInfo)
    (board : list bool) (s : World) :
  board_ok (width a) (height a) ->
  1 <= world_size <= Int.INT_MAX ->
  setup_proc_data (width a) (height a) world_size = Some proc_data ->
  Z.of_nat (length board) = width a * height a ->
  reachable a world_size proc_data board s ->
  proc_data = partition_spec (width a * height a) world_size
  /\ separated world_size (procs s) /\ counted a world_size (procs s)
  /\ holds a world_size board s.
Proof.
  intros Hok Hws Hsetup Hboard Hreach.
  destruct (board_ok_cells _ _ Hok) as (HN & HNf & _).
  rewrite setup_proc_data_spec in Hsetup by (unfold Int.fits in HNf; lia).
  injection Hsetup as <-. split; [done|]. by apply holds_reachable.
Qed.

Lemma sent_got_finished world_size r :
  0 < r < world_size ->
  sent world_size Finished r = false /\ got world_size Finished r = false.
Proof.
  intros Hr. unfold sent, got, progress. split; apply Z.ltb_ge; lia.
Qed.



(** X18.  When rank 0 has left the loop, no message is left in either
    stream: every board sent has been received and every answer merged. *)
Theorem no_message_left_at_the_end (a : Args) (world_size : Z)
    (proc_data : list ProcInfo) (board : list bool) (s : World) (r : Z) :
  board_ok (width a) (height a) ->
  1 <= world_size <= Int.INT_MAX ->
  setup_proc_data (width a) (height a) world_size = Some proc_data ->
  Z.of_nat (length board) = width a * height a ->
  reachable a world_size proc_data board s ->
  pc (procs s 0) = Finished ->
  0 < r < world_size ->
  to_worker s r = [] /\ to_coord s r = [].
Proof.
  intros Hok Hws Hsetup Hboard Hreach Hfin Hr.
  destruct (reachable_inv a world_size proc_data board s)
    as (_ & Hsep & Hcnt & _ & Hwi); [done..|].
  destruct (Hwi r Hr) as (_ & Hahead & Hbehind & Hsame).
  destruct (sent_got_finished world_size r) as [Hsent Hgot]; [lia|].
  rewrite Hfin in Hbehind, Hsame. rewrite Hsent in Hbehind, Hsame.
  destruct (iteration_near world_size board Hws s Hsep r Hr) as [Heq|[Heq|Heq]].
  - specialize (Hsame Heq).
    rewrite (finished_together a world_size s Hcnt 0 r) in Hsame
      by (done || lia).
    by destruct Hsame.
  - by destruct (Hahead Heq) as (_ & -> & ->).
  - by destruct (Hbehind Heq) as (_ & -> & ->).
Qed.

Section Progress.
Context (a : Args) (world_size : Z) (board : list bool) (s : World).
Hypothesis Hok : board_ok (width a) (height a).
Hypothesis Hws : 1 <= world_size <= Int.INT_MAX.
Hypothesis Hboard : Z.of_nat (length board) = width a * height a.
Hypothesis Hsep : separated world_size (procs s).
Hypothesis Hcnt : counted a world_size (procs s).
Hypothesis Hinv : holds a world_size board s.

Local Abbreviation total := (width a * height a).
Local Abbreviation proc_data := (partition_spec (width a * height a) world_size).
Local Abbreviation B := (board_at (width a) (height a) board).
Local Abbreviation start := (part_start (width a * height a) world_size).
Local Abbreviation can_step := (exists s', step a world_size proc_data s s').

Lemma rank_sized r : 0 <= r < world_size -> sized a (mem (procs s r)).
Proof using All.
  intros Hr. destruct Hinv as [[Hsz _] Hwi].
  destruct (decide (r = 0)) as [->|Hne]; [done|].
  by destruct (Hwi r ltac:(lia)) as (Hszr & _).
Qed.

Lemma rank_can_compute r :
  0 <= r < world_size -> pc (procs s r) = Compute -> can_step.
Proof using All.
  intros Hr Hpc. destruct (rank_sized r Hr) as [Hl Hn].
  destruct (proc_data_load a world_size board Hok Hws r Hr) as (Hload & Hs0 & Hs1).
  destruct (apply_rules_spec proc_data (pm_last (mem (procs s r)))
              (fresh (pm_new (mem (procs s r)))) r (width a) (height a) _
              Hok Hl Hn Hload) as (new & Hrun & _); cbn [offset num_cells]; [lia..|].
  destruct (decide (r = 0)) as [->|Hne]; eexists.
  - eapply step_compute_coord; [reflexivity|exact Hpc|exact Hrun].
  - eapply step_compute_worker with (r := r); [lia|reflexivity|exact Hpc|exact Hrun].
Qed.

(** A rank that is behind rank 0, or that rank 0 is behind of, is inside
    the barrier and may leave it. *)
Lemma entered_all g :
  (forall q, 0 < q < world_size -> iteration (procs s q) + 1 <> iteration (procs s 0)) ->
  (g = iteration (procs s 0) -> pc (procs s 0) = InBarrier) ->
  g <= iteration (procs s 0) ->
  (forall q, 0 < q < world_size -> iteration (procs s q) = g ->
     pc (procs s q) = InBarrier) ->
  forall q, 0 <= q < world_size -> entered s g q.
Proof using All.
  intros Hnone H0 Hle Hin q Hq. unfold entered.
  destruct (decide (q = 0)) as [->|Hne].
  - destruct (decide (g = iteration (procs s 0))) as [Heq|Hlt]; [|left; lia].
    right. split; [done|by apply H0].
  - destruct (iteration_near world_size board Hws s Hsep q ltac:(lia))
      as [Heq|[Heq|Heq]].
    + destruct (decide (g = iteration (procs s 0))) as [Hg|Hg]; [|left; lia].
      right. split; [lia|]. apply Hin; lia.
    + left. lia.
    + by destruct (Hnone q ltac:(lia)).
Qed.

Lemma behind_can_leave r :
  0 < r < world_size -> iteration (procs s r) + 1 = iteration (procs s 0) ->
  can_step.
Proof using All.
  intros Hr Hbehind.
  pose proof (worker_behind world_size board Hws s Hsep r Hr Hbehind) as Hpc.
  eexists. eapply step_leave_barrier with (r := r);
    [lia|reflexivity|exact Hpc|].
  intros q Hq. unfold entered.
  destruct (decide (q = 0)) as [->|Hne]; [left; lia|].
  destruct (iteration_near world_size board Hws s Hsep q ltac:(lia))
    as [Heq|[Heq|Heq]]; [left; lia|left; lia|].
  right. split; [lia|].
  by apply (worker_behind world_size board Hws s Hsep q ltac:(lia)).
Qed.

(** Either some worker is behind rank 0 or none is. *)
Lemma some_worker_behind :
  (exists r, 0 < r < world_size
             /\ iteration (procs s r) + 1 = iteration (procs s 0))
  \/ (forall q, 0 < q < world_size ->
        iteration (procs s q) + 1 <> iteration (procs s 0)).
Proof using All.
  destruct (decide (Forall (fun q => iteration (procs s q) + 1
                                     <> iteration (procs s 0))
                      (seqZ 1 (world_size - 1)))) as [Hall|Hex].
  - right. intros q Hq. rewrite Forall_forall in Hall. apply Hall.
    apply elem_of_seqZ. lia.
  - left. apply not_Forall_Exists in Hex; [|apply _].
    apply Exists_exists in Hex as (r & Hr%elem_of_seqZ & Hb). cbn in Hb.
    exists r. split; [lia|]. lia.
Qed.

(** A worker in the iteration of rank 0 that rank 0 waits for can go on. *)
Lemma waited_for_can_step k :
  0 < k < world_size -> pc (procs s 0) = RecvPart k -> can_step.
Proof using All.
  intros Hk Hpc0. pose proof Hinv as [Hci Hwi].
  destruct (rank_sized 0 ltac:(lia)) as [Hl0 Hn0].
  destruct (rank_sized k ltac:(lia)) as [Hlk Hnk].
  destruct (proc_data_load a world_size board Hok Hws k ltac:(lia))
    as (Hload & Hs0 & Hs1).
  destruct (total_pos a board Hok) as [_ Hmul].
  destruct (to_coord s k) as [|msg rest] eqn:Hqc.
  - destruct (Hwi k Hk) as (_ & Hahead & Hbehind & Hsame).
    destruct (iteration_near world_size board Hws s Hsep k Hk) as [Heq|[Heq|Heq]].
    + specialize (Hsame Heq). rewrite Hpc0 in Hsame.
      assert (sent world_size (RecvPart k) k = true) as Hsent
        by (unfold sent, progress; apply Z.ltb_lt; lia).
      assert (got world_size (RecvPart k) k = false) as Hgot
        by (unfold got, progress; apply Z.ltb_ge; lia).
      rewrite Hsent, Hgot, Hqc in Hsame.
      destruct (pc (procs s k)) eqn:Hpck; try done.
      * by apply (rank_can_compute k); [lia|].
      * destruct Hsame as (_ & _ & Hqw).
        destruct (mpi_recv_spec (fresh (pm_last (mem (procs s k)))) 0 total
                    (B (iteration (procs s 0))))
          as (last & Hrecv & _); [lia|by apply B_length|cbn; lia|].
        eexists. eapply step_recv_world with (r := k);
          [lia|reflexivity|exact Hpck|exact Hqw|]. rewrite Hmul. exact Hrecv.
      * destruct (mpi_send_spec (pm_new (mem (procs s k))) (start k)
                    (start (k + 1) - start k)) as (m & Hsend & _); [lia..|].
        eexists. eapply step_send_part with (r := k);
          [lia|reflexivity|exact Hpck|exact Hload|exact Hsend].
      * by destruct Hsame as (_ & _ & ? & [=] & _).
      * pose proof (finished_together a world_size s Hcnt k 0 ltac:(lia)
                      ltac:(lia) Heq Hpck) as Hf. congruence.
    + pose proof (worker_ahead world_size board Hws s Hsep k Hk Heq). congruence.
    + by apply (behind_can_leave k).
  - destruct (recv_part_msg a world_size board Hws s Hsep Hinv k msg rest
                Hpc0 Hk Hqc) as (_ & [Hlen _] & _).
    destruct (mpi_recv_spec (fresh (pm_new (mem (procs s 0)))) (start k)
                (start (k + 1) - start k) msg)
      as (new & Hrecv & _); [lia|done|cbn; lia|].
    eexists. eapply step_recv_part;
      [reflexivity|exact Hpc0|lia|exact Hqc|exact Hload|exact Hrecv].
Qed.

End Progress.


(** Rank 0 never passes the last iteration, and once it has left the loop
    it holds the board of the iteration it stopped at. *)
Lemma rank0_final (a : Args) (world_size : Z) (board : list bool) (s : World) :
  board_ok (width a) (height a) ->
  1 <= world_size <= Int.INT_MAX ->
  Z.of_nat (length board) = width a * height a ->
  reachable a world_size (partition_spec (width a * height a) world_size)
    board s ->
  iteration (procs s 0) <= Z.max 0 (Int.add (iterations a) 1)
  /\ (pc (procs s 0) = Finished ->
      pm_last (mem (procs s 0))
      = board_at (width a) (height a) board (iteration (procs s 0))).
Proof.
  intros Hok Hws Hboard Hreach.
  induction Hreach as [|s s' Hreach [IHle IHfin] Hstep].
  - cbn. split; [lia|done].
  - destruct (holds_reachable a world_size board Hok Hws Hboard s Hreach)
      as (Hsep & Hcnt & [[_ Hci] _]).
    destruct Hcnt as (Hc & _).
    destruct Hstep as
      [s c k msg Hc0 Hpc Hlt Hsend
      |s c k Hc0 Hpc Hge
      |s c new Hc0 Hpc Hrun
      |s c k msg rest pd new Hc0 Hpc Hlt Hq Hpd Hrecv
      |s c k Hc0 Hpc Hge
      |s c Hc0 Hpc
      |s r p msg rest last Hr Hp Hpc Hq Hrecv
      |s r p new Hr Hp Hpc Hrun
      |s r p pd msg Hr Hp Hpc Hpd Hsend
      |s r p Hr Hp Hpc Hall];
      cbn [procs]; subst.
    1-6: rewrite fn_lookup_insert; cbn [pc iteration mem at_pc];
      (split; [done|discriminate]).
    1-3: rewrite fn_lookup_insert_ne by lia; done.
    destruct (decide (r = 0)) as [->|Hne];
      [|rewrite fn_lookup_insert_ne by done; done].
    rewrite fn_lookup_insert. cbn [pc iteration mem].
    destruct (Hc 0 ltac:(lia)) as (_ & _ & Hfin).
    apply (not_finished_lt a) in Hfin; [|congruence].
    split; [lia|]. intros _. by rewrite Hpc in Hci.
Qed.


(** The run of [one_pass_args] on two ranks, to its end. *)
Lemma one_pass_run :
  exists s, reachable one_pass_args 2 demo_table demo_board s
            /\ pc (procs s 0) = Finished /\ pc (procs s 1) = Finished.
Proof.
  pose proof (reachable_initial one_pass_args 2 demo_table demo_board) as H.
  run_step H ltac:(eapply step_send_world;
                   [reflexivity | reflexivity | reflexivity | cbv; reflexivity]).
  run_step H ltac:(eapply step_send_world_done;
                   [reflexivity | reflexivity | discriminate]).
  run_step H ltac:(eapply step_compute_coord;
                   [reflexivity | reflexivity | cbv; reflexivity]).
  run_step H ltac:(eapply step_recv_world with (r := 1);
                   [split; reflexivity | reflexivity | reflexivity
                   | cbv; reflexivity | cbv; reflexivity]).
  run_step H ltac:(eapply step_compute_worker with (r := 1);
                   [split; reflexivity | reflexivity | reflexivity
                   | cbv; reflexivity]).
  run_step H ltac:(eapply step_send_part with (r := 1);
                   [split; reflexivity | reflexivity | reflexivity
                   | cbv; reflexivity | cbv; reflexivity]).
  run_step H ltac:(eapply step_recv_part;
                   [reflexivity | reflexivity | reflexivity | cbv; reflexivity
                   | cbv; reflexivity | cbv; reflexivity]).
  run_step H ltac:(eapply step_recv_part_done;
                   [reflexivity | reflexivity | discriminate]).
  run_step H ltac:(eapply step_swap; [reflexivity | reflexivity]).
  run_step H ltac:(eapply step_leave_barrier with (r := 1);
                   [split; [discriminate | reflexivity] | reflexivity | reflexivity
                   | intros q Hq; assert (q = 0 \/ q = 1) as [-> | ->] by lia;
                     right; split; reflexivity]).
  run_step H ltac:(eapply step_leave_barrier with (r := 0);
                   [split; [discriminate | reflexivity] | reflexivity | reflexivity
                   | intros q Hq; assert (q = 0 \/ q = 1) as [-> | ->] by lia;
                     [right; split; reflexivity | left; reflexivity]]).
  eexists. split; [exact H|]. split; reflexivity.
Qed.

Lemma no_message_left_at_the_end_witness :
  exists s, reachable one_pass_args 2 demo_table demo_board s
            /\ to_worker s 1 = [] /\ to_coord s 1 = [].
Proof.
  destruct one_pass_run as (s & Hreach & Hfin & _).
  exists s. split; [exact Hreach|].
  apply (no_message_left_at_the_end one_pass_args 2 demo_table demo_board s 1).
  - unfold board_ok, Int.INT_MAX. simpl. lia.
  - unfold Int.INT_MAX. lia.
  - reflexivity.
  - reflexivity.
  - exact Hreach.
  - exact Hfin.
  - lia.
Defined.



(** ** The loop comes to an end *)

Lemma sum_work_insert world_size (P : Z -> Proc) r p' (l : list Z) :
  NoDup l ->
  foldr (fun q acc => work world_size ((<[r := p']> P) q) + acc) 0 l
  = foldr (fun q acc => work world_size (P q) + acc) 0 l
    + (if decide (r ∈ l) then work world_size p' - work world_size (P r) else 0).
Proof.
  induction 1 as [|q l Hq _ IH]; [done|]. cbn [foldr]. rewrite IH.
  destruct (decide (r = q)) as [->|Hne].
  - rewrite fn_lookup_insert.
    rewrite (decide_False (P := q ∈ l)) by done.
    rewrite (decide_True (P := q ∈ q :: l)) by (rewrite elem_of_cons; auto). lia.
  - rewrite fn_lookup_insert_ne by done.
    destruct (decide (r ∈ l)) as [Hin|Hnin].
    + rewrite (decide_True (P := r ∈ q :: l)) by (rewrite elem_of_cons; auto).
      lia.
    + rewrite (decide_False (P := r ∈ q :: l)); [lia|].
      rewrite elem_of_cons. tauto.
Qed.

Lemma total_work_insert world_size (P : Z -> Proc) r p' :
  0 <= r < world_size ->
  total_work world_size (<[r := p']> P)
  = total_work world_size P + (work world_size p' - work world_size (P r)).
Proof.
  intros Hr. unfold total_work. rewrite sum_work_insert by apply NoDup_seqZ.
  rewrite decide_True; [done|]. apply elem_of_seqZ. lia.
Qed.

Lemma pc_pos_bound world_size c :
  1 <= world_size -> pc_pos world_size c <= 2 * world_size + 3.
Proof. intros Hws. destruct c; cbn; lia. Qed.

(** Every step takes one rank further. *)
Lemma step_work (a : Args) (world_size : Z) (proc_data : list ProcInfo)
    (s s' : World) :
  1 <= world_size ->
  step a world_size proc_data s s' ->
  total_work world_size (procs s) + 1 <= total_work world_size (procs s').
Proof.
  intros Hws Hstep.
  destruct Hstep as
    [s c k msg Hc0 Hpc Hlt Hsend
    |s c k Hc0 Hpc Hge
    |s c new Hc0 Hpc Hrun
    |s c k msg rest pd new Hc0 Hpc Hlt Hq Hpd Hrecv
    |s c k Hc0 Hpc Hge
    |s c Hc0 Hpc
    |s r p msg rest last Hr Hp Hpc Hq Hrecv
    |s r p new Hr Hp Hpc Hrun
    |s r p pd msg Hr Hp Hpc Hpd Hsend
    |s r p Hr Hp Hpc Hall];
    cbn [procs]; subst; rewrite total_work_insert by lia;
    unfold work; cbn [pc iteration at_pc]; rewrite Hpc; cbn [pc_pos]; try lia.
  pose proof (pc_pos_bound world_size
                (loop_head a r (iteration (procs s r) + 1)) Hws).
  assert (0 <= pc_pos world_size (loop_head a r (iteration (procs s r) + 1))).
  { unfold loop_head. repeat case_match; cbn; lia. }
  lia.
Qed.

(** No rank passes the last iteration. *)
Lemma iteration_bound (a : Args) (world_size : Z) (proc_data : list ProcInfo)
    (board : list bool) (s : World) (r : Z) :
  1 <= world_size ->
  reachable a world_size proc_data board s ->
  0 <= r < world_size ->
  iteration (procs s r) <= Z.max 0 (Int.add (iterations a) 1).
Proof.
  intros Hws Hreach. revert r.
  induction Hreach as [|s s' Hreach IH Hstep]; intros q Hq; [cbn; lia|].
  destruct (control_reachable a world_size proc_data board Hws s Hreach)
    as [_ (Hc & _)].
  destruct Hstep as
    [s c k msg Hc0 Hpc Hlt Hsend
    |s c k Hc0 Hpc Hge
    |s c new Hc0 Hpc Hrun
    |s c k msg rest pd new Hc0 Hpc Hlt Hq' Hpd Hrecv
    |s c k Hc0 Hpc Hge
    |s c Hc0 Hpc
    |s r p msg rest last Hr Hp Hpc Hq' Hrecv
    |s r p new Hr Hp Hpc Hrun
    |s r p pd msg Hr Hp Hpc Hpd Hsend
    |s r p Hr Hp Hpc Hall];
    cbn [procs]; subst;
    match goal with
    | |- iteration ((<[?r := _]> _) q) <= _ =>
        destruct (decide (r = q)) as [<-|Hne];
        [rewrite fn_lookup_insert; cbn [iteration at_pc]
        |rewrite fn_lookup_insert_ne by done; by apply IH]
    end; try (by apply IH).
  destruct (Hc r Hq) as (_ & _ & Hfin).
  apply (not_finished_lt a) in Hfin; [lia|congruence].
Qed.

Lemma run_reachable (a : Args) (world_size : Z) (proc_data : list ProcInfo)
    (board : list bool) (n : nat) (s : World) :
  run a world_size proc_data (initial_world a board) n s ->
  reachable a world_size proc_data board s.
Proof.
  induction 1 as [|n s1 s2 _ IH Hstep]; [apply reachable_initial|].
  by apply (reachable_step _ _ _ _ s1).
Qed.

Lemma sum_work_acc world_size (P : Z -> Proc) (l : list Z) x :
  foldr (fun r acc => work world_size (P r) + acc) x l
  = foldr (fun r acc => work world_size (P r) + acc) 0 l + x.
Proof.
  revert x. induction l as [|y l IH]; intros x; cbn [foldr]; [lia|].
  rewrite IH. lia.
Qed.

Lemma total_work_upper world_size (P : Z -> Proc) (hi : Z) :
  0 <= world_size ->
  (forall r, 0 <= r < world_size -> work world_size (P r) <= hi) ->
  total_work world_size P <= world_size * hi.
Proof.
  intros Hws Hb. unfold total_work.
  assert (forall n : nat, Z.of_nat n <= world_size ->
            foldr (fun r acc => work world_size (P r) + acc) 0
              (seqZ 0 (Z.of_nat n))
            <= Z.of_nat n * hi) as Hn.
  { induction n as [|n IH]; intros Hle.
    { change (Z.of_nat 0) with 0. rewrite seqZ_nil by lia. cbn [foldr]. lia. }
    replace (Z.of_nat (S n)) with (Z.of_nat n + 1) by lia.
    rewrite seqZ_snoc, foldr_app by lia. cbn [foldr]. rewrite Z.add_0_l.
    specialize (IH ltac:(lia)). specialize (Hb (Z.of_nat n) ltac:(lia)).
    rewrite sum_work_acc. lia. }
  specialize (Hn (Z.to_nat world_size)). rewrite Z2Nat.id in Hn by lia.
  apply Hn. lia.
Qed.

Lemma total_work_lower world_size (P : Z -> Proc) (lo : Z) :
  0 <= world_size ->
  (forall r, 0 <= r < world_size -> lo <= work world_size (P r)) ->
  world_size * lo <= total_work world_size P.
Proof.
  intros Hws Hb. unfold total_work.
  assert (forall n : nat, Z.of_nat n <= world_size ->
            Z.of_nat n * lo
            <= foldr (fun r acc => work world_size (P r) + acc) 0
                 (seqZ 0 (Z.of_nat n))) as Hn.
  { induction n as [|n IH]; intros Hle.
    { change (Z.of_nat 0) with 0. rewrite seqZ_nil by lia. cbn [foldr]. lia. }
    replace (Z.of_nat (S n)) with (Z.of_nat n + 1) by lia.
    rewrite seqZ_snoc, foldr_app by lia. cbn [foldr]. rewrite Z.add_0_l.
    specialize (IH ltac:(lia)). specialize (Hb (Z.of_nat n) ltac:(lia)).
    rewrite sum_work_acc. lia. }
  specialize (Hn (Z.to_nat world_size)). rewrite Z2Nat.id in Hn by lia.
  apply Hn. lia.
Qed.

Lemma run_work (a : Args) (world_size : Z) (proc_data : list ProcInfo)
    (s0 : World) (n : nat) (s : World) :
  1 <= world_size ->
  run a world_size proc_data s0 n s ->
  total_work world_size (procs s0) + Z.of_nat n <= total_work world_size (procs s).
Proof.
  intros Hws. induction 1 as [|n s1 s2 _ IH Hstep]; [lia|].
  pose proof (step_work a world_size proc_data s1 s2 Hws Hstep). lia.
Qed.



(** ** A single live cell *)

Lemma lone_at_inside width height R C r c :
  0 <= R < height -> 0 <= C < width ->
  lone_at R C r c = true -> in_board2 width height r c = true.
Proof.
  unfold lone_at, in_board2. intros HR HC.
  rewrite !andb_true_iff, !Z.eqb_eq, !Z.leb_le, !Z.ltb_lt. lia.
Qed.

Lemma lone_at_next width height R C cell :
  board_ok width height -> 3 <= width ->
  0 <= R < height -> 0 <= C < width ->
  0 <= cell < width * height ->
  nextState_spec cell (board2 width height (lone_at R C)) width height = false.
Proof.
  intros Hok Hw3 HR HC Hc. pose proof Hok as (Hw & Hh & _).
  unfold nextState_spec.
  rewrite liveNeighbors_2d by (done || apply board2_length; lia).
  rewrite cell_at_board2 by done.
  unfold steps. cbn [foldr fst snd].
  rewrite !live_at_inside by (done || apply lone_at_inside; lia).
  generalize (row_of width cell) (col_of width cell). intros r c.
  unfold lone_at.
  destruct (around r R) as [?|[?|[?|[?|[?|[?|?]]]]]];
    destruct (around c C) as [?|[?|[?|[?|[?|[?|?]]]]]];
    settle_comparisons; reflexivity.
Qed.

(** X22.  On a board at least three cells wide a single live cell, wherever
    it is, dies of isolation and nothing is born: one generation of the
    program on any number of ranks gives the board without a live cell. *)
Theorem lone_cell_dies (width height world_size R C : Z) :
  board_ok width height -> 1 <= world_size <= Int.INT_MAX ->
  3 <= width -> 0 <= R < height -> 0 <= C < width ->
  generation width height world_size (board2 width height (lone_at R C))
  = Some (calloc_bool (Int.mul width height)).
Proof.
  intros Hok Hws Hw3 HR HC. destruct (board_ok_cells _ _ Hok) as (HN & HNf & _).
  rewrite generation_spec by (done || apply board2_length; lia).
  f_equal. rewrite mul_fits by done. unfold calloc_bool.
  apply list_eq. intros k. rewrite list_lookup_fmap.
  destruct (decide (k < Z.to_nat (width * height))%nat) as [Hk|Hk].
  - rewrite lookup_seqZ_lt, lookup_replicate_2 by lia. cbn.
    rewrite lone_at_next; [done..|lia].
  - rewrite lookup_seqZ_ge by lia.
    rewrite lookup_ge_None_2 by (rewrite length_replicate; lia). done.
Qed.

Lemma lone_cell_dies_witness :
  generation 3 2 2 (board2 3 2 (lone_at 1 2)) = Some (calloc_bool (Int.mul 3 2)).
Proof.
  apply (lone_cell_dies 3 2 2 1 2).
  - unfold board_ok, Int.INT_MAX. lia.
  - unfold Int.INT_MAX. lia.
  - lia.
  - lia.
  - lia.
Defined.
